(** * Model loaders of react-vr-web: GLTF2ModelLoader.js and the FBX loader

    A shallow embedding of the two loader modules and the properties their
    specification states about them.  The JavaScript values that reach the
    loaders (definitions, animation parameters) are modelled as a small
    JSON-like data type; objects the loaders own (mesh instances, the
    module-level cache and load list) are explicit state; the 3D engine and
    the host (parent views, console, request-animation-frame queue, network
    loader) are modelled by the calls the loaders make on them. *)

From Stdlib Require Import Floats.
From stdpp Require Import base option list gmap sets strings pretty.

Set Default Proof Using "Type".
Set Warnings "-register-all,-clear-no-such-hyp".


(** ** JavaScript values *)

(** Definitions arrive as plain data.  An object lists its own enumerable
    properties in enumeration order. *)
Inductive value : Type :=
| VUndefined
| VNull
| VBool (b : bool)
| VNum (x : float)
| VStr (s : string)
| VObj (props : list (string * value))
| VArr (items : list value).

(** ToBoolean: what [if (v)], [!!v], [v ? a : b], [v && w] and [v || w] test. *)
Definition truthy (v : value) : bool :=
  match v with
  | VUndefined | VNull => false
  | VBool b => b
  | VNum x => negb (PrimFloat.is_zero x || PrimFloat.is_nan x)
  | VStr s => negb (String.eqb s "")
  | VObj _ | VArr _ => true
  end.

(** Reading a property of [null] or [undefined] throws. *)
Definition nullish (v : value) : bool :=
  match v with
  | VUndefined | VNull => true
  | _ => false
  end.

Definition chars (s : string) : list value :=
  (fun c => VStr (String c "")) <$> String.list_ascii_of_string s.

(** Own enumerable properties, in the order [for (const key in v)] visits
    them. *)
Definition entries (v : value) : list (string * value) :=
  match v with
  | VObj props => props
  | VArr items => imap (fun i x => (pretty i, x)) items
  | VStr s => imap (fun i x => (pretty i, x)) (chars s)
  | _ => []
  end.

Fixpoint assoc (k : string) (l : list (string * value)) : option value :=
  match l with
  | [] => None
  | (k', v) :: l => if String.eqb k k' then Some v else assoc k l
  end.

Definition num_of_nat (n : nat) : float :=
  PrimFloat.of_uint63 (Uint63.of_Z (Z.of_nat n)).

(** [v.k] and [v[k]] on a value that is neither [null] nor [undefined]. *)
Definition get (v : value) (k : string) : value :=
  match assoc k (entries v) with
  | Some x => x
  | None =>
      if String.eqb k "length" then
        match v with
        | VArr items => VNum (num_of_nat (length items))
        | VStr s => VNum (num_of_nat (String.length s))
        | _ => VUndefined
        end
      else VUndefined
  end.

(** [v === 0] *)
Definition is_zero (v : value) : bool :=
  match v with
  | VNum x => PrimFloat.eqb x 0%float
  | _ => false
  end.

(** [Object.prototype.hasOwnProperty] *)
Definition hasOwnProperty (v : value) (k : string) : bool :=
  match assoc k (entries v) with
  | Some _ => true
  | None =>
      String.eqb k "length" &&
      match v with VArr _ | VStr _ => true | _ => false end
  end.

(** [c ? c : d] *)
Definition or_else (c d : value) : value := if truthy c then c else d.

(** ** Plain objects used as maps

    [loadList] and [allAnimations] are plain objects ([{}]), kept as finite
    maps of their own properties.  Reading a name that is not an own
    property goes on to [Object.prototype]: its members below (functions,
    and for [__proto__] the prototype object itself) are all truthy, and
    none of them is an array of callbacks or an action. *)
Definition objectPrototype : list string :=
  ["constructor"; "__defineGetter__"; "__defineSetter__"; "hasOwnProperty";
   "__lookupGetter__"; "__lookupSetter__"; "isPrototypeOf";
   "propertyIsEnumerable"; "toString"; "valueOf"; "__proto__";
   "toLocaleString"].

Definition inherited (name : string) : bool :=
  bool_decide (name ∈ objectPrototype).

(** What [object[name]] finds. *)
Inductive Found (A : Type) : Type :=
| Own (x : A)
| Member (name : string)
| Missing.
Arguments Own {A} x.
Arguments Member {A} name.
Arguments Missing {A}.

Definition read {A} (object : gmap string A) (name : string) : Found A :=
  match object !! name with
  | Some x => Own x
  | None => if inherited name then Member name else Missing
  end.

(** ** Completions: a call returns or throws, and keeps the state it reached *)

Inductive error : Type := TypeError.

Inductive completion (A S : Type) : Type :=
| Return (a : A) (s : S)
| Throws (e : error) (s : S).
Arguments Return {A S} a s.
Arguments Throws {A S} e s.

Definition bind {A B S} (c : completion A S) (k : A -> S -> completion B S)
  : completion B S :=
  match c with
  | Return a s => k a s
  | Throws e s => Throws e s
  end.

Definition final {A S} (c : completion A S) : S :=
  match c with
  | Return _ s => s
  | Throws _ s => s
  end.

Notation "'let*' a , s := c 'in' k" := (bind c (fun a s => k))
  (at level 10, a name, s name, c at level 100, k at level 200, only parsing).

(** ** Scene graphs and [recursiveDispose] *)

(** A node of the engine's scene graph, with what [recursiveDispose] reads
    of it: whether it has a [dispose] method of its own, its geometry and
    material when present, and its children. *)
Inductive Node : Type :=
| MkNode (id : nat) (own_dispose : bool)
         (geometry material : option nat) (children : list Node).

Definition node_id (n : Node) : nat :=
  match n with MkNode id _ _ _ _ => id end.
Definition node_dispose (n : Node) : bool :=
  match n with MkNode _ d _ _ _ => d end.
Definition node_geometry (n : Node) : option nat :=
  match n with MkNode _ _ g _ _ => g end.
Definition node_material (n : Node) : option nat :=
  match n with MkNode _ _ _ m _ => m end.
Definition node_children (n : Node) : list Node :=
  match n with MkNode _ _ _ _ c => c end.

(** The dispose calls made on engine objects. *)
Inductive Disposed : Type :=
| DNode (id : nat)
| DGeometry (g : nat)
| DMaterial (m : nat).

Fixpoint recursiveDispose (node : Node) : list Disposed :=
  match node with
  | MkNode id own geometry material children =>
      (if own then [DNode id] else []) ++
      (match geometry with Some g => [DGeometry g] | None => [] end) ++
      (match material with Some m => [DMaterial m] | None => [] end) ++
      flat_map recursiveDispose children
  end.

(** Nodes reachable from a root through [children]. *)
Inductive reachable (root : Node) : Node -> Prop :=
| reach_root : reachable root root
| reach_child n c : reachable root n -> c ∈ node_children n -> reachable root c.

(** A loaded asset: the scene graph and the names of its animation clips, in
    the order of the asset's [animations] array.  A clip is identified by its
    position in that array. *)
Record Model : Type := {
  model_scene : Node;
  model_animations : list string
}.

(** ** [canLoad] *)

(** [definition && definition.hasOwnProperty(field)].  The method is found on
    [Object.prototype] unless the definition has an own property of that
    name, which (being data) is not callable. *)
Definition canLoad (field : string) (definition : value) : completion value unit :=
  if truthy definition then
    match assoc "hasOwnProperty" (entries definition) with
    | Some _ => Throws TypeError ()
    | None => Return (VBool (hasOwnProperty definition field)) ()
    end
  else Return definition ().

(** ** The animation engine, as the loaders drive it *)

(** An [AnimationAction].  The record keeps what the loaders tell the
    engine: the arguments of the last [fadeIn], [setEffectiveTimeScale],
    [setEffectiveWeight] and [syncWith] calls (the two setters write the
    action's [timeScale] and [weight] properties, which the FBX loader also
    assigns directly), whether [play] or [stop] came last, and the value the
    FBX loader assigns to the action's [fadeIn] property, which from then on
    hides the method of that name.  [syncWith] is given what
    [this.allAnimations[name]] found: an action of the instance, or the
    member of [Object.prototype] of that name. *)
Inductive Partner : Type :=
| ThisAction (a : nat)
| PrototypeMember (name : string).

Record Action : Type := {
  act_mixer : nat;
  act_clip : nat;
  act_playing : bool;
  act_fade : option value;
  act_timeScale : value;
  act_weight : value;
  act_sync : option Partner;
  act_fadeIn_own : option value
}.

Definition new_action (m clip : nat) : Action :=
  {| act_mixer := m; act_clip := clip; act_playing := false; act_fade := None;
     act_timeScale := VNum 1; act_weight := VNum 1; act_sync := None;
     act_fadeIn_own := None |}.

Definition with_playing (b : bool) (a : Action) : Action :=
  {| act_mixer := act_mixer a; act_clip := act_clip a; act_playing := b;
     act_fade := act_fade a; act_timeScale := act_timeScale a;
     act_weight := act_weight a; act_sync := act_sync a;
     act_fadeIn_own := act_fadeIn_own a |}.

Definition with_fade (d : value) (a : Action) : Action :=
  {| act_mixer := act_mixer a; act_clip := act_clip a;
     act_playing := act_playing a; act_fade := Some d;
     act_timeScale := act_timeScale a; act_weight := act_weight a;
     act_sync := act_sync a; act_fadeIn_own := act_fadeIn_own a |}.

Definition with_timeScale (t : value) (a : Action) : Action :=
  {| act_mixer := act_mixer a; act_clip := act_clip a;
     act_playing := act_playing a; act_fade := act_fade a;
     act_timeScale := t; act_weight := act_weight a;
     act_sync := act_sync a; act_fadeIn_own := act_fadeIn_own a |}.

Definition with_weight (x : value) (a : Action) : Action :=
  {| act_mixer := act_mixer a; act_clip := act_clip a;
     act_playing := act_playing a; act_fade := act_fade a;
     act_timeScale := act_timeScale a; act_weight := x;
     act_sync := act_sync a; act_fadeIn_own := act_fadeIn_own a |}.

Definition with_sync (b : Partner) (a : Action) : Action :=
  {| act_mixer := act_mixer a; act_clip := act_clip a;
     act_playing := act_playing a; act_fade := act_fade a;
     act_timeScale := act_timeScale a; act_weight := act_weight a;
     act_sync := Some b; act_fadeIn_own := act_fadeIn_own a |}.

Definition with_fadeIn_own (d : value) (a : Action) : Action :=
  {| act_mixer := act_mixer a; act_clip := act_clip a;
     act_playing := act_playing a; act_fade := act_fade a;
     act_timeScale := act_timeScale a; act_weight := act_weight a;
     act_sync := act_sync a; act_fadeIn_own := Some d |}.

(** An [AnimationMixer]: its root and the time steps given to [update]. *)
Record Mixer : Type := {
  mx_root : Node;
  mx_updates : list float
}.

(** ** Mesh instances *)

(** The fields of [GLTF2MeshInstance] and [FBXMeshInstance] (the two classes
    declare the same ones), followed by the engine objects created through
    the instance: its mixers and their actions.  [mixer], [allAnimations]
    and [act_sync] hold references into these two stores.  [scene] is [None]
    while the property is absent.  [activeAnimations] is an object whose
    values are all [true], that is, a set of names; the order in which its
    keys are visited does not show in what [updateAnimation] leaves. *)
Record MeshInstance : Type := {
  url : string;
  parent : nat;
  scene : option Node;
  mixer : option nat;
  timeStamp : float;
  activeAnimations : gset string;
  allAnimations : gmap string nat;
  animationParams : value;
  mixers : list Mixer;
  actions : list Action
}.

Definition set_scene (s : option Node) (i : MeshInstance) : MeshInstance :=
  {| url := url i; parent := parent i; scene := s; mixer := mixer i;
     timeStamp := timeStamp i; activeAnimations := activeAnimations i;
     allAnimations := allAnimations i; animationParams := animationParams i;
     mixers := mixers i; actions := actions i |}.

Definition set_activeAnimations (s : gset string) (i : MeshInstance) : MeshInstance :=
  {| url := url i; parent := parent i; scene := scene i; mixer := mixer i;
     timeStamp := timeStamp i; activeAnimations := s;
     allAnimations := allAnimations i; animationParams := animationParams i;
     mixers := mixers i; actions := actions i |}.

Definition set_allAnimations (m : gmap string nat) (i : MeshInstance) : MeshInstance :=
  {| url := url i; parent := parent i; scene := scene i; mixer := mixer i;
     timeStamp := timeStamp i; activeAnimations := activeAnimations i;
     allAnimations := m; animationParams := animationParams i;
     mixers := mixers i; actions := actions i |}.

Definition set_actions (l : list Action) (i : MeshInstance) : MeshInstance :=
  {| url := url i; parent := parent i; scene := scene i; mixer := mixer i;
     timeStamp := timeStamp i; activeAnimations := activeAnimations i;
     allAnimations := allAnimations i; animationParams := animationParams i;
     mixers := mixers i; actions := l |}.

Definition set_mixers (l : list Mixer) (i : MeshInstance) : MeshInstance :=
  {| url := url i; parent := parent i; scene := scene i; mixer := mixer i;
     timeStamp := timeStamp i; activeAnimations := activeAnimations i;
     allAnimations := allAnimations i; animationParams := animationParams i;
     mixers := l; actions := actions i |}.

Definition set_mixer (m : option nat) (i : MeshInstance) : MeshInstance :=
  {| url := url i; parent := parent i; scene := scene i; mixer := m;
     timeStamp := timeStamp i; activeAnimations := activeAnimations i;
     allAnimations := allAnimations i; animationParams := animationParams i;
     mixers := mixers i; actions := actions i |}.

(** *** Engine calls *)

Definition on_action (a : nat) (f : Action -> Action) (i : MeshInstance) : MeshInstance :=
  set_actions (alter f a (actions i)) i.

(** [new THREE.AnimationMixer(root)] *)
Definition newMixer (root : Node) (i : MeshInstance) : nat * MeshInstance :=
  (length (mixers i),
   set_mixers (mixers i ++ [{| mx_root := root; mx_updates := [] |}]) i).

(** [mixer.clipAction(clip)]: the mixer's action for that clip, created on
    first use. *)
Definition clipAction (m clip : nat) (i : MeshInstance) : nat * MeshInstance :=
  match list_find (fun a => act_mixer a = m ∧ act_clip a = clip) (actions i) with
  | Some (a, _) => (a, i)
  | None => (length (actions i), set_actions (actions i ++ [new_action m clip]) i)
  end.

(** [action.fadeIn(d)]: a call of the property [fadeIn], which is the
    engine's method unless a value was assigned over it. *)
Definition fadeIn (a : nat) (d : value) (i : MeshInstance) : completion unit MeshInstance :=
  match actions i !! a with
  | Some act =>
      match act_fadeIn_own act with
      | Some _ => Throws TypeError i
      | None => Return () (on_action a (with_fade d) i)
      end
  | None => Return () i
  end.

Definition setEffectiveTimeScale (a : nat) (t : value) : MeshInstance -> MeshInstance :=
  on_action a (with_timeScale t).
Definition setEffectiveWeight (a : nat) (x : value) : MeshInstance -> MeshInstance :=
  on_action a (with_weight x).
Definition syncWith (a : nat) (b : Partner) : MeshInstance -> MeshInstance :=
  on_action a (with_sync b).
Definition play (a : nat) : MeshInstance -> MeshInstance :=
  on_action a (with_playing true).
Definition stop (a : nat) : MeshInstance -> MeshInstance :=
  on_action a (with_playing false).

(** [mixer.stopAllAction()] *)
Definition stopAllAction (m : nat) (i : MeshInstance) : MeshInstance :=
  set_actions
    ((fun a => if decide (act_mixer a = m) then with_playing false a else a)
       <$> actions i) i.

(** [mixer.update(dt)] *)
Definition mixer_update (m : nat) (dt : float) (i : MeshInstance) : MeshInstance :=
  set_mixers
    (alter (fun x => {| mx_root := mx_root x; mx_updates := mx_updates x ++ [dt] |})
       m (mixers i)) i.

(** ** What the loaders import *)

(** [extractURL] is imported from [Utils/extractURL]; the [url] field it
    fills is declared a string, so a call that returns yields a string or a
    falsy value ([None]); a call may also throw.  [propertyKey] is the
    language's conversion of a value used as a property name, as in
    [this.allAnimations[params.syncWith]]; it throws on an object that has
    no callable [toString] or [valueOf] giving a primitive. *)
Class Runtime : Type := {
  extractURL : value -> error + option string;
  propertyKey : value -> error + string
}.

(** [extractURL(resource) || ''] *)
Definition urlOf {rt : Runtime} (resource : value) : error + string :=
  match extractURL resource with
  | inl e => inl e
  | inr u => inr (default "" u)
  end.

(** Modelled from the spec: the reference-counted cache ([Utils/RefCountCache]
    is not among the sources).  The spec describes it as "reference-counted
    per URL", "when the count reaches zero the entry's scene graph is
    recursively disposed", "reference count increments on reuse and
    decrements on disposal; eviction callback fires exactly once when count
    reaches zero".  A URL without an entry has no count to change. *)
Module RefCountCache.

Abbreviation t := (gmap string (nat * Model)).

Definition has (c : t) (path : string) : bool := bool_decide (is_Some (c !! path)).

Definition get (c : t) (path : string) : option Model := snd <$> c !! path.

Definition refs (c : t) (path : string) : nat :=
  match c !! path with Some (n, _) => n | None => 0 end.

Definition addReference (c : t) (path : string) : t :=
  match c !! path with
  | Some (n, e) => <[path := (S n, e)]> c
  | None => c
  end.

(** Returns the cache and the calls made by the eviction callback. *)
Definition removeReference (cleanup : string -> Model -> list Disposed)
    (c : t) (path : string) : t * list Disposed :=
  match c !! path with
  | Some (n, e) =>
      match Nat.pred n with
      | O => (delete path c, cleanup path e)
      | S k => (<[path := (S k, e)]> c, [])
      end
  | None => (c, [])
  end.

End RefCountCache.

(** ** Module state and the host *)

(** A [loader.load] call whose callbacks have not run yet; the callbacks
    close over the instance under construction. *)
Record Request : Type := {
  req_inst : nat;
  req_url : string;
  req_pending : bool
}.

(** A callback queued with [requestAnimationFrame].  The GLTF2 callback
    reads [this.scene] when it runs; the FBX callback holds the loaded
    object. *)
Inductive FrameCallback : Type :=
| AddSceneOf (inst : nat) (parent : nat)
| AddNode (parent : nat) (n : Node).

(** Calls on the host and on engine resources. *)
Inductive Effect : Type :=
| ConsoleError (msg : string) (url : string)
| ParentAdd (parent : nat) (child : option Node)
| ParentRemove (parent : nat) (child : Node)
| EngineDispose (d : Disposed).

(** The state of one loader module: its cache ([gltfStateCache] or
    [fbxStateCache]) and [loadList] (its own properties: for a URL, the
    instances whose [onLoad] waits for it), the instances created so far (an
    instance is named by its position), and the host's side: loads in
    flight, queued frame callbacks, and the calls received. *)
Record World : Type := {
  stateCache : gmap string (nat * Model);
  loadList : gmap string (list nat);
  instances : list MeshInstance;
  requests : list Request;
  frames : list FrameCallback;
  effects : list Effect
}.

Definition init : World :=
  {| stateCache := ∅; loadList := ∅; instances := []; requests := [];
     frames := []; effects := [] |}.

Definition set_instance (i : nat) (inst : MeshInstance) (w : World) : World :=
  {| stateCache := stateCache w; loadList := loadList w;
     instances := <[i := inst]> (instances w); requests := requests w;
     frames := frames w; effects := effects w |}.

(** Run a method of instance [i]. *)
Definition on_instance {A} (i : nat)
    (f : MeshInstance -> completion A MeshInstance) (w : World)
  : option (completion A World) :=
  match instances w !! i with
  | Some inst =>
      Some match f inst with
           | Return a inst => Return a (set_instance i inst w)
           | Throws e inst => Throws e (set_instance i inst w)
           end
  | None => None
  end.

(** The callback both caches are created with:
    [function(url, entry) { recursiveDispose(entry.scene); }]. *)
Definition cleanup (url : string) (entry : Model) : list Disposed :=
  recursiveDispose (model_scene entry).

(** ** Methods that are the same text in both files

    [setLit], [setTexture] and [setWireframe] do nothing but log in
    development builds; they are left out. *)

Module Mesh.
Section Methods.
Context {rt : Runtime}.

Definition defaultParam : value :=
  VObj [("play", VBool false); ("timeScale", VNum 0)].

Definition parseAnimationParams (definition : value) : value :=
  if truthy definition then
    let a := get definition "animations" in
    if truthy a then a else defaultParam
  else defaultParam.

Definition animName (key : string) : string := "animation_" +:+ key.

(** The body of [if (params) { ... }] for the action [anim]. *)
Definition configure (params : value) (anim : nat) (i : MeshInstance)
  : completion unit MeshInstance :=
  let* _, i := fadeIn anim (or_else (get params "fadeTime") (VNum 0)) i in
  let i := setEffectiveTimeScale anim (or_else (get params "timeScale") (VNum 1)) i in
  let i := setEffectiveWeight anim (or_else (get params "weight") (VNum 1)) i in
  let sync := get params "syncWith" in
  if truthy sync then
    match propertyKey sync with
    | inl e => Throws e i
    | inr name =>
        Return ()
          match read (allAnimations i) name with
          | Own other => syncWith anim (ThisAction other) i
          | Member name => syncWith anim (PrototypeMember name) i
          | Missing => i
          end
    end
  else Return () i.

(** One turn of [for (const key in definition.animations)].  No member of
    [Object.prototype] has a name that begins with "animation_", so the
    reads under [animName] find own properties only. *)
Definition request (animations : value) (key : string)
    (newActiveAnimations : gset string) (i : MeshInstance)
  : completion (gset string) MeshInstance :=
  let name := animName key in
  let newActiveAnimations := {[name]} ∪ newActiveAnimations in
  let* _, i :=
    match allAnimations i !! name with
    | Some anim =>
        let params := get animations key in
        let* _, i :=
          (if truthy params then configure params anim i else Return () i) in
        Return ()
          (if bool_decide (name ∈ activeAnimations i) then i else play anim i)
    | None => Return () i
    end in
  Return newActiveAnimations
    (set_activeAnimations (activeAnimations i ∖ {[name]}) i).

Fixpoint requestAll (animations : value) (keys : list string)
    (newActiveAnimations : gset string) (i : MeshInstance)
  : completion (gset string) MeshInstance :=
  match keys with
  | [] => Return newActiveAnimations i
  | key :: keys =>
      let* n, i := request animations key newActiveAnimations i in
      requestAll animations keys n i
  end.

(** [for (const key in this.activeAnimations)]: stop the leftovers. *)
Definition stopLeftover (keys : list string) (i : MeshInstance) : MeshInstance :=
  foldl (fun i key =>
           match allAnimations i !! key with
           | Some anim => stop anim i
           | None => i
           end) i keys.

Definition updateAnimation (definition : value) (i : MeshInstance)
  : completion unit MeshInstance :=
  let animations := get definition "animations" in
  if negb (truthy animations) || is_zero (get animations "length") then
    match mixer i with
    | Some m => Return () (stopAllAction m (set_activeAnimations ∅ i))
    | None => Return () i
    end
  else
    let* newActiveAnimations, i :=
      requestAll animations (fst <$> entries animations) ∅ i in
    let i := stopLeftover (elements (activeAnimations i)) i in
    Return () (set_activeAnimations newActiveAnimations i).

(** Both classes read [definition.gltf2] here. *)
Definition update (definition : value) (i : MeshInstance)
  : completion bool MeshInstance :=
  if nullish definition then Throws TypeError i
  else
    match urlOf (get definition "gltf2") with
    | inl e => Throws e i
    | inr newUrl =>
        if bool_decide (newUrl ≠ url i) then Return false i
        else
          let* _, i := updateAnimation definition i in
          Return true i
    end.

(** [0.001] is the double [0x1.0624dd2f1a9fcp-10]. *)
Definition frame (timeStampMS deltaTimeMS : float) (i : MeshInstance) : MeshInstance :=
  match mixer i with
  | Some m => mixer_update m (deltaTimeMS * 0x1.0624dd2f1a9fcp-10)%float i
  | None => i
  end.

Definition dispose (i : nat) (w : World) : World :=
  match instances w !! i with
  | Some inst =>
      match scene inst with
      | Some s =>
          let '(c, released) :=
            RefCountCache.removeReference cleanup (stateCache w) (url inst) in
          {| stateCache := c; loadList := loadList w;
             instances := <[i := set_scene None inst]> (instances w);
             requests := requests w; frames := frames w;
             effects := effects w ++ (EngineDispose <$> released)
                          ++ [ParentRemove (parent inst) s] |}
      | None => w
      end
  | None => w
  end.

(** The error callback given to [loader.load]:
    [console.error(msg, this.url); delete loadList[this.url];] *)
Definition onError (msg : string) (i : nat) (w : World) : World :=
  match instances w !! i with
  | Some inst =>
      {| stateCache := stateCache w;
         loadList := delete (url inst) (loadList w);
         instances := instances w; requests := requests w;
         frames := frames w;
         effects := effects w ++ [ConsoleError msg (url inst)] |}
  | None => w
  end.

(** The fields the constructors assign before anything else. *)
Definition fresh (u : string) (parent : nat) (definition : value) : MeshInstance :=
  {| url := u; parent := parent; scene := None; mixer := None;
     timeStamp := (-1)%float; activeAnimations := ∅; allAnimations := ∅;
     animationParams := parseAnimationParams definition;
     mixers := []; actions := [] |}.

(** [loader.load(this.url, onLoad, onProgress, onError)] *)
Definition load (i : nat) (u : string) (w : World) : World :=
  {| stateCache := stateCache w; loadList := loadList w;
     instances := instances w;
     requests := requests w ++ [{| req_inst := i; req_url := u; req_pending := true |}];
     frames := frames w; effects := effects w |}.

Definition settle (r : nat) (w : World) : World :=
  {| stateCache := stateCache w; loadList := loadList w;
     instances := instances w;
     requests := alter (fun q => {| req_inst := req_inst q; req_url := req_url q;
                                    req_pending := false |}) r (requests w);
     frames := frames w; effects := effects w |}.

(** [requestAnimationFrame(cb)] *)
Definition requestAnimationFrame (cb : FrameCallback) (w : World) : World :=
  {| stateCache := stateCache w; loadList := loadList w;
     instances := instances w; requests := requests w;
     frames := frames w ++ [cb]; effects := effects w |}.

Definition run_frame (w : World) (cb : FrameCallback) : World :=
  let e :=
    match cb with
    | AddSceneOf i p => ParentAdd p (inst ← instances w !! i; scene inst)
    | AddNode p n => ParentAdd p (Some n)
    end in
  {| stateCache := stateCache w; loadList := loadList w;
     instances := instances w; requests := requests w;
     frames := frames w; effects := effects w ++ [e] |}.

(** The next display refresh: the queued callbacks run in order. *)
Definition tick (w : World) : World :=
  foldl run_frame
    {| stateCache := stateCache w; loadList := loadList w;
       instances := instances w; requests := requests w;
       frames := []; effects := effects w |}
    (frames w).

End Methods.
End Mesh.

(** What happens to a loader: the program creates, updates, steps and
    disposes instances, and the host runs the callbacks it was handed
    (a load ends, the display refreshes). *)
Inductive Op : Type :=
| CreateInstance (definition : value) (parent : nat)
| LoadSucceeds (r : nat) (asset : Model)
| LoadFails (r : nat)
| Update (i : nat) (definition : value)
| Frame (i : nat) (timeStampMS deltaTimeMS : float)
| Dispose (i : nat)
| Tick.

(** ** GLTF2ModelLoader.js *)

Module GLTF2.
Section Loader.
Context {rt : Runtime}.

(** The loop over [gltf.animations] in [onLoad]; [clip] is the loop
    index.  The action is kept in [animationAction], a name the function
    does not declare: outside strict mode the assignment binds it and has
    no other effect here.  A clip named [__proto__] is registered like any
    other: a read of that name gives its action here as in the language,
    where the assignment makes the action the prototype of [allAnimations];
    what else a read would then inherit from the action is left out. *)
Fixpoint playAll (m : nat) (fade timeScale weight : value) (clip : nat)
    (animations : list string) (i : MeshInstance)
  : completion unit MeshInstance :=
  match animations with
  | [] => Return () i
  | name :: animations =>
      let '(animationAction, i) := clipAction m clip i in
      let* _, i := fadeIn animationAction fade i in
      let i := setEffectiveTimeScale animationAction timeScale i in
      let i := setEffectiveWeight animationAction weight i in
      let i := play animationAction i in
      let i := set_allAnimations (<[name := animationAction]> (allAnimations i)) i in
      playAll m fade timeScale weight (S clip) animations i
  end.

(** What [onLoad] does to the instance. *)
Definition loaded (gltf : Model) (i : MeshInstance) : completion unit MeshInstance :=
  let i := set_scene (Some (model_scene gltf)) i in
  let '(m, i) := newMixer (model_scene gltf) i in
  let i := set_mixer (Some m) i in
  let params := animationParams i in
  if truthy (get params "play") then
    let fade := or_else (get params "fadeTime") (VNum 0) in
    let timeScale := or_else (get params "timeScale") (VNum 1) in
    let weight := or_else (get params "weight") (VNum 1) in
    playAll m fade timeScale weight 0 (model_animations gltf) i
  else Return () i.

Definition onLoad (i : nat) (gltf : Model) (w : World) : completion unit World :=
  match instances w !! i with
  | Some inst =>
      let c :=
        if RefCountCache.has (stateCache w) (url inst)
        then RefCountCache.addReference (stateCache w) (url inst)
        else stateCache w in
      let w :=
        {| stateCache := c; loadList := loadList w; instances := instances w;
           requests := requests w; frames := frames w; effects := effects w |} in
      match loaded gltf inst with
      | Return _ inst =>
          Return ()
            (Mesh.requestAnimationFrame (AddSceneOf i (parent inst))
               (set_instance i inst w))
      | Throws e inst => Throws e (set_instance i inst w)
      end
  | None => Return () w
  end.

(** A constructor that throws hands no instance to its caller: the state
    is the one it was called in.  [loadList[this.url]] may find a member of
    [Object.prototype], which is truthy and has no [push]. *)
Definition constructor (definition : value) (parent : nat) (w : World)
  : completion nat World :=
  if nullish definition then Throws TypeError w
  else
    match urlOf (get definition "gltf2") with
    | inl e => Throws e w
    | inr u =>
        let this := length (instances w) in
        let w1 :=
          {| stateCache := stateCache w; loadList := loadList w;
             instances := instances w ++ [Mesh.fresh u parent definition];
             requests := requests w; frames := frames w; effects := effects w |} in
        match RefCountCache.get (stateCache w1) u with
        | Some gltf =>
            let* _, w1 := onLoad this gltf w1 in
            Return this w1
        | None =>
            match read (loadList w1) u with
            | Own callbacks =>
                Return this
                  {| stateCache := stateCache w1;
                     loadList := <[u := callbacks ++ [this]]> (loadList w1);
                     instances := instances w1; requests := requests w1;
                     frames := frames w1; effects := effects w1 |}
            | Member _ => Throws TypeError w
            | Missing => Return this (Mesh.load this u w1)
            end
        end
    end.

Definition step (w : World) (o : Op) : World :=
  match o with
  | CreateInstance definition parent => final (constructor definition parent w)
  | LoadSucceeds r gltf =>
      match requests w !! r with
      | Some q =>
          if req_pending q then final (onLoad (req_inst q) gltf (Mesh.settle r w))
          else w
      | None => w
      end
  | LoadFails r =>
      match requests w !! r with
      | Some q =>
          if req_pending q
          then Mesh.onError "failed to load GLTF" (req_inst q) (Mesh.settle r w)
          else w
      | None => w
      end
  | Update i definition =>
      match on_instance i (Mesh.update definition) w with
      | Some c => final c
      | None => w
      end
  | Frame i t dt =>
      match instances w !! i with
      | Some inst => set_instance i (Mesh.frame t dt inst) w
      | None => w
      end
  | Dispose i => Mesh.dispose i w
  | Tick => Mesh.tick w
  end.

Definition run (ops : list Op) : World := foldl step init ops.

End Loader.
End GLTF2.

(** ** The FBX loader *)

Module FBX.
Section Loader.
Context {rt : Runtime}.

(** What [onLoad] does to the instance.  [fbx.animations[0]] is
    [undefined] when the array is empty, and [clipAction] reads a property
    of the clip it is given. *)
Definition loaded (fbx : Model) (i : MeshInstance) : completion unit MeshInstance :=
  let '(m, i) := newMixer (model_scene fbx) i in
  let i := set_mixer (Some m) i in
  let params := animationParams i in
  match model_animations fbx !! 0 with
  | Some _ =>
      let '(animationAction, i) := clipAction m 0 i in
      if truthy (get params "play") then
        let fade := or_else (get params "fadeTime") (VNum 0) in
        let timeScale := or_else (get params "timeScale") (VNum 1) in
        let weight := or_else (get params "weight") (VNum 1) in
        let i := on_action animationAction (with_fadeIn_own fade) i in
        let i := on_action animationAction (with_timeScale timeScale) i in
        let i := on_action animationAction (with_weight weight) i in
        Return () (play animationAction i)
      else Return () i
  | None => Throws TypeError i
  end.

Definition onLoad (i : nat) (fbx : Model) (w : World) : completion unit World :=
  match instances w !! i with
  | Some inst =>
      match loaded fbx inst with
      | Return _ inst =>
          Return ()
            (Mesh.requestAnimationFrame (AddNode (parent inst) (model_scene fbx))
               (set_instance i inst w))
      | Throws e inst => Throws e (set_instance i inst w)
      end
  | None => Return () w
  end.

Definition constructor (definition : value) (parent : nat) (w : World)
  : completion nat World :=
  if nullish definition then Throws TypeError w
  else
    match urlOf (get definition "fbx") with
    | inl e => Throws e w
    | inr u =>
        let this := length (instances w) in
        let w1 :=
          {| stateCache := stateCache w; loadList := loadList w;
             instances := instances w ++ [Mesh.fresh u parent definition];
             requests := requests w; frames := frames w; effects := effects w |} in
        Return this (Mesh.load this u w1)
    end.

Definition step (w : World) (o : Op) : World :=
  match o with
  | CreateInstance definition parent => final (constructor definition parent w)
  | LoadSucceeds r fbx =>
      match requests w !! r with
      | Some q =>
          if req_pending q then final (onLoad (req_inst q) fbx (Mesh.settle r w))
          else w
      | None => w
      end
  | LoadFails r =>
      match requests w !! r with
      | Some q =>
          if req_pending q
          then Mesh.onError "failed to load FBX" (req_inst q) (Mesh.settle r w)
          else w
      | None => w
      end
  | Update i definition =>
      match on_instance i (Mesh.update definition) w with
      | Some c => final c
      | None => w
      end
  | Frame i t dt =>
      match instances w !! i with
      | Some inst => set_instance i (Mesh.frame t dt inst) w
      | None => w
      end
  | Dispose i => Mesh.dispose i w
  | Tick => Mesh.tick w
  end.

Definition run (ops : list Op) : World := foldl step init ops.

End Loader.
End FBX.

(** ** A runtime to evaluate examples with *)

(** Modelled from the spec: the "URL-extraction utility" ([Utils/extractURL]
    is not among the sources; the spec names it and no more).  A string is
    the URL itself; a value whose [typeof] is ['object'] gives its [uri]
    when that is a string, and [null], which is such a value, has no
    property to read: the call throws; anything else gives [null]. *)
Definition extractURL_model (resource : value) : error + option string :=
  match resource with
  | VStr s => inr (Some s)
  | VNull => inl TypeError
  | VObj _ | VArr _ =>
      match get resource "uri" with
      | VStr s => inr (Some s)
      | _ => inr None
      end
  | _ => inr None
  end.

(** The language's conversion of a number to a string: the shortest decimal
    that rounds to the number, laid out with or without an exponent.  A
    finite number is [M * 2^E]; [against M E S Q] compares it with
    [S * 10^Q]. *)
Definition against (M E S Q : Z) : comparison :=
  (M * 2 ^ Z.max E 0 * 10 ^ Z.max (- Q) 0
   ?= S * 10 ^ Z.max Q 0 * 2 ^ Z.max (- E) 0)%Z.

(** The least [n] from the given one with [M * 2^E < 10^n]. *)
Fixpoint decade (fuel : nat) (M E n : Z) : Z :=
  match fuel with
  | O => n
  | S fuel =>
      match against M E 1 n with
      | Lt => n
      | _ => decade fuel M E (n + 1)%Z
      end
  end.

(** Whether [S * 10^Q] lies between the midpoints to the two neighbours of
    [M * 2^E]; a midpoint itself rounds to the neighbour with an even [M]. *)
Definition rounds_to (M E S Q : Z) : bool :=
  let below :=
    (if decide (M = 2 ^ 52 ∧ -1074 < E) then 4 * M - 1 else 4 * M - 2)%Z in
  let above := (4 * M + 2)%Z in
  match against below (E - 2) S Q with
  | Lt => true
  | Eq => Z.even M
  | Gt => false
  end &&
  match against above (E - 2) S Q with
  | Gt => true
  | Eq => Z.even M
  | Lt => false
  end.

(** The digits and the decimal exponent of the decimal of [k] digits that
    is nearest to the number, when one of [k] digits rounds to it. *)
Definition shortest_at (M E n0 k : Z) : option (Z * Z) :=
  let q := (n0 - k)%Z in
  let lo := (M * 2 ^ Z.max E 0 * 10 ^ Z.max (- q) 0
             / (2 ^ Z.max (- E) 0 * 10 ^ Z.max q 0))%Z in
  let hi := (lo + 1)%Z in
  let pick (s : Z) :=
    if decide (s = 10 ^ k)%Z then Some (10 ^ (k - 1), n0 + 1)%Z
    else Some (s, n0) in
  match rounds_to M E lo q, rounds_to M E hi q with
  | true, true =>
      match against (2 * M) E (lo + hi) q with
      | Lt => pick lo
      | Gt => pick hi
      | Eq => if Z.even lo then pick lo else pick hi
      end
  | true, false => pick lo
  | false, true => pick hi
  | false, false => None
  end.

Fixpoint shortest (fuel : nat) (M E n0 k : Z) : Z * Z * Z :=
  match fuel with
  | O => (k, 0, n0)%Z
  | S fuel =>
      match shortest_at M E n0 k with
      | Some (s, n) => (k, s, n)
      | None => shortest fuel M E n0 (k + 1)%Z
      end
  end.

Fixpoint zeros (n : nat) : string :=
  match n with
  | O => ""
  | S n => "0" +:+ zeros n
  end.

Definition layout (k s n : Z) : string :=
  let digits := pretty s in
  if decide (k <= n <= 21)%Z then digits +:+ zeros (Z.to_nat (n - k))
  else if decide (0 < n <= 21)%Z then
    String.substring 0 (Z.to_nat n) digits +:+ "." +:+
    String.substring (Z.to_nat n) (Z.to_nat (k - n)) digits
  else if decide (-6 < n <= 0)%Z then
    "0." +:+ zeros (Z.to_nat (- n)) +:+ digits
  else
    let e := (n - 1)%Z in
    (if decide (k = 1)%Z then digits
     else String.substring 0 1 digits +:+ "." +:+
          String.substring 1 (Z.to_nat (k - 1)) digits)
    +:+ "e" +:+ (if decide (e < 0)%Z then "-" else "+") +:+ pretty (Z.abs e).

Definition number_to_string (x : float) : string :=
  match Prim2SF x with
  | S754_nan => "NaN"
  | S754_zero _ => "0"
  | S754_infinity sign => if sign then "-Infinity" else "Infinity"
  | S754_finite sign m e =>
      let M := Z.pos m in
      let '(k, s, n) := shortest 17 M e (decade 640 M e (-324)) 1 in
      (if sign then "-" else "") +:+ layout k s n
  end.

(** The language's conversion of a value to a property name.  An object is
    spelled by the [toString] it inherits; one that hides it with a
    property of its own, which being data is not callable, is left with a
    [valueOf] that gives no primitive, and the conversion throws.  An array
    is the spellings of its items joined by commas, [null] and [undefined]
    items giving nothing. *)
Fixpoint propertyKey_model (v : value) : error + string :=
  match v with
  | VStr s => inr s
  | VBool true => inr "true"
  | VBool false => inr "false"
  | VNull => inr "null"
  | VUndefined => inr "undefined"
  | VObj props =>
      match assoc "toString" props with
      | Some _ => inl TypeError
      | None => inr "[object Object]"
      end
  | VNum x => inr (number_to_string x)
  | VArr items =>
      let join :=
        fix join (items : list value) : error + list string :=
          match items with
          | [] => inr []
          | item :: items =>
              match
                match item with
                | VNull | VUndefined => inr ""
                | _ => propertyKey_model item
                end
              with
              | inl e => inl e
              | inr s =>
                  match join items with
                  | inl e => inl e
                  | inr l => inr (s :: l)
                  end
              end
          end in
      match join items with
      | inl e => inl e
      | inr l => inr (String.concat "," l)
      end
  end.

Definition runtime_model : Runtime :=
  {| extractURL := extractURL_model; propertyKey := propertyKey_model |}.

(** * Vocabulary of the properties *)

Section Vocabulary.

Context {rt : Runtime}.

(** ** Scene graphs and disposal *)

Definition scene_of (i : nat) (w : World) : option Node :=
  instances w !! i ≫= scene.

(** ** Load failure *)

(** What the claim says of a loader whose step function is [step] and
    whose message is [msg]. *)
Definition fails_quietly (step : World -> Op -> World) (msg : string) : Prop :=
  forall (w : World) (r : nat) (q : Request) (inst : MeshInstance),
    requests w !! r = Some q -> req_pending q = true ->
    instances w !! req_inst q = Some inst ->
    instances (step w (LoadFails r)) = instances w /\
    effects (step w (LoadFails r)) = effects w ++ [ConsoleError msg (url inst)] /\
    loadList (step w (LoadFails r)) = delete (url inst) (loadList w) /\
    stateCache (step w (LoadFails r)) = stateCache w /\
    frames (step w (LoadFails r)) = frames w.

(** ** The load callbacks *)

(** A new action after [fadeIn], [setEffectiveTimeScale],
    [setEffectiveWeight] and [play]. *)
Definition started (m clip : nat) (fade timeScale weight : value) : Action :=
  with_playing true
    (with_weight weight (with_timeScale timeScale (with_fade fade (new_action m clip)))).

Fixpoint started_from (m : nat) (fade timeScale weight : value) (clip : nat)
    (animations : list string) : list Action :=
  match animations with
  | [] => []
  | _ :: animations =>
      started m clip fade timeScale weight
        :: started_from m fade timeScale weight (S clip) animations
  end.

Fixpoint registered (a : nat) (animations : list string) (all : gmap string nat)
  : gmap string nat :=
  match animations with
  | [] => all
  | name :: animations => registered (S a) animations (<[name := a]> all)
  end.

(** The actions of mixer [m] are for clips before [clip]. *)
Definition owned_below (m clip : nat) (i : MeshInstance) : Prop :=
  forall act, act ∈ actions i -> act_mixer act = m -> act_clip act < clip.

(** Every action belongs to a mixer of the instance. *)
Definition well_owned (i : MeshInstance) : Prop :=
  forall act, act ∈ actions i -> act_mixer act < length (mixers i).

(** The value a parameter is configured to, [dflt] when it is unset. *)
Definition configured (params : value) (key : string) (dflt : value) : value :=
  match assoc key (entries params) with
  | Some v => v
  | None => dflt
  end.

(** C6 as worded, for the GLTF2 callback on a newly constructed instance:
    playback starts exactly when [play] is set, and what plays has the
    configured settings, 0, 1 and 1 standing in for unset ones. *)
Definition plays_as_configured (definition : value) (gltf : Model) : Prop :=
  let i := Mesh.fresh "" 0 definition in
  let params := animationParams i in
  exists i',
    GLTF2.loaded gltf i = Return () i' /\
    is_Some (mixer i') /\
    ((exists a act, actions i' !! a = Some act /\ act_playing act = true)
       <-> truthy (get params "play") = true) /\
    (forall a act,
        actions i' !! a = Some act -> act_playing act = true ->
        act_fade act = Some (configured params "fadeTime" (VNum 0)) /\
        act_timeScale act = configured params "timeScale" (VNum 1) /\
        act_weight act = configured params "weight" (VNum 1)).

(** ** Reference counts and the unused cache *)

(** C2 as worded, for [dispose] of instance [i] in the state [w]: when the
    instance has an attached scene, the count of its URL is one less
    afterwards. *)
Definition dispose_decrements (w : World) (i : nat) : Prop :=
  forall (inst : MeshInstance) (s : Node),
    instances w !! i = Some inst -> scene inst = Some s ->
    RefCountCache.refs (stateCache w) (url inst)
      = S (RefCountCache.refs (stateCache (Mesh.dispose i w)) (url inst)).

(** The state [dispose] leaves when the cache has no entry for the URL of
    the instance: the scene is taken off the instance and off its parent. *)
Definition detached (i : nat) (inst : MeshInstance) (s : Node) (w : World) : World :=
  {| stateCache := stateCache w; loadList := loadList w;
     instances := <[i := set_scene None inst]> (instances w);
     requests := requests w; frames := frames w;
     effects := effects w ++ [ParentRemove (parent inst) s] |}.

Definition cold (w : World) : Prop := stateCache w = ∅ /\ loadList w = ∅.

(** The world in which the constructor has assigned the fields of the new
    instance and called [loader.load]. *)
Definition loading (u : string) (parent : nat) (definition : value) (w : World) : World :=
  {| stateCache := stateCache w; loadList := loadList w;
     instances := instances w ++ [Mesh.fresh u parent definition];
     requests := requests w ++
       [{| req_inst := length (instances w); req_url := u; req_pending := true |}];
     frames := frames w; effects := effects w |}.

(** What a constructor that takes the URL from [field] does when the cache
    has no entry and the load list no own property; [reads_list] says
    whether it reads [loadList] (the GLTF2 constructor does, the FBX
    constructor does not). *)
Definition constructs (field : string) (reads_list : bool) (definition : value)
    (parent : nat) (w : World) : completion nat World :=
  if nullish definition then Throws TypeError w
  else
    match urlOf (get definition field) with
    | inl e => Throws e w
    | inr u =>
        if reads_list && inherited u then Throws TypeError w
        else Return (length (instances w)) (loading u parent definition w)
    end.

(** ** Animation reconciliation *)

(** The names a definition asks for. *)
Definition requested (animations : value) : gset string :=
  list_to_set (Mesh.animName <$> (entries animations).*1).

(** What [configure] makes of an action. *)
Definition configured_action (all : gmap string nat) (params : value)
    (act : Action) : Action :=
  let act :=
    with_weight (or_else (get params "weight") (VNum 1))
      (with_timeScale (or_else (get params "timeScale") (VNum 1))
         (with_fade (or_else (get params "fadeTime") (VNum 0)) act)) in
  if truthy (get params "syncWith") then
    match propertyKey (get params "syncWith") with
    | inl _ => act
    | inr name =>
        match read all name with
        | Own other => with_sync (ThisAction other) act
        | Member name => with_sync (PrototypeMember name) act
        | Missing => act
        end
    end
  else act.

Definition adjusted (all : gmap string nat) (animations : value) (key : string)
    (act : Action) : Action :=
  if truthy (get animations key)
  then configured_action all (get animations key) act
  else act.

(** What the conversion of the [syncWith] of [key] to a property name
    does, when the turn for [key] gets to it: the parameters of [key] and
    their [syncWith] are truthy. *)
Definition conversion (animations : value) (key : string) : error + unit :=
  let params := get animations key in
  if truthy params && truthy (get params "syncWith") then
    match propertyKey (get params "syncWith") with
    | inl e => inl e
    | inr _ => inr ()
    end
  else inr ().

(** The first conversion that throws, among the turns for loaded
    animations. *)
Fixpoint first_throw (all : gmap string nat) (animations : value)
    (keys : list string) : option error :=
  match keys with
  | [] => None
  | key :: keys =>
      match all !! Mesh.animName key, conversion animations key with
      | Some _, inl e => Some e
      | _, _ => first_throw all animations keys
      end
  end.

(** No [syncWith] of the definition stands in the way: each converts to a
    property name. *)
Definition syncable (definition : value) : bool :=
  forallb (fun key =>
             match conversion (get definition "animations") key with
             | inl _ => false
             | inr _ => true
             end)
    (entries (get definition "animations")).*1.

(** What one turn of the loop makes of the action named by [key]. *)
Definition turn (i : MeshInstance) (animations : value) (key : string)
    (act : Action) : Action :=
  let act := adjusted (allAnimations i) animations key act in
  if bool_decide (Mesh.animName key ∈ activeAnimations i) then act
  else with_playing true act.

(** What the whole loop makes of it. *)
Definition settled (all : gmap string nat) (animations : value) (key : string)
    (act : Action) : Action :=
  with_playing true (adjusted all animations key act).

Definition after_turn (animations : value) (key : string) (i : MeshInstance)
  : MeshInstance :=
  set_activeAnimations (activeAnimations i ∖ {[Mesh.animName key]})
    match allAnimations i !! Mesh.animName key with
    | Some a => on_action a (turn i animations key) i
    | None => i
    end.

(** The loop, one turn after the other. *)
Definition after_all (animations : value) (keys : list string) (i : MeshInstance)
  : MeshInstance :=
  foldl (fun i key => after_turn animations key i) i keys.

Definition stop_turn (i : MeshInstance) (key : string) : MeshInstance :=
  match allAnimations i !! key with
  | Some anim => stop anim i
  | None => i
  end.

(** Whether [updateAnimation] takes its early exit. *)
Definition nothing_requested (definition : value) : bool :=
  negb (truthy (get definition "animations"))
  || is_zero (get (get definition "animations") "length").

(** What a requested animation whose parameters are truthy ends up with. *)
Definition as_requested (params : value) (act : Action) : Prop :=
  act_fade act = Some (or_else (get params "fadeTime") (VNum 0)) /\
  act_timeScale act = or_else (get params "timeScale") (VNum 1) /\
  act_weight act = or_else (get params "weight") (VNum 1).

(** What [update] leaves behind, for a definition that passes its URL test
    on an instance that has a mixer. *)
Definition reconciled (definition : value) (m : nat) (i i' : MeshInstance) : Prop :=
  let animations := get definition "animations" in
  allAnimations i' = allAnimations i /\ mixer i' = Some m /\
  if nothing_requested definition then
    activeAnimations i' = ∅ /\
    (forall a act,
        actions i' !! a = Some act -> act_mixer act = m ->
        act_playing act = false)
  else
    activeAnimations i' = requested animations /\
    (forall key a,
        key ∈ (entries animations).*1 ->
        allAnimations i !! Mesh.animName key = Some a ->
        exists act,
          actions i' !! a = Some act /\ act_playing act = true /\
          (truthy (get animations key) = true ->
           as_requested (get animations key) act)) /\
    (forall name a,
        name ∈ activeAnimations i -> name ∉ requested animations ->
        allAnimations i !! name = Some a ->
        exists act, actions i' !! a = Some act /\ act_playing act = false).

(** ** Invariants of mesh instances *)

(** The references in [allAnimations] are to actions of the instance whose
    [fadeIn] is the engine's method. *)
Definition callable (i : MeshInstance) : Prop :=
  forall name a,
    allAnimations i !! name = Some a ->
    exists act, actions i !! a = Some act /\ act_fadeIn_own act = None.

(** Different names are names of different actions. *)
Definition distinct (i : MeshInstance) : Prop :=
  forall n1 n2 a,
    allAnimations i !! n1 = Some a -> allAnimations i !! n2 = Some a -> n1 = n2.

(** The animations recorded as active are playing. *)
Definition active_play (i : MeshInstance) : Prop :=
  forall name a act,
    name ∈ activeAnimations i ->
    allAnimations i !! name = Some a ->
    actions i !! a = Some act ->
    act_playing act = true.

Definition consistent (i : MeshInstance) : Prop :=
  callable i /\ distinct i /\ active_play i.

(** The instance has the same mixers, and its actions the same owners. *)
Definition same_owners (i i' : MeshInstance) : Prop :=
  mixers i' = mixers i /\
  forall a, act_mixer <$> actions i' !! a = act_mixer <$> actions i !! a.

Definition sound (i : MeshInstance) : Prop := well_owned i /\ consistent i.

(** The FBX loader never fills [allAnimations]. *)
Definition bare (i : MeshInstance) : Prop := well_owned i /\ allAnimations i = ∅.

(** ** Sample inputs *)

Definition sample_scene : Node :=
  MkNode 0 false None None
    [MkNode 1 false (Some 10) (Some 20) [];
     MkNode 2 true None None [MkNode 3 false (Some 11) None []]].

Definition sample_model : Model :=
  {| model_scene := sample_scene;
     model_animations := ["animation_walk"; "animation_run"] |}.

(** A GLTF2 definition asking for playback at load, with a weight of 0. *)
Definition gltf2_definition : value :=
  VObj [("gltf2", VStr "a.gltf");
        ("animations", VObj [("play", VBool true); ("weight", VNum 0)])].

(** A later definition for the same URL: play "walk" with a weight of 0. *)
Definition update_definition : value :=
  VObj [("gltf2", VStr "a.gltf");
        ("animations", VObj [("walk", VObj [("weight", VNum 0)])])].

(** An FBX definition, and the loader after an instance was created from it
    and its model arrived. *)
Definition fbx_definition : value :=
  VObj [("fbx", VStr "a.fbx"); ("animations", VObj [("walk", VObj [])])].

(** The GLTF2 loader after an instance was created from [gltf2_definition]
    and its model, with the clips "animation_walk" and "animation_run",
    arrived: both clips play, started by the load callback. *)
Definition gltf2_ops : list Op :=
  [CreateInstance gltf2_definition 0; LoadSucceeds 0 sample_model].

Definition gltf2_world : World := GLTF2.run (rt := runtime_model) gltf2_ops.

(** The GLTF2 loader with one instance whose load is in flight. *)
Definition pending_world : World :=
  GLTF2.run (rt := runtime_model) [CreateInstance gltf2_definition 0].

Definition loaded_instance : MeshInstance :=
  default (Mesh.fresh "" 0 VUndefined) (instances gltf2_world !! 0).

Definition fbx_world : World :=
  FBX.run (rt := runtime_model)
    [CreateInstance fbx_definition 0; LoadSucceeds 0 sample_model].

(** C1 as worded: after [update], every requested animation that is loaded
    plays with the requested settings, 0, 1 and 1 standing in for unset
    ones; every animation that was active and is not requested is stopped;
    [activeAnimations] holds exactly the requested names; and an empty
    [animations] stops all actions and empties [activeAnimations]. *)
Definition reconciles_as_worded (definition : value) (i : MeshInstance) : Prop :=
  let animations := get definition "animations" in
  exists i',
    Mesh.update (rt := runtime_model) definition i = Return true i' /\
    (forall key a,
        key ∈ (entries animations).*1 ->
        allAnimations i !! Mesh.animName key = Some a ->
        exists act,
          actions i' !! a = Some act /\ act_playing act = true /\
          act_fade act = Some (configured (get animations key) "fadeTime" (VNum 0)) /\
          act_timeScale act = configured (get animations key) "timeScale" (VNum 1) /\
          act_weight act = configured (get animations key) "weight" (VNum 1)) /\
    (forall name a,
        name ∈ activeAnimations i -> name ∉ requested animations ->
        allAnimations i !! name = Some a ->
        exists act, actions i' !! a = Some act /\ act_playing act = false) /\
    activeAnimations i' = requested animations /\
    (entries animations = [] ->
     activeAnimations i' = ∅ /\
     forall a act, actions i' !! a = Some act -> act_playing act = false).

(** ** What [update] computes and keeps *)

(** The instance [updateAnimation] leaves when no call throws. *)
Definition reconcile (definition : value) (i : MeshInstance) : MeshInstance :=
  let animations := get definition "animations" in
  if nothing_requested definition then
    match mixer i with
    | Some m => stopAllAction m (set_activeAnimations ∅ i)
    | None => i
    end
  else
    let i1 := after_all animations (entries animations).*1 i in
    set_activeAnimations (requested animations)
      (Mesh.stopLeftover (elements (activeAnimations i1)) i1).

(** Everything of an instance but [activeAnimations] and the state of its
    actions. *)
Definition same_static (i i' : MeshInstance) : Prop :=
  url i' = url i /\ parent i' = parent i /\ scene i' = scene i /\
  mixer i' = mixer i /\ timeStamp i' = timeStamp i /\
  allAnimations i' = allAnimations i /\
  animationParams i' = animationParams i /\ mixers i' = mixers i /\
  length (actions i') = length (actions i).

(** What [updateAnimation] throws on an instance, if anything: the first
    conversion to throw in its loop. *)
Definition throws_in (definition : value) (i : MeshInstance) : option error :=
  if nothing_requested definition then None
  else first_throw (allAnimations i) (get definition "animations")
         (entries (get definition "animations")).*1.

(** What is known of the instance [i'] that the loop over [keys] leaves
    when a conversion throws in the middle of it. *)
Definition halfway (keys : list string) (i i' : MeshInstance) : Prop :=
  consistent i' /\ same_owners i i' /\ same_static i i' /\
  forall a act,
    actions i !! a = Some act ->
    (forall key, key ∈ keys -> allAnimations i !! Mesh.animName key ≠ Some a) ->
    actions i' !! a = Some act.

(** ** What the loaders do to the host *)

(** The call a queued frame callback makes when it runs. *)
Definition frame_effect (insts : list MeshInstance) (cb : FrameCallback) : Effect :=
  match cb with
  | AddSceneOf i p => ParentAdd p (inst ← insts !! i; scene inst)
  | AddNode p n => ParentAdd p (Some n)
  end.

(** Calls that take something away: a child from its parent, a resource
    from the engine. *)
Definition detaches (e : Effect) : bool :=
  match e with
  | ParentRemove _ _ | EngineDispose _ => true
  | ConsoleError _ _ | ParentAdd _ _ => false
  end.

(** An instance as its constructor left it, whatever [activeAnimations]
    holds. *)
Definition unloaded (i : MeshInstance) : Prop :=
  scene i = None /\ mixer i = None /\ mixers i = [] /\ actions i = [] /\
  allAnimations i = ∅.

(** Load requests and instances go by pairs: request [r] was issued by the
    constructor of instance [r], for that instance's URL, and while it is
    pending the instance is unloaded. *)
Definition linked (w : World) : Prop :=
  length (requests w) = length (instances w) /\
  forall r q,
    requests w !! r = Some q ->
    req_inst q = r /\
    exists inst,
      instances w !! r = Some inst /\ req_url q = url inst /\
      (req_pending q = true -> unloaded inst).

(** Without [play] in its parameters an instance has no animation to offer. *)
Definition silent (i : MeshInstance) : Prop :=
  truthy (get (animationParams i) "play") = false ->
  allAnimations i = ∅ /\ actions i = [].

(** What one step of a loader can make of an instance; [loaded] is the
    loader's load callback. *)
Inductive evolves (loaded : Model -> MeshInstance -> completion unit MeshInstance)
    (i : MeshInstance) : MeshInstance -> Prop :=
| ev_same : evolves loaded i i
| ev_loaded g : evolves loaded i (final (loaded g i))
| ev_update d : evolves loaded i (final (Mesh.update d i))
| ev_frame t dt : evolves loaded i (Mesh.frame t dt i)
| ev_dispose : evolves loaded i (set_scene None i).

(** What the constructor fixes for good. *)
Definition same_identity (i i' : MeshInstance) : Prop :=
  url i' = url i /\ parent i' = parent i /\
  animationParams i' = animationParams i.

(** ** More sample inputs *)

(** A GLTF2 definition without animation parameters, and the instance
    created from it once its model has arrived. *)
Definition quiet_definition : value := VObj [("gltf2", VStr "a.gltf")].

Definition quiet_ops : list Op :=
  [CreateInstance quiet_definition 0; LoadSucceeds 0 sample_model].

Definition quiet_instance : MeshInstance :=
  default (Mesh.fresh "" 0 VUndefined)
    (instances (GLTF2.run (rt := runtime_model) quiet_ops) !! 0).

(** A model with two clips of the same name. *)
Definition twin_model : Model :=
  {| model_scene := sample_scene;
     model_animations := ["animation_walk"; "animation_walk"] |}.

(** The request the constructor issues for "a.gltf" or "a.fbx". *)
Definition first_request (u : string) : Request :=
  {| req_inst := 0; req_url := u; req_pending := true |}.

(** The FBX loader with one instance whose load is in flight. *)
Definition fbx_pending_ops : list Op := [CreateInstance fbx_definition 0].

(** What [recursiveDispose] may call on a node. *)
Definition disposes_of (n : Node) (d : Disposed) : Prop :=
  (d = DNode (node_id n) /\ node_dispose n = true) \/
  (exists g, d = DGeometry g /\ node_geometry n = Some g) \/
  (exists m, d = DMaterial m /\ node_material n = Some m).

(** A model whose second clip has a name without the prefix that [update]
    puts before every key, a definition that plays it at load, and the
    instance after the load. *)
Definition plain_model : Model :=
  {| model_scene := sample_scene;
     model_animations := ["animation_walk"; "run"] |}.

Definition plain_ops : list Op :=
  [CreateInstance gltf2_definition 0; LoadSucceeds 0 plain_model].

Definition plain_instance : MeshInstance :=
  default (Mesh.fresh "" 0 VUndefined)
    (instances (GLTF2.run (rt := runtime_model) plain_ops) !! 0).

(** A GLTF2 definition whose URL is the name of a member of
    [Object.prototype]. *)
Definition prototype_definition : value := VObj [("gltf2", VStr "constructor")].

(** The FBX definition for the same URL. *)
Definition fbx_prototype_definition : value := VObj [("fbx", VStr "constructor")].

(** A definition whose [syncWith] is an object that hides [toString]. *)
Definition unconvertible_definition : value :=
  VObj [("gltf2", VStr "a.gltf");
        ("animations",
         VObj [("walk", VObj [("syncWith", VObj [("toString", VNum 1)])])])].


(** A definition that plays "walk" in step with "animation_run". *)
Definition sync_definition : value :=
  VObj [("gltf2", VStr "a.gltf");
        ("animations",
         VObj [("walk", VObj [("syncWith", VStr "animation_run")])])].

End Vocabulary.

(** * Properties *)

(** ** [canLoad] *)

Lemma canLoad_truthy field definition :
  truthy definition = true ->
  assoc "hasOwnProperty" (entries definition) = None ->
  canLoad field definition = Return (VBool (hasOwnProperty definition field)) ().
Proof. intros Ht Hm. unfold canLoad. by rewrite Ht, Hm. Qed.

Lemma canLoad_falsy field definition :
  truthy definition = false -> canLoad field definition = Return definition ().
Proof. intros Ht. unfold canLoad. by rewrite Ht. Qed.

(** C7: on [null] and on [undefined], [canLoad] of either loader returns its
    argument, which is not the boolean [false]. *)
Theorem canLoad_null_undefined :
  forall field,
    canLoad field VNull = Return VNull () /\
    canLoad field VUndefined = Return VUndefined () /\
    canLoad field VNull <> Return (VBool false) () /\
    canLoad field VUndefined <> Return (VBool false) ().
Proof. intros field. repeat split; try reflexivity; discriminate. Qed.

(** ** [recursiveDispose] *)

Lemma recursiveDispose_child n c d :
  c ∈ node_children n -> d ∈ recursiveDispose c -> d ∈ recursiveDispose n.
Proof.
  destruct n as [id own g m ch]; simpl. intros Hc Hd.
  rewrite !elem_of_app. do 3 right.
  apply list_elem_of_In, in_flat_map. exists c.
  split; by apply list_elem_of_In.
Qed.

Lemma recursiveDispose_reachable root n d :
  reachable root n -> d ∈ recursiveDispose n -> d ∈ recursiveDispose root.
Proof.
  induction 1 as [|n c _ IH Hc]; [done|].
  intros Hd. apply IH. by eapply recursiveDispose_child.
Qed.

Lemma recursiveDispose_own n :
  (node_dispose n = true -> DNode (node_id n) ∈ recursiveDispose n) /\
  (forall g, node_geometry n = Some g -> DGeometry g ∈ recursiveDispose n) /\
  (forall m, node_material n = Some m -> DMaterial m ∈ recursiveDispose n).
Proof.
  destruct n as [id own g m ch]; simpl. repeat split.
  - intros ->. set_solver.
  - intros g' ->. set_solver.
  - intros m' ->. set_solver.
Qed.

(** C8: the eviction callback of either cache disposes the whole scene graph
    of the evicted entry: for every node reachable from the scene root, the
    node's own [dispose] is called when it has one, and its geometry and its
    material are disposed when present. *)
Theorem cleanup_disposes_scene_graph :
  forall (url : string) (entry : Model) (n : Node),
    reachable (model_scene entry) n ->
    (node_dispose n = true -> DNode (node_id n) ∈ cleanup url entry) /\
    (forall g, node_geometry n = Some g -> DGeometry g ∈ cleanup url entry) /\
    (forall m, node_material n = Some m -> DMaterial m ∈ cleanup url entry).
Proof.
  intros url entry n Hr. unfold cleanup.
  destruct (recursiveDispose_own n) as (Hd & Hg & Hm).
  repeat split; intros; eapply recursiveDispose_reachable; eauto.
Qed.

Lemma cleanup_disposes_scene_graph_witness :
  DGeometry 11 ∈ cleanup "a.gltf" sample_model.
Proof.
  refine (proj1 (proj2 (cleanup_disposes_scene_graph "a.gltf" sample_model
                          (MkNode 3 false (Some 11) None []) _)) 11 eq_refl).
  apply (reach_child _ (MkNode 2 true None None [MkNode 3 false (Some 11) None []])).
  - apply (reach_child _ sample_scene); [apply reach_root|].
    simpl. set_solver.
  - simpl. set_solver.
Defined.

(** ** [dispose] *)

Lemma dispose_no_scene i w : scene_of i w = None -> Mesh.dispose i w = w.
Proof.
  unfold scene_of, Mesh.dispose. destruct (instances w !! i) as [inst|]; [|done].
  simpl. by intros ->.
Qed.

Lemma dispose_detaches i w : scene_of i (Mesh.dispose i w) = None.
Proof.
  unfold scene_of, Mesh.dispose.
  destruct (instances w !! i) as [inst|] eqn:Hi; [|by rewrite Hi].
  destruct (scene inst) as [s|] eqn:Hs; [|by rewrite Hi; simpl].
  destruct (RefCountCache.removeReference _ _ _) as [c released]. simpl.
  rewrite list_lookup_insert_eq; [done|]. by eapply lookup_lt_Some.
Qed.

(** C9: [dispose] of an instance without an attached scene changes nothing,
    and [dispose] leaves the instance without a scene; so a second [dispose]
    changes nothing: it touches no reference count and calls the parent no
    more. *)
Theorem dispose_idempotent :
  forall (i : nat) (w : World),
    (scene_of i w = None -> Mesh.dispose i w = w) /\
    scene_of i (Mesh.dispose i w) = None /\
    Mesh.dispose i (Mesh.dispose i w) = Mesh.dispose i w /\
    stateCache (Mesh.dispose i (Mesh.dispose i w)) = stateCache (Mesh.dispose i w) /\
    effects (Mesh.dispose i (Mesh.dispose i w)) = effects (Mesh.dispose i w).
Proof.
  intros i w.
  assert (Mesh.dispose i (Mesh.dispose i w) = Mesh.dispose i w) as E
    by apply dispose_no_scene, dispose_detaches.
  split; [apply dispose_no_scene|]. split; [apply dispose_detaches|].
  by rewrite E.
Qed.

(** ** Load failure *)

Lemma onError_spec msg i w inst :
  instances w !! i = Some inst ->
  instances (Mesh.onError msg i w) = instances w /\
  effects (Mesh.onError msg i w) = effects w ++ [ConsoleError msg (url inst)] /\
  loadList (Mesh.onError msg i w) = delete (url inst) (loadList w) /\
  stateCache (Mesh.onError msg i w) = stateCache w /\
  frames (Mesh.onError msg i w) = frames w /\
  requests (Mesh.onError msg i w) = requests w.
Proof. intros Hi. unfold Mesh.onError. by rewrite Hi. Qed.

Section Failure.
Context {rt : Runtime}.

(** C5: when a load in flight fails, either loader logs the failure with
    the instance's URL and deletes that URL from its load list; the step
    completes (nothing is thrown to anyone), and every instance, the one
    that was loading included, is exactly as it was while the load was
    pending: no scene, no mixer, the same active animations. *)
Theorem load_failure_is_silent :
  fails_quietly GLTF2.step "failed to load GLTF" /\
  fails_quietly FBX.step "failed to load FBX".
Proof.
  split; intros w r q inst Hr Hp Hi; simpl; rewrite Hr, Hp.
  - by destruct (onError_spec "failed to load GLTF" (req_inst q)
                   (Mesh.settle r w) inst Hi) as (-> & -> & -> & -> & -> & _).
  - by destruct (onError_spec "failed to load FBX" (req_inst q)
                   (Mesh.settle r w) inst Hi) as (-> & -> & -> & -> & -> & _).
Qed.

End Failure.

(** ** [update] and the URL it compares *)

Section UpdateUrl.
Context {rt : Runtime}.


Lemma update_same_url definition i :
  nullish definition = false ->
  urlOf (get definition "gltf2") = inr (url i) ->
  Mesh.update definition i =
    (let* _, i := Mesh.updateAnimation definition i in Return true i).
Proof.
  intros Hn Hu. unfold Mesh.update. rewrite Hn, Hu.
  by rewrite bool_decide_eq_false_2 by (by intros ?).
Qed.


Lemma update_nullish definition i :
  nullish definition = true -> Mesh.update definition i = Throws TypeError i.
Proof. intros Hn. unfold Mesh.update. by rewrite Hn. Qed.

End UpdateUrl.

(** C3: an FBX instance created from a definition rejects that same
    definition: the URL of the definition's [fbx] field is the instance's
    URL, yet [update] returns [false] and changes nothing, because it
    compares the URL of the [gltf2] field. *)
Theorem fbx_update_rejects_own_definition :
  (url <$> instances fbx_world !! 0) = Some "a.fbx" /\
  urlOf (rt := runtime_model) (get fbx_definition "fbx") = inr "a.fbx" /\
  on_instance 0 (Mesh.update (rt := runtime_model) fbx_definition) fbx_world
    = Some (Return false fbx_world).
Proof. repeat split; vm_compute; reflexivity. Qed.

(** ** Engine calls: basic facts *)

Lemma clipAction_spec m c i a i' :
  clipAction m c i = (a, i') ->
  exists act, actions i' !! a = Some act /\ act_mixer act = m /\ act_clip act = c.
Proof.
  unfold clipAction.
  destruct (list_find _ (actions i)) as [[k act]|] eqn:Hf; intros [= <- <-].
  - apply list_find_Some in Hf as (Hk & [Hm Hc] & _). eauto.
  - exists (new_action m c). simpl.
    rewrite lookup_app_r, Nat.sub_diag by done. done.
Qed.

Lemma clipAction_fresh m c i :
  (forall act, act ∈ actions i -> ¬ (act_mixer act = m /\ act_clip act = c)) ->
  clipAction m c i =
    (length (actions i), set_actions (actions i ++ [new_action m c]) i).
Proof.
  intros Hno. unfold clipAction.
  destruct (list_find _ (actions i)) as [[k act]|] eqn:Hf; [|done].
  apply list_find_Some in Hf as (Hk & Hp & _).
  exfalso. eapply Hno; [|exact Hp]. by eapply list_elem_of_lookup_2.
Qed.

Lemma alter_last {A} (f : A -> A) (l : list A) (x : A) :
  alter f (length l) (l ++ [x]) = l ++ [f x].
Proof.
  replace (length l) with (length l + 0) by lia.
  by rewrite alter_app_r.
Qed.

Lemma on_action_lookup a f i :
  actions (on_action a f i) !! a = f <$> actions i !! a.
Proof. unfold on_action. simpl. apply list_lookup_alter_eq. Qed.

Lemma on_action_lookup_ne a b f i :
  a ≠ b -> actions (on_action a f i) !! b = actions i !! b.
Proof. intros. unfold on_action. simpl. by apply list_lookup_alter_ne. Qed.

(** ** The FBX load callback *)

(** C10: the FBX load callback reads [fbx.animations[0]] and gives it to
    [clipAction] whatever the animation parameters say: when the model has a
    first animation, the new mixer holds an action for it after the
    callback, whether or not it plays; when it has none, the callback
    throws.  The read is in bounds exactly when the model has at least one
    animation. *)
Theorem fbx_onLoad_reads_first_animation :
  forall (fbx : Model) (i : MeshInstance),
    (is_Some (model_animations fbx !! 0) <-> 0 < length (model_animations fbx)) /\
    match model_animations fbx !! 0 with
    | Some _ =>
        exists i' a act,
          FBX.loaded fbx i = Return () i' /\
          actions i' !! a = Some act /\
          act_mixer act = length (mixers i) /\ act_clip act = 0
    | None => exists i', FBX.loaded fbx i = Throws TypeError i'
    end.
Proof.
  intros fbx i. split; [apply lookup_lt_is_Some|].
  unfold FBX.loaded. simpl.
  destruct (model_animations fbx !! 0) as [name|]; [|eauto].
  destruct (clipAction _ 0 _) as [a i1] eqn:Hc.
  apply clipAction_spec in Hc as (act & Ha & Hm & Hk).
  destruct (truthy _).
  - eexists _, a, _. split; [reflexivity|]. split.
    + unfold play. rewrite !on_action_lookup, Ha. reflexivity.
    + by simpl.
  - by exists i1, a, act.
Qed.

(** ** The GLTF2 load callback *)

Lemma playAll_spec m f t x names :
  forall clip i,
    owned_below m clip i ->
    GLTF2.playAll m f t x clip names i =
      Return ()
        (set_allAnimations (registered (length (actions i)) names (allAnimations i))
           (set_actions (actions i ++ started_from m f t x clip names) i)).
Proof.
  induction names as [|name names IH]; intros clip i Hown; simpl.
  - rewrite app_nil_r. by destruct i.
  - rewrite clipAction_fresh.
    2:{ intros act Hact [Hm Hc]. specialize (Hown act Hact Hm). lia. }
    unfold fadeIn. simpl.
    rewrite lookup_app_r, Nat.sub_diag by done. simpl.
    unfold play, setEffectiveWeight, setEffectiveTimeScale, on_action. simpl.
    rewrite !alter_last.
    rewrite IH.
    + simpl. rewrite length_app, <- app_assoc. simpl.
      by rewrite Nat.add_1_r.
    + intros act. simpl. rewrite elem_of_app, list_elem_of_singleton.
      intros [Hact| ->] Hm; [specialize (Hown act Hact Hm); lia|simpl; lia].
Qed.

Lemma started_from_lookup m f t x names :
  forall clip k,
    started_from m f t x clip names !! k =
      (fun _ => started m (clip + k) f t x) <$> names !! k.
Proof.
  induction names as [|name names IH]; intros clip [|k]; simpl; try done.
  - by rewrite Nat.add_0_r.
  - rewrite IH. by replace (S clip + k) with (clip + S k) by lia.
Qed.

Lemma started_from_length m f t x names clip :
  length (started_from m f t x clip names) = length names.
Proof. revert clip. induction names; intros; simpl; by f_equal. Qed.

Lemma loaded_gltf2_spec gltf i :
  well_owned i ->
  let m := length (mixers i) in
  let params := animationParams i in
  let fade := or_else (get params "fadeTime") (VNum 0) in
  let timeScale := or_else (get params "timeScale") (VNum 1) in
  let weight := or_else (get params "weight") (VNum 1) in
  let names := if truthy (get params "play") then model_animations gltf else [] in
  GLTF2.loaded gltf i =
    Return ()
      {| url := url i; parent := parent i;
         scene := Some (model_scene gltf); mixer := Some m;
         timeStamp := timeStamp i; activeAnimations := activeAnimations i;
         allAnimations := registered (length (actions i)) names (allAnimations i);
         animationParams := params;
         mixers := mixers i ++ [{| mx_root := model_scene gltf; mx_updates := [] |}];
         actions := actions i ++ started_from m fade timeScale weight 0 names |}.
Proof.
  intros Hown. unfold GLTF2.loaded. simpl.
  destruct (truthy (get (animationParams i) "play")).
  - rewrite playAll_spec; [done|].
    intros act Hact Hm. simpl in *. specialize (Hown act Hact). lia.
  - simpl. by rewrite app_nil_r.
Qed.

Lemma loaded_fbx_spec fbx i name rest :
  well_owned i ->
  model_animations fbx = name :: rest ->
  let m := length (mixers i) in
  let params := animationParams i in
  let fade := or_else (get params "fadeTime") (VNum 0) in
  let timeScale := or_else (get params "timeScale") (VNum 1) in
  let weight := or_else (get params "weight") (VNum 1) in
  FBX.loaded fbx i =
    Return ()
      {| url := url i; parent := parent i; scene := scene i; mixer := Some m;
         timeStamp := timeStamp i; activeAnimations := activeAnimations i;
         allAnimations := allAnimations i; animationParams := params;
         mixers := mixers i ++ [{| mx_root := model_scene fbx; mx_updates := [] |}];
         actions := actions i ++
           [if truthy (get params "play")
            then with_playing true
                   (with_weight weight
                      (with_timeScale timeScale
                         (with_fadeIn_own fade (new_action m 0))))
            else new_action m 0] |}.
Proof.
  intros Hown Hnames. unfold FBX.loaded. simpl. rewrite Hnames. simpl.
  rewrite clipAction_fresh.
  2:{ intros act Hact [Hm _]. simpl in *. specialize (Hown act Hact). lia. }
  destruct (truthy (get (animationParams i) "play")); [|done].
  unfold play, on_action. simpl. by rewrite !alter_last.
Qed.

Lemma fresh_well_owned u p definition : well_owned (Mesh.fresh u p definition).
Proof. intros act Hact. simpl in Hact. by apply elem_of_nil in Hact. Qed.

Lemma parseAnimationParams_default definition :
  truthy (get definition "animations") = false ->
  Mesh.parseAnimationParams definition = Mesh.defaultParam.
Proof.
  intros Ha. unfold Mesh.parseAnimationParams.
  destruct (truthy definition); [|done]. simpl. by rewrite Ha.
Qed.

(** The two load callbacks on an instance whose actions belong to its
    mixers. *)
Lemma loaded_starts_playback :
  forall (asset : Model) (i : MeshInstance),
    well_owned i ->
    let m := length (mixers i) in
    let params := animationParams i in
    let fade := or_else (get params "fadeTime") (VNum 0) in
    let timeScale := or_else (get params "timeScale") (VNum 1) in
    let weight := or_else (get params "weight") (VNum 1) in
    let mx := {| mx_root := model_scene asset; mx_updates := [] |} in
    (exists i',
        GLTF2.loaded asset i = Return () i' /\
        mixer i' = Some m /\ mixers i' !! m = Some mx /\
        (truthy (get params "play") = true ->
         length (actions i') = length (actions i) + length (model_animations asset) /\
         forall k name,
           model_animations asset !! k = Some name ->
           actions i' !! (length (actions i) + k)
             = Some (started m k fade timeScale weight)) /\
        (truthy (get params "play") = false -> actions i' = actions i)) /\
    (forall name rest,
        model_animations asset = name :: rest ->
        exists i' act,
          FBX.loaded asset i = Return () i' /\
          mixer i' = Some m /\ mixers i' !! m = Some mx /\
          actions i' = actions i ++ [act] /\
          act_mixer act = m /\ act_clip act = 0 /\
          act_playing act = truthy (get params "play") /\
          (truthy (get params "play") = true ->
           act_timeScale act = timeScale /\ act_weight act = weight)) /\
    (forall definition,
        truthy (get definition "animations") = false ->
        Mesh.parseAnimationParams definition = Mesh.defaultParam) /\
    truthy (get Mesh.defaultParam "play") = false.
Proof.
  intros asset i Hown m params fade timeScale weight mx.
  assert (forall l : list Mixer, (l ++ [mx]) !! length l = Some mx) as Hmx.
  { intros l. by rewrite lookup_app_r, Nat.sub_diag. }
  split; [|split; [|split; [apply parseAnimationParams_default|reflexivity]]].
  - eexists. split; [by apply loaded_gltf2_spec|]. simpl.
    split; [done|]. split; [apply Hmx|]. fold params. split.
    + intros ->. rewrite length_app, started_from_length. split; [done|].
      intros k name Hk.
      rewrite lookup_app_r by lia.
      replace (length (actions i) + k - length (actions i)) with k by lia.
      by rewrite started_from_lookup, Hk.
    + intros ->. simpl. by rewrite app_nil_r.
  - intros name rest Hnames. eexists _, _.
    split; [by eapply loaded_fbx_spec|]. simpl.
    split; [done|]. split; [apply Hmx|]. split; [done|]. fold params.
    by destruct (truthy (get params "play")).
Qed.


(** C6 as worded fails: configured with [play: true, weight: 0], the GLTF2
    callback starts the clips with a weight of 1. *)
Lemma onLoad_ignores_zero_weight :
  ¬ plays_as_configured gltf2_definition sample_model.
Proof.
  intros (i' & Hl & _ & _ & Hs).
  vm_compute in Hl. injection Hl as <-.
  destruct (Hs 0 _ eq_refl eq_refl) as (_ & _ & Hw).
  apply (f_equal truthy) in Hw. vm_compute in Hw. discriminate.
Qed.

(** ** The caches and load lists stay empty *)

Section Cold.
Context {rt : Runtime}.

Lemma read_empty {A} (name : string) :
  read (∅ : gmap string A) name = if inherited name then Member name else Missing.
Proof. unfold read. by rewrite lookup_empty. Qed.

Lemma constructor_cold definition parent w :
  cold w ->
  GLTF2.constructor definition parent w =
    constructs "gltf2" true definition parent w.
Proof.
  intros [Hc Hl]. unfold GLTF2.constructor, constructs.
  destruct (nullish definition); [done|].
  destruct (urlOf _) as [e|u]; [done|].
  unfold RefCountCache.get, loading, Mesh.load. simpl.
  rewrite Hc, Hl, lookup_empty, read_empty. simpl.
  by destruct (inherited u).
Qed.

Lemma fbx_constructor_spec definition parent w :
  FBX.constructor definition parent w =
    constructs "fbx" false definition parent w.
Proof.
  unfold FBX.constructor, constructs. destruct (nullish definition); [done|].
  by destruct (urlOf _).
Qed.

(** A constructor call leaves the state it was called in, or the state
    [loading] makes of it. *)
Lemma constructs_cases field check definition parent w :
  final (constructs field check definition parent w) = w \/
  exists u,
    urlOf (get definition field) = inr u /\
    constructs field check definition parent w
      = Return (length (instances w)) (loading u parent definition w).
Proof.
  unfold constructs. destruct (nullish definition); [by left|].
  destruct (urlOf _) as [e|u]; [by left|].
  destruct (check && inherited u); [by left|]. right. by exists u.
Qed.

Lemma onLoad_cold i gltf w : cold w -> cold (final (GLTF2.onLoad i gltf w)).
Proof.
  intros [Hc Hl]. unfold GLTF2.onLoad.
  destruct (instances w !! i) as [inst|]; [|done].
  unfold RefCountCache.has. rewrite Hc, lookup_empty.
  rewrite bool_decide_eq_false_2 by (by intros [? ?]).
  by destruct (GLTF2.loaded gltf inst).
Qed.

Lemma fbx_onLoad_cold i fbx w : cold w -> cold (final (FBX.onLoad i fbx w)).
Proof.
  intros Hw. unfold FBX.onLoad.
  destruct (instances w !! i) as [inst|]; [|done].
  by destruct (FBX.loaded fbx inst).
Qed.

Lemma tick_cold w : cold w -> cold (Mesh.tick w).
Proof.
  intros Hw. unfold Mesh.tick.
  assert (forall cbs w0, cold w0 -> cold (foldl Mesh.run_frame w0 cbs)) as H.
  { induction cbs as [|cb cbs IH]; intros w0 Hw0; [done|].
    simpl. apply IH. by destruct cb. }
  by apply H.
Qed.

Lemma dispose_cold i w : cold w -> cold (Mesh.dispose i w).
Proof.
  intros [Hc Hl]. unfold Mesh.dispose.
  destruct (instances w !! i) as [inst|]; [|done].
  destruct (scene inst); [|done].
  unfold RefCountCache.removeReference. by rewrite Hc, lookup_empty.
Qed.

Lemma onError_cold msg i w : cold w -> cold (Mesh.onError msg i w).
Proof.
  intros [Hc Hl]. unfold Mesh.onError.
  destruct (instances w !! i); [|done].
  split; simpl; [done|]. by rewrite Hl, delete_empty.
Qed.

Lemma update_cold i d w :
  cold w ->
  cold match on_instance i (Mesh.update d) w with
       | Some c => final c
       | None => w
       end.
Proof.
  intros Hw. unfold on_instance. destruct (instances w !! i) as [inst|]; [|done].
  by destruct (Mesh.update d inst).
Qed.

Lemma step_cold w o : cold w -> cold (GLTF2.step w o).
Proof.
  intros Hw. destruct o as [d p|r g|r|i d|i t dt|i|]; simpl.
  - rewrite constructor_cold by done.
    by destruct (constructs_cases "gltf2" true d p w) as [->|(u & _ & ->)].
  - destruct (requests w !! r) as [q|]; [|done].
    destruct (req_pending q); [|done]. by apply onLoad_cold.
  - destruct (requests w !! r) as [q|]; [|done].
    destruct (req_pending q); [|done]. by apply onError_cold.
  - by apply update_cold.
  - by destruct (instances w !! i).
  - by apply dispose_cold.
  - by apply tick_cold.
Qed.

Lemma fbx_step_cold w o : cold w -> cold (FBX.step w o).
Proof.
  intros Hw. destruct o as [d p|r g|r|i d|i t dt|i|]; simpl.
  - rewrite fbx_constructor_spec.
    by destruct (constructs_cases "fbx" false d p w) as [->|(u & _ & ->)].
  - destruct (requests w !! r) as [q|]; [|done].
    destruct (req_pending q); [|done]. by apply fbx_onLoad_cold.
  - destruct (requests w !! r) as [q|]; [|done].
    destruct (req_pending q); [|done]. by apply onError_cold.
  - by apply update_cold.
  - by destruct (instances w !! i).
  - by apply dispose_cold.
  - by apply tick_cold.
Qed.

Lemma run_cold ops : cold (GLTF2.run ops).
Proof.
  unfold GLTF2.run. induction ops as [|o ops IH] using rev_ind; [done|].
  rewrite foldl_app. simpl. by apply step_cold.
Qed.

Lemma fbx_run_cold ops : cold (FBX.run ops).
Proof.
  unfold FBX.run. induction ops as [|o ops IH] using rev_ind; [done|].
  rewrite foldl_app. simpl. by apply fbx_step_cold.
Qed.

Lemma cold_counts w u :
  cold w ->
  RefCountCache.has (stateCache w) u = false /\
  RefCountCache.get (stateCache w) u = None /\
  RefCountCache.refs (stateCache w) u = 0.
Proof.
  intros [Hc _]. unfold RefCountCache.has, RefCountCache.get, RefCountCache.refs.
  rewrite Hc, lookup_empty. split; [|done].
  by rewrite bool_decide_eq_false_2 by (by intros [? ?]).
Qed.

Lemma dispose_cold_spec k w inst s :
  cold w -> instances w !! k = Some inst -> scene inst = Some s ->
  RefCountCache.removeReference cleanup (stateCache w) (url inst)
    = (stateCache w, []) /\
  Mesh.dispose k w = detached k inst s w.
Proof.
  intros [Hc _] Hi Hs. unfold Mesh.dispose, detached. rewrite Hi, Hs.
  unfold RefCountCache.removeReference. by rewrite Hc, lookup_empty.
Qed.

End Cold.

(** ** Animation reconciliation *)

Lemma on_action_compose a f g i :
  on_action a f (on_action a g i) = on_action a (f ∘ g) i.
Proof. unfold on_action. simpl. by rewrite list_alter_alter_eq. Qed.

Lemma on_action_ext a f g i :
  (forall act, actions i !! a = Some act -> f act = g act) ->
  on_action a f i = on_action a g i.
Proof.
  intros H. unfold on_action. f_equal. by apply list_alter_ext.
Qed.

Lemma on_action_id a i : on_action a (fun act => act) i = i.
Proof. unfold on_action. rewrite list_alter_id by done. by destruct i. Qed.

Lemma with_playing_true_id act :
  act_playing act = true -> with_playing true act = act.
Proof. destruct act. simpl. by intros ->. Qed.

Section Reconcile.
Context {rt : Runtime}.

Lemma request_spec animations key new i :
  callable i ->
  Mesh.request animations key new i =
    match allAnimations i !! Mesh.animName key, conversion animations key with
    | Some a, inl e =>
        Throws e (on_action a (adjusted (allAnimations i) animations key) i)
    | _, _ =>
        Return ({[Mesh.animName key]} ∪ new) (after_turn animations key i)
    end.
Proof.
  intros Hcall. unfold Mesh.request, after_turn, conversion.
  destruct (allAnimations i !! Mesh.animName key) as [a|] eqn:Ha; [|done].
  destruct (Hcall _ _ Ha) as (act & Hact & Hown).
  assert (forall (b : bool) f,
             (if b then on_action a f i else play a (on_action a f i)) =
               on_action a (fun x => if b then f x else with_playing true (f x)) i)
    as Hplay.
  { intros b f. destruct b; [done|]. unfold play.
    by rewrite on_action_compose. }
  unfold turn, adjusted.
  destruct (truthy (get animations key)); simpl.
  - unfold Mesh.configure, fadeIn. rewrite Hact, Hown. simpl.
    unfold setEffectiveWeight, setEffectiveTimeScale, syncWith.
    rewrite !on_action_compose. unfold configured_action.
    destruct (truthy (get (get animations key) "syncWith")); simpl.
    + destruct (propertyKey _) as [e|name]; simpl; [done|].
      destruct (read (allAnimations i) name) as [other|member|].
      * rewrite on_action_compose. simpl. by rewrite Hplay.
      * rewrite on_action_compose. simpl. by rewrite Hplay.
      * simpl. by rewrite Hplay.
    + by rewrite Hplay.
  - specialize (Hplay (bool_decide (Mesh.animName key ∈ activeAnimations i))
                      (fun x => x)).
    rewrite on_action_id in Hplay. by rewrite Hplay.
Qed.

Lemma animName_inj k1 k2 : Mesh.animName k1 = Mesh.animName k2 -> k1 = k2.
Proof. unfold Mesh.animName. cbv [String.append]. congruence. Qed.

(** No member of [Object.prototype] has a name that begins with
    "animation_": under the names [updateAnimation] makes from keys, a read
    of [allAnimations] or [activeAnimations] finds own properties only. *)
Lemma read_animName {A} (object : gmap string A) key :
  read object (Mesh.animName key) =
    match object !! Mesh.animName key with
    | Some x => Own x
    | None => Missing
    end.
Proof.
  unfold read. destruct (object !! _); [done|].
  unfold inherited. rewrite bool_decide_eq_false_2; [done|].
  unfold objectPrototype, Mesh.animName. cbv [String.append].
  rewrite !elem_of_cons, elem_of_nil. intros H.
  repeat (destruct H as [H|H]; [discriminate|]). done.
Qed.

Lemma adjusted_own all animations key act :
  act_fadeIn_own (adjusted all animations key act) = act_fadeIn_own act.
Proof.
  unfold adjusted, configured_action.
  repeat (case_match; simpl; try done).
Qed.

Lemma adjusted_playing all animations key act :
  act_playing (adjusted all animations key act) = act_playing act.
Proof.
  unfold adjusted, configured_action.
  repeat (case_match; simpl; try done).
Qed.

Lemma adjusted_with_playing all animations key b act :
  adjusted all animations key (with_playing b act)
    = with_playing b (adjusted all animations key act).
Proof.
  unfold adjusted, configured_action.
  repeat (case_match; simpl; try done).
Qed.

Lemma adjusted_idem all animations key act :
  adjusted all animations key (adjusted all animations key act)
    = adjusted all animations key act.
Proof.
  unfold adjusted, configured_action.
  repeat (case_match; simpl; try done).
Qed.

Lemma turn_own i animations key act :
  act_fadeIn_own (turn i animations key act) = act_fadeIn_own act.
Proof.
  unfold turn. case_bool_decide; simpl; apply adjusted_own.
Qed.

Lemma settled_turn i animations key act :
  settled (allAnimations i) animations key (turn i animations key act)
    = settled (allAnimations i) animations key act.
Proof.
  unfold settled, turn. case_bool_decide.
  - by rewrite adjusted_idem.
  - rewrite adjusted_with_playing, adjusted_idem. by destruct (adjusted _ _ _ _).
Qed.

Lemma turn_settled i animations key act :
  (Mesh.animName key ∈ activeAnimations i -> act_playing act = true) ->
  turn i animations key act = settled (allAnimations i) animations key act.
Proof.
  intros Hp. unfold settled, turn. case_bool_decide as Hin; [|done].
  symmetry. apply with_playing_true_id. rewrite adjusted_playing. auto.
Qed.

Lemma after_turn_all animations key i :
  allAnimations (after_turn animations key i) = allAnimations i.
Proof. unfold after_turn. by destruct (allAnimations i !! _). Qed.

Lemma after_turn_active animations key i :
  activeAnimations (after_turn animations key i)
    = activeAnimations i ∖ {[Mesh.animName key]}.
Proof. done. Qed.

Lemma after_turn_rest animations key i :
  let i' := after_turn animations key i in
  mixer i' = mixer i /\ url i' = url i /\ scene i' = scene i /\
  parent i' = parent i /\ mixers i' = mixers i /\
  animationParams i' = animationParams i /\ timeStamp i' = timeStamp i.
Proof. unfold after_turn. by destruct (allAnimations i !! _). Qed.

Lemma after_turn_lookup animations key i a :
  actions (after_turn animations key i) !! a =
    if decide (allAnimations i !! Mesh.animName key = Some a)
    then turn i animations key <$> actions i !! a
    else actions i !! a.
Proof.
  unfold after_turn.
  destruct (allAnimations i !! Mesh.animName key) as [b|] eqn:Hb; simpl.
  - case_decide as Hd.
    + injection Hd as ->. apply list_lookup_alter_eq.
    + apply list_lookup_alter_ne. congruence.
  - done.
Qed.

Lemma after_turn_consistent animations key i :
  consistent i -> consistent (after_turn animations key i).
Proof.
  intros (Hcall & Hdist & Hplay). repeat split.
  - intros name a. rewrite after_turn_all. intros Ha.
    destruct (Hcall _ _ Ha) as (act & Hact & Hown).
    rewrite after_turn_lookup, Hact. case_decide; simpl; [|eauto].
    eexists. split; [done|]. by rewrite turn_own.
  - intros n1 n2 a. rewrite !after_turn_all. apply Hdist.
  - intros name a act. rewrite after_turn_active, after_turn_all.
    rewrite elem_of_difference, not_elem_of_singleton.
    intros [Hin Hne] Ha. rewrite after_turn_lookup.
    case_decide as Hd; [|by eapply Hplay].
    destruct Hne. by eapply Hdist.
Qed.

Lemma after_all_spec animations keys :
  forall i,
    consistent i ->
    let i' := after_all animations keys i in
    consistent i' /\
    allAnimations i' = allAnimations i /\
    activeAnimations i' =
      activeAnimations i ∖ list_to_set (Mesh.animName <$> keys) /\
    mixer i' = mixer i /\
    forall a act,
      actions i !! a = Some act ->
      (forall key,
          key ∈ keys -> allAnimations i !! Mesh.animName key = Some a ->
          actions i' !! a = Some (settled (allAnimations i) animations key act)) /\
      ((forall key,
           key ∈ keys -> allAnimations i !! Mesh.animName key ≠ Some a) ->
       actions i' !! a = Some act).
Proof.
  induction keys as [|k keys IH]; intros i Hi; simpl.
  - split; [done|]. split; [done|]. split; [set_solver|]. split; [done|].
    intros a act Hact. split; [|done]. intros key Hk. by apply elem_of_nil in Hk.
  - pose proof (after_turn_consistent animations k i Hi) as Hi1.
    destruct (IH _ Hi1) as (Hc & Hall & Hactive & Hmixer & Hacts).
    destruct Hi as (Hcall & Hdist & Hplay).
    rewrite after_turn_all in Hall, Hacts.
    split; [done|]. split; [done|].
    split; [rewrite Hactive, after_turn_active; set_solver|].
    split; [by rewrite Hmixer; apply after_turn_rest|].
    intros a act Hact. split.
    + intros key Hkey Ha.
      destruct (decide (key ∈ keys)) as [Hin|Hnin].
      * pose proof (after_turn_lookup animations k i a) as Hl.
        rewrite Hact in Hl. simpl in Hl.
        destruct (decide (allAnimations i !! Mesh.animName k = Some a)) as [Hk|Hk].
        -- assert (k = key) as -> by by eapply animName_inj, Hdist.
           destruct (Hacts _ _ Hl) as [H1 _].
           rewrite (H1 key Hin Ha). by rewrite settled_turn.
        -- destruct (Hacts _ _ Hl) as [H1 _]. by rewrite (H1 key Hin Ha).
      * apply elem_of_cons in Hkey as [->|?]; [|done].
        pose proof (after_turn_lookup animations k i a) as Hl.
        rewrite Hact, decide_True in Hl by done. simpl in Hl.
        destruct (Hacts _ _ Hl) as [_ H2]. rewrite H2.
        -- f_equal. apply turn_settled. intros Hin. by eapply Hplay.
        -- intros key' Hin' Ha'. apply Hnin.
           by rewrite (animName_inj _ _ (Hdist _ _ _ Ha Ha')).
    + intros Hno.
      pose proof (after_turn_lookup animations k i a) as Hl.
      rewrite Hact, decide_False in Hl by (apply Hno; left).
      destruct (Hacts _ _ Hl) as [_ H2]. apply H2.
      intros key' Hin'. apply Hno. by right.
Qed.

Lemma stop_turn_rest i key :
  allAnimations (stop_turn i key) = allAnimations i /\
  activeAnimations (stop_turn i key) = activeAnimations i /\
  mixer (stop_turn i key) = mixer i.
Proof. unfold stop_turn. by destruct (allAnimations i !! key). Qed.

Lemma stop_turn_lookup i key a :
  actions (stop_turn i key) !! a =
    if decide (allAnimations i !! key = Some a)
    then with_playing false <$> actions i !! a
    else actions i !! a.
Proof.
  unfold stop_turn. destruct (allAnimations i !! key) as [b|] eqn:Hb; simpl.
  - case_decide as Hd.
    + injection Hd as ->. apply list_lookup_alter_eq.
    + apply list_lookup_alter_ne. congruence.
  - done.
Qed.

Lemma stopLeftover_rest keys :
  forall i,
    allAnimations (Mesh.stopLeftover keys i) = allAnimations i /\
    activeAnimations (Mesh.stopLeftover keys i) = activeAnimations i /\
    mixer (Mesh.stopLeftover keys i) = mixer i.
Proof.
  induction keys as [|k keys IH]; intros i; [done|].
  simpl. fold (stop_turn i k).
  destruct (IH (stop_turn i k)) as (-> & -> & ->). apply stop_turn_rest.
Qed.

Lemma stopLeftover_cases keys :
  forall i a act,
    actions i !! a = Some act ->
    actions (Mesh.stopLeftover keys i) !! a = Some act \/
    actions (Mesh.stopLeftover keys i) !! a = Some (with_playing false act).
Proof.
  induction keys as [|k keys IH]; intros i a act Hact; [by left|].
  simpl. fold (stop_turn i k).
  pose proof (stop_turn_lookup i k a) as Hl. rewrite Hact in Hl.
  case_decide; simpl in Hl.
  - right. by destruct (IH _ _ _ Hl) as [->| ->].
  - by apply IH.
Qed.

Lemma stopLeftover_spec keys :
  forall i a act,
    actions i !! a = Some act ->
    (forall key,
        key ∈ keys -> allAnimations i !! key = Some a ->
        actions (Mesh.stopLeftover keys i) !! a = Some (with_playing false act)) /\
    ((forall key, key ∈ keys -> allAnimations i !! key ≠ Some a) ->
     actions (Mesh.stopLeftover keys i) !! a = Some act).
Proof.
  induction keys as [|k keys IH]; intros i a act Hact.
  { split; [|done]. intros key Hk. by apply elem_of_nil in Hk. }
  simpl. fold (stop_turn i k).
  pose proof (stop_turn_lookup i k a) as Hl. rewrite Hact in Hl.
  destruct (stop_turn_rest i k) as (Hall & _). split.
  - intros key Hkey Ha. case_decide as Hd; simpl in Hl.
    + by destruct (stopLeftover_cases keys _ _ _ Hl) as [->| ->].
    + apply elem_of_cons in Hkey as [->|Hin]; [done|].
      destruct (IH _ _ _ Hl) as [H1 _]. apply (H1 key Hin). by rewrite Hall.
  - intros Hno. rewrite decide_False in Hl by (apply Hno; left).
    destruct (IH _ _ _ Hl) as [_ H2]. apply H2.
    intros key Hin. rewrite Hall. apply Hno. by right.
Qed.

Lemma same_owners_refl i : same_owners i i.
Proof. by split. Qed.

Lemma same_owners_trans i1 i2 i3 :
  same_owners i1 i2 -> same_owners i2 i3 -> same_owners i1 i3.
Proof.
  intros [Hm1 Ha1] [Hm2 Ha2]. split; [congruence|].
  intros a. by rewrite Ha2, Ha1.
Qed.

Lemma same_owners_well_owned i i' :
  same_owners i i' -> well_owned i -> well_owned i'.
Proof.
  intros [Hm Ha] Hown act' Hact'.
  apply list_elem_of_lookup_1 in Hact' as [a Hact'].
  specialize (Ha a). rewrite Hact' in Ha. simpl in Ha.
  destruct (actions i !! a) as [act|] eqn:Hact; [|done].
  injection Ha as ->. rewrite Hm. apply Hown. by eapply list_elem_of_lookup_2.
Qed.

Lemma on_action_same_owners a f i :
  (forall act, act_mixer (f act) = act_mixer act) ->
  same_owners i (on_action a f i).
Proof.
  intros Hf. split; [done|]. intros b. unfold on_action. simpl.
  destruct (decide (a = b)) as [->|].
  - rewrite list_lookup_alter_eq. destruct (actions i !! b); simpl; [|done].
    by rewrite Hf.
  - by rewrite list_lookup_alter_ne.
Qed.

Lemma adjusted_mixer all animations key act :
  act_mixer (adjusted all animations key act) = act_mixer act.
Proof.
  unfold adjusted, configured_action.
  repeat (case_match; simpl; try done).
Qed.

Lemma after_turn_same_owners animations key i :
  same_owners i (after_turn animations key i).
Proof.
  unfold after_turn. destruct (allAnimations i !! _) as [a|].
  - destruct (on_action_same_owners a (turn i animations key) i) as [Hm Ha];
      [|by split].
    intros act. unfold turn. case_bool_decide; simpl; apply adjusted_mixer.
  - by split.
Qed.

Lemma after_all_same_owners animations keys :
  forall i, same_owners i (after_all animations keys i).
Proof.
  induction keys as [|k keys IH]; intros i; [apply same_owners_refl|].
  simpl. eapply same_owners_trans; [apply after_turn_same_owners|apply IH].
Qed.

Lemma stopLeftover_same_owners keys :
  forall i, same_owners i (Mesh.stopLeftover keys i).
Proof.
  induction keys as [|k keys IH]; intros i; [apply same_owners_refl|].
  simpl. eapply same_owners_trans; [|apply IH].
  destruct (allAnimations i !! k); [|apply same_owners_refl].
  by apply on_action_same_owners.
Qed.

Lemma stopAllAction_same_owners m i : same_owners i (stopAllAction m i).
Proof.
  split; [done|]. intros a. unfold stopAllAction. simpl.
  rewrite list_lookup_fmap. destruct (actions i !! a); simpl; [|done].
  by case_decide.
Qed.

Lemma same_static_refl i : same_static i i.
Proof. by repeat split. Qed.

Lemma same_static_trans i1 i2 i3 :
  same_static i1 i2 -> same_static i2 i3 -> same_static i1 i3.
Proof.
  intros (?&?&?&?&?&?&?&?&?) (?&?&?&?&?&?&?&?&?).
  repeat split; congruence.
Qed.

Lemma on_action_static a f i : same_static i (on_action a f i).
Proof. repeat split. unfold on_action. simpl. apply length_alter. Qed.

Lemma set_activeAnimations_static s i : same_static i (set_activeAnimations s i).
Proof. by repeat split. Qed.

Lemma after_turn_static animations key i :
  same_static i (after_turn animations key i).
Proof.
  unfold after_turn. eapply same_static_trans; [|apply set_activeAnimations_static].
  destruct (allAnimations i !! _); [apply on_action_static|apply same_static_refl].
Qed.

Lemma after_all_static animations keys :
  forall i, same_static i (after_all animations keys i).
Proof.
  induction keys as [|k keys IH]; intros i; [apply same_static_refl|].
  simpl. eapply same_static_trans; [apply after_turn_static|apply IH].
Qed.

Lemma first_throw_None all animations keys :
  (forall key, key ∈ keys -> conversion animations key = inr ()) ->
  first_throw all animations keys = None.
Proof.
  induction keys as [|key keys IH]; intros H; [done|]. simpl.
  rewrite (H key) by left. rewrite IH; [by destruct (all !! _)|].
  intros k Hk. apply H. by right.
Qed.

Lemma first_throw_empty animations keys : first_throw ∅ animations keys = None.
Proof.
  induction keys as [|key keys IH]; [done|]. simpl. by rewrite lookup_empty.
Qed.

Lemma syncable_spec definition key :
  syncable definition = true ->
  key ∈ (entries (get definition "animations")).*1 ->
  conversion (get definition "animations") key = inr ().
Proof.
  unfold syncable. rewrite forallb_forall. intros H Hkey.
  apply list_elem_of_In in Hkey. specialize (H key Hkey).
  by destruct (conversion _ key) as [e|[]].
Qed.

Lemma throws_in_syncable definition i :
  syncable definition = true -> throws_in definition i = None.
Proof.
  intros H. unfold throws_in. destruct (nothing_requested definition); [done|].
  apply first_throw_None. intros key. by apply syncable_spec.
Qed.

Lemma throws_in_none_loaded definition i :
  allAnimations i = ∅ -> throws_in definition i = None.
Proof.
  intros H. unfold throws_in. destruct (nothing_requested definition); [done|].
  rewrite H. apply first_throw_empty.
Qed.

Lemma halfway_stalled animations key keys i a :
  consistent i ->
  allAnimations i !! Mesh.animName key = Some a ->
  halfway (key :: keys) i
    (on_action a (adjusted (allAnimations i) animations key) i).
Proof.
  intros (Hcall & Hdist & Hplay) Ha. split; [repeat split|split; [|split]].
  - intros name b Hb. destruct (Hcall _ _ Hb) as (act & Hact & Hown).
    destruct (decide (a = b)) as [->|Hne].
    + rewrite on_action_lookup, Hact. simpl. eexists. split; [done|].
      by rewrite adjusted_own.
    + rewrite on_action_lookup_ne by done. eauto.
  - exact Hdist.
  - intros name b act Hin Hb. simpl in Hin, Hb.
    destruct (decide (a = b)) as [->|Hne].
    + rewrite on_action_lookup.
      destruct (actions i !! b) as [act0|] eqn:Hact0; [|done]. simpl.
      intros [= <-]. rewrite adjusted_playing. by eapply Hplay.
    + rewrite on_action_lookup_ne by done. by eapply Hplay.
  - apply on_action_same_owners. intros act. apply adjusted_mixer.
  - apply on_action_static.
  - intros b act Hact Hno. rewrite on_action_lookup_ne; [done|].
    intros ->. by apply (Hno key); [left|].
Qed.

Lemma halfway_after_turn animations key keys i i' :
  consistent i ->
  halfway keys (after_turn animations key i) i' ->
  halfway (key :: keys) i i'.
Proof.
  intros Hi (Hc & Hown & Hst & Hspare).
  split; [done|]. split; [|split].
  - eapply same_owners_trans; [apply after_turn_same_owners|done].
  - eapply same_static_trans; [apply after_turn_static|done].
  - intros a act Hact Hno. apply Hspare.
    + rewrite after_turn_lookup, decide_False; [done|]. apply Hno. by left.
    + intros k Hk. rewrite after_turn_all. apply Hno. by right.
Qed.

Lemma requestAll_spec animations keys :
  forall new i,
    consistent i ->
    match first_throw (allAnimations i) animations keys with
    | None =>
        Mesh.requestAll animations keys new i =
          Return (list_to_set (Mesh.animName <$> keys) ∪ new)
            (after_all animations keys i)
    | Some e =>
        exists i',
          Mesh.requestAll animations keys new i = Throws e i' /\
          halfway keys i i'
    end.
Proof.
  induction keys as [|key keys IH]; intros new i Hi; simpl.
  - f_equal. set_solver.
  - rewrite request_spec by apply Hi.
    pose proof (after_turn_consistent animations key i Hi) as Hi1.
    specialize (IH ({[Mesh.animName key]} ∪ new) _ Hi1).
    rewrite after_turn_all in IH.
    assert (match first_throw (allAnimations i) animations keys with
            | Some e =>
                exists i',
                  (let* n, i0 :=
                     Return ({[Mesh.animName key]} ∪ new)
                       (after_turn animations key i) in
                   Mesh.requestAll animations keys n i0) = Throws e i' /\
                  halfway (key :: keys) i i'
            | None =>
                (let* n, i0 :=
                   Return ({[Mesh.animName key]} ∪ new)
                     (after_turn animations key i) in
                 Mesh.requestAll animations keys n i0) =
                  Return ({[Mesh.animName key]} ∪
                            list_to_set (Mesh.animName <$> keys) ∪ new)
                    (after_all animations keys (after_turn animations key i))
            end) as Hgo.
    { simpl. destruct (first_throw _ _ keys) as [e|].
      - destruct IH as (i' & -> & Hhalf). exists i'. split; [done|].
        by eapply halfway_after_turn.
      - rewrite IH. f_equal. set_solver. }
    destruct (allAnimations i !! Mesh.animName key) as [a|] eqn:Ha; [|done].
    destruct (conversion animations key) as [e|[]]; [|done].
    eexists. split; [done|]. by apply halfway_stalled.
Qed.

Lemma settled_as_requested all animations key act :
  act_playing (settled all animations key act) = true /\
  (truthy (get animations key) = true ->
   as_requested (get animations key) (settled all animations key act)).
Proof.
  split; [done|]. intros Ht. unfold settled, adjusted, configured_action.
  rewrite Ht. unfold as_requested.
  repeat (case_match; simpl; try done).
Qed.

Lemma stopAllAction_lookup m i a :
  actions (stopAllAction m i) !! a =
    (fun act => if decide (act_mixer act = m) then with_playing false act else act)
      <$> actions i !! a.
Proof. unfold stopAllAction. simpl. apply list_lookup_fmap. Qed.

Arguments stopAllAction : simpl never.

(** What the loop and the two ways out of [updateAnimation] leave, when no
    conversion throws. *)
Lemma reconcile_spec definition i :
  consistent i ->
  let i' := reconcile definition i in
  consistent i' /\ same_owners i i' /\
  allAnimations i' = allAnimations i /\
  forall m, mixer i = Some m -> reconciled definition m i i'.
Proof.
  intros Hi.
  unfold reconcile, reconciled.
  destruct (nothing_requested definition).
  - destruct (mixer i) as [m|] eqn:Hm.
    2:{ split; [done|]. split; [apply same_owners_refl|]. by split. }
    destruct Hi as (Hcall & Hdist & Hplay).
    split; [repeat split|]; [..|split; [|split; [done|]]].
    + intros name a Ha. destruct (Hcall _ _ Ha) as (act & Hact & Hown).
      rewrite ?stopAllAction_lookup, ?list_lookup_fmap. simpl.
      rewrite Hact. simpl.
      eexists. split; [done|]. by case_decide.
    + done.
    + intros name a act Hin. by apply elem_of_empty in Hin.
    + eapply same_owners_trans; [|apply stopAllAction_same_owners]. by split.
    + intros m' [= <-]. split; [done|]. split; [done|]. split; [done|].
      intros a act. rewrite ?stopAllAction_lookup, ?list_lookup_fmap.
      destruct (actions _ !! a) as [act0|]; simpl; [|done].
      intros [= <-]. case_decide; [done|]. simpl. by intros.
  - set (animations := get definition "animations").
    set (keys := (entries animations).*1).
    destruct (after_all_spec animations keys i Hi)
      as (Hc1 & Hall1 & Hactive1 & Hm1 & Hacts1).
    pose proof (after_all_same_owners animations keys i) as Hown1.
    set (i1 := after_all animations keys i) in *.
    set (left := elements (activeAnimations i1)).
    destruct (stopLeftover_rest left i1) as (Hall2 & Hactive2 & Hm2).
    pose proof (stopLeftover_same_owners left i1) as Hown2.
    simpl.
    destruct Hi as (Hcall & Hdist & Hplay).
    assert (forall key a,
               key ∈ keys -> allAnimations i !! Mesh.animName key = Some a ->
               exists act, actions i !! a = Some act /\
                 actions (Mesh.stopLeftover left i1) !! a
                   = Some (settled (allAnimations i) animations key act)) as Hreq.
    { intros key a Hkey Ha. destruct (Hcall _ _ Ha) as (act & Hact & _).
      exists act. split; [done|].
      destruct (Hacts1 _ _ Hact) as [H1 _]. specialize (H1 key Hkey Ha).
      destruct (stopLeftover_spec left _ _ _ H1) as [_ H2]. apply H2.
      intros name Hname. rewrite Hall1. intros Ha'.
      apply elem_of_elements in Hname. rewrite Hactive1 in Hname.
      apply elem_of_difference in Hname as [_ Hnot]. apply Hnot.
      rewrite (Hdist _ _ _ Ha' Ha). apply elem_of_list_to_set.
      by apply list_elem_of_fmap_2. }
    split; [repeat split|split; [|split]].
    + intros name a. simpl. rewrite Hall2, Hall1. intros Ha.
      destruct (Hcall _ _ Ha) as (act & Hact & Hown).
      destruct Hc1 as (Hcall1 & _). rewrite <- Hall1 in Ha.
      destruct (Hcall1 _ _ Ha) as (act1 & Hact1 & Hown').
      by destruct (stopLeftover_cases left _ _ _ Hact1) as [->| ->]; eauto.
    + intros n1 n2 a. simpl. rewrite Hall2, Hall1. apply Hdist.
    + intros name a act. simpl. rewrite Hall2, Hall1.
      intros Hin Ha. apply elem_of_list_to_set, list_elem_of_fmap in Hin
        as (key & -> & Hkey).
      destruct (Hreq key a Hkey Ha) as (act0 & _ & ->). by intros [= <-].
    + eapply same_owners_trans; [apply Hown1|].
      eapply same_owners_trans; [apply Hown2|]. by split.
    + simpl. by rewrite Hall2, Hall1.
    + intros m Hm. split; [|split; [|split; [|split]]].
      * simpl. by rewrite Hall2, Hall1.
      * simpl. by rewrite Hm2, Hm1.
      * done.
      * intros key a Hkey Ha. destruct (Hreq key a Hkey Ha) as (act & _ & ->).
        eexists. split; [done|]. apply settled_as_requested.
      * intros name a Hin Hnot Ha. destruct (Hcall _ _ Ha) as (act & Hact & _).
        destruct (Hacts1 _ _ Hact) as [_ H2]. unfold requested in Hnot.
        assert (actions i1 !! a = Some act) as Hact1.
        { apply H2. intros key Hkey Ha'. apply Hnot.
          rewrite (Hdist _ _ _ Ha Ha'). apply elem_of_list_to_set.
          by apply list_elem_of_fmap_2. }
        destruct (stopLeftover_spec left _ _ _ Hact1) as [H3 _].
        exists (with_playing false act). split; [|done]. apply (H3 name).
        -- apply elem_of_elements. rewrite Hactive1. by apply elem_of_difference.
        -- by rewrite Hall1.
Qed.

(** [updateAnimation] runs to its end and leaves [reconcile], or a
    conversion throws in the middle of its loop. *)
Lemma updateAnimation_cases definition i :
  consistent i ->
  match throws_in definition i with
  | None =>
      Mesh.updateAnimation definition i = Return () (reconcile definition i)
  | Some e =>
      exists i',
        Mesh.updateAnimation definition i = Throws e i' /\
        halfway (entries (get definition "animations")).*1 i i'
  end.
Proof.
  intros Hi. unfold throws_in, Mesh.updateAnimation, reconcile.
  fold (nothing_requested definition).
  destruct (nothing_requested definition); [by destruct (mixer i)|].
  pose proof (requestAll_spec (get definition "animations")
                (entries (get definition "animations")).*1 ∅ i Hi) as Hall.
  destruct (first_throw _ _ _) as [e|].
  - destruct Hall as (i' & -> & Hhalf). by exists i'.
  - rewrite Hall. simpl. unfold requested. by rewrite union_empty_r_L.
Qed.

Lemma updateAnimation_eq definition i :
  consistent i ->
  throws_in definition i = None ->
  Mesh.updateAnimation definition i = Return () (reconcile definition i).
Proof.
  intros Hi Hno. pose proof (updateAnimation_cases definition i Hi) as H.
  by rewrite Hno in H.
Qed.

Lemma updateAnimation_final definition i :
  consistent i ->
  consistent (final (Mesh.updateAnimation definition i)) /\
  same_owners i (final (Mesh.updateAnimation definition i)) /\
  allAnimations (final (Mesh.updateAnimation definition i)) = allAnimations i.
Proof.
  intros Hi. pose proof (updateAnimation_cases definition i Hi) as H.
  destruct (throws_in definition i) as [e|].
  - destruct H as (i' & -> & Hc & Hown & Hst & _). simpl.
    split; [done|]. split; [done|]. by destruct Hst as (_&_&_&_&_&Hall&_).
  - rewrite H. simpl.
    by destruct (reconcile_spec definition i Hi) as (Hc & Hown & Hall & _).
Qed.

Lemma update_spec definition i m :
  mixer i = Some m ->
  nullish definition = false ->
  urlOf (get definition "gltf2") = inr (url i) ->
  throws_in definition i = None ->
  consistent i ->
  exists i',
    Mesh.update definition i = Return true i' /\
    reconciled definition m i i' /\ consistent i'.
Proof.
  intros Hm Hn Hu Hno Hi. rewrite update_same_url by done.
  rewrite updateAnimation_eq by done.
  destruct (reconcile_spec definition i Hi) as (Hc & _ & _ & Hr).
  eexists. split; [done|]. split; [by apply Hr|done].
Qed.

Lemma update_preserves definition i :
  consistent i ->
  consistent (final (Mesh.update definition i)) /\
  same_owners i (final (Mesh.update definition i)) /\
  allAnimations (final (Mesh.update definition i)) = allAnimations i.
Proof.
  intros Hi. unfold Mesh.update.
  destruct (nullish definition); [by split; [|split; [apply same_owners_refl|]]|].
  destruct (urlOf _) as [e|u]; [by split; [|split; [apply same_owners_refl|]]|].
  case_bool_decide; [by split; [|split; [apply same_owners_refl|]]|].
  pose proof (updateAnimation_final definition i Hi) as Hfin.
  by destruct (Mesh.updateAnimation definition i).
Qed.

End Reconcile.

(** ** The instances a loader can hold *)

Section Reachable.
Context {rt : Runtime}.

Lemma fresh_sound u p definition : sound (Mesh.fresh u p definition).
Proof.
  split; [apply fresh_well_owned|]. repeat split.
  - intros name a Ha. simpl in Ha. by rewrite lookup_empty in Ha.
  - intros n1 n2 a Ha. simpl in Ha. by rewrite lookup_empty in Ha.
  - intros name a act Hin. simpl in Hin. by apply elem_of_empty in Hin.
Qed.

Lemma registered_lookup names :
  forall base all name a,
    registered base names all !! name = Some a ->
    all !! name = Some a \/ exists k, a = base + k /\ names !! k = Some name.
Proof.
  induction names as [|n names IH]; intros base all name a; simpl; [by left|].
  intros H. apply IH in H as [H|(k & -> & Hk)].
  - apply lookup_insert_Some in H as [[<- <-]|[_ H]]; [|by left].
    right. exists 0. split; [lia|done].
  - right. exists (S k). split; [lia|done].
Qed.

Lemma loaded_gltf2_sound gltf i :
  sound i -> exists i', GLTF2.loaded gltf i = Return () i' /\ sound i'.
Proof.
  intros (Hown & Hcall & Hdist & Hplay).
  eexists. split; [by apply loaded_gltf2_spec|].
  set (names := if truthy _ then model_animations gltf else []).
  set (f := or_else (get (animationParams i) "fadeTime") _).
  set (t := or_else (get (animationParams i) "timeScale") _).
  set (x := or_else (get (animationParams i) "weight") _).
  assert (forall name a,
             registered (length (actions i)) names (allAnimations i) !! name = Some a ->
             (allAnimations i !! name = Some a /\ a < length (actions i) /\
              (actions i ++ started_from (length (mixers i)) f t x 0 names) !! a
                = actions i !! a) \/
             (length (actions i) <= a /\
              names !! (a - length (actions i)) = Some name /\
              (actions i ++ started_from (length (mixers i)) f t x 0 names) !! a
                = Some (started (length (mixers i)) (a - length (actions i)) f t x)))
    as Hreg.
  { intros name a Ha. apply registered_lookup in Ha as [Ha|(k & -> & Hk)].
    - left. destruct (Hcall _ _ Ha) as (act & Hact & _).
      apply lookup_lt_Some in Hact as Hlt.
      split; [done|]. split; [done|]. by apply lookup_app_l.
    - right. replace (length (actions i) + k - length (actions i)) with k by lia.
      split; [lia|]. split; [done|].
      rewrite lookup_app_r by lia.
      replace (length (actions i) + k - length (actions i)) with k by lia.
      by rewrite started_from_lookup, Hk. }
  split; [|repeat split].
  - intros act. simpl. rewrite elem_of_app, length_app. simpl.
    intros [Hact|Hact]; [specialize (Hown act Hact); lia|].
    apply list_elem_of_lookup_1 in Hact as [k Hk].
    rewrite started_from_lookup in Hk.
    destruct (names !! k); simpl in Hk; [|done]. injection Hk as <-. simpl. lia.
  - intros name a. simpl. intros Ha.
    destruct (Hreg _ _ Ha) as [(Ha' & _ & ->)|(_ & _ & ->)]; [|by eexists].
    by apply (Hcall name).
  - intros n1 n2 a. simpl. intros H1 H2.
    destruct (Hreg _ _ H1) as [(H1' & Hlt1 & _)|(Hge1 & Hk1 & _)];
      destruct (Hreg _ _ H2) as [(H2' & Hlt2 & _)|(Hge2 & Hk2 & _)];
      try lia; [by eapply Hdist|congruence].
  - intros name a act. simpl. intros Hin Ha.
    destruct (Hreg _ _ Ha) as [(Ha' & _ & ->)|(_ & _ & ->)].
    + by apply (Hplay name).
    + by intros [= <-].
Qed.

Lemma frame_sound t dt i : sound i -> sound (Mesh.frame t dt i).
Proof.
  intros [Hown Hc]. unfold Mesh.frame, mixer_update.
  destruct (mixer i); [|done]. split; [|done].
  intros act Hact. simpl in *. rewrite length_alter. by apply Hown.
Qed.

Lemma update_sound definition i :
  sound i -> sound (final (Mesh.update definition i)).
Proof.
  intros [Hown Hc].
  destruct (update_preserves definition i Hc) as (Hc' & Hsame & _).
  split; [by eapply same_owners_well_owned|done].
Qed.

Lemma tick_instances w : instances (Mesh.tick w) = instances w.
Proof.
  unfold Mesh.tick.
  assert (forall cbs w0, instances (foldl Mesh.run_frame w0 cbs) = instances w0) as H.
  { induction cbs as [|cb cbs IH]; intros w0; [done|]. simpl. by rewrite IH. }
  by rewrite H.
Qed.

Lemma dispose_instances (P : MeshInstance -> Prop) i w :
  (forall inst, P inst -> P (set_scene None inst)) ->
  Forall P (instances w) -> Forall P (instances (Mesh.dispose i w)).
Proof.
  intros HP Hw. unfold Mesh.dispose.
  destruct (instances w !! i) as [inst|] eqn:Hi; [|done].
  destruct (scene inst); [|done].
  destruct (RefCountCache.removeReference _ _ _). simpl.
  apply Forall_insert; [done|]. apply HP. by eapply Forall_lookup_1.
Qed.

Lemma gltf2_step_sound w o :
  cold w -> Forall sound (instances w) -> Forall sound (instances (GLTF2.step w o)).
Proof.
  intros Hcold Hw. destruct o as [d p|r g|r|i d|i t dt|i|]; simpl.
  - rewrite constructor_cold by done.
    destruct (constructs_cases "gltf2" true d p w) as [->|(u & Hu & ->)]; [done|]. simpl.
    apply Forall_app. split; [done|]. apply Forall_singleton, fresh_sound.
  - destruct (requests w !! r) as [q|]; [|done].
    destruct (req_pending q); [|done]. unfold GLTF2.onLoad. simpl.
    destruct (instances w !! req_inst q) as [inst|] eqn:Hi; [|done].
    destruct (loaded_gltf2_sound g inst) as (inst' & -> & Hs);
      [by eapply Forall_lookup_1|].
    simpl. by apply Forall_insert.
  - destruct (requests w !! r) as [q|]; [|done].
    destruct (req_pending q); [|done]. unfold Mesh.onError. simpl.
    by destruct (instances w !! req_inst q).
  - unfold on_instance. destruct (instances w !! i) as [inst|] eqn:Hi; [|done].
    pose proof (update_sound d inst (Forall_lookup_1 _ _ _ _ Hw Hi)) as Hs.
    destruct (Mesh.update d inst); simpl in *; by apply Forall_insert.
  - destruct (instances w !! i) as [inst|] eqn:Hi; [|done]. simpl.
    apply Forall_insert; [done|]. apply frame_sound. by eapply Forall_lookup_1.
  - by apply dispose_instances.
  - by rewrite tick_instances.
Qed.

Lemma gltf2_run_sound ops : Forall sound (instances (GLTF2.run ops)).
Proof.
  induction ops as [|o ops IH] using rev_ind; [by constructor|].
  unfold GLTF2.run in *. rewrite foldl_app. simpl.
  apply gltf2_step_sound; [apply run_cold|done].
Qed.

Lemma bare_sound i : bare i -> sound i.
Proof.
  intros [Hown Hall]. split; [done|]. repeat split.
  - intros name a. by rewrite Hall, lookup_empty.
  - intros n1 n2 a. by rewrite Hall, lookup_empty.
  - intros name a act _. by rewrite Hall, lookup_empty.
Qed.

Lemma loaded_fbx_bare fbx i : bare i -> bare (final (FBX.loaded fbx i)).
Proof.
  intros [Hown Hall].
  destruct (model_animations fbx) as [|name rest] eqn:Hnames.
  - unfold FBX.loaded. simpl. rewrite Hnames. simpl. split; [|done].
    intros act Hact. simpl in *. rewrite length_app. simpl.
    specialize (Hown act Hact). lia.
  - rewrite (loaded_fbx_spec fbx i name rest) by done. simpl. split; [|done].
    intros act. simpl. rewrite elem_of_app, list_elem_of_singleton, length_app.
    simpl. intros [Hact| ->]; [specialize (Hown act Hact); lia|].
    destruct (truthy _); simpl; lia.
Qed.

Lemma fbx_step_bare w o :
  Forall bare (instances w) -> Forall bare (instances (FBX.step w o)).
Proof.
  intros Hw. destruct o as [d p|r g|r|i d|i t dt|i|]; simpl.
  - rewrite fbx_constructor_spec.
    destruct (constructs_cases "fbx" false d p w) as [->|(u & Hu & ->)]; [done|]. simpl.
    apply Forall_app. split; [done|]. apply Forall_singleton.
    split; [apply fresh_well_owned|done].
  - destruct (requests w !! r) as [q|]; [|done].
    destruct (req_pending q); [|done]. unfold FBX.onLoad. simpl.
    destruct (instances w !! req_inst q) as [inst|] eqn:Hi; [|done].
    pose proof (loaded_fbx_bare g inst (Forall_lookup_1 _ _ _ _ Hw Hi)) as Hs.
    destruct (FBX.loaded g inst); simpl in *; by apply Forall_insert.
  - destruct (requests w !! r) as [q|]; [|done].
    destruct (req_pending q); [|done]. unfold Mesh.onError. simpl.
    by destruct (instances w !! req_inst q).
  - unfold on_instance. destruct (instances w !! i) as [inst|] eqn:Hi; [|done].
    pose proof (Forall_lookup_1 _ _ _ _ Hw Hi) as Hb.
    pose proof (update_sound d inst (bare_sound _ Hb)) as [Hs _].
    destruct (update_preserves d inst) as (_ & _ & Hall);
      [by apply bare_sound|].
    destruct Hb as [_ Hempty]. rewrite Hempty in Hall.
    destruct (Mesh.update d inst); simpl in *; by apply Forall_insert.
  - destruct (instances w !! i) as [inst|] eqn:Hi; [|done]. simpl.
    apply Forall_insert; [done|].
    destruct (Forall_lookup_1 _ _ _ _ Hw Hi) as [Hown Hall].
    split; [|by unfold Mesh.frame; destruct (mixer inst)].
    apply frame_sound. by apply bare_sound.
  - by apply dispose_instances.
  - by rewrite tick_instances.
Qed.

Lemma fbx_run_bare ops : Forall bare (instances (FBX.run ops)).
Proof.
  induction ops as [|o ops IH] using rev_ind; [by constructor|].
  unfold FBX.run in *. rewrite foldl_app. simpl. by apply fbx_step_bare.
Qed.

(** C1 (as the code has it): take an instance of either loader, in any state
    the loader can bring it to, whose model has loaded (it has a mixer), and
    a definition that passes the URL test of [update] (the URL of its
    [gltf2] field is the instance's URL) and in which every truthy
    [syncWith] of truthy parameters converts to a property name.  Then
    [update] returns [true] and leaves the loaded animations as they were.  If the [animations] field is
    falsy or has a [length] of 0, all actions of the mixer are stopped and
    [activeAnimations] is empty.  Otherwise [activeAnimations] is exactly the
    set of requested names (each key prefixed with "animation_"); every
    requested name that is a loaded animation plays, and, when the value
    given for the key is truthy, has received the requested [fadeTime],
    [timeScale] and [weight], with 0, 1 and 1 in place of falsy ones; and
    every animation that was recorded in [activeAnimations], is not
    requested and is loaded, is stopped. *)
Theorem update_reconciles :
  forall (ops : list Op) (i : nat) (inst : MeshInstance)
         (definition : value) (m : nat),
    instances (GLTF2.run ops) !! i = Some inst \/
    instances (FBX.run ops) !! i = Some inst ->
    mixer inst = Some m ->
    nullish definition = false ->
    urlOf (get definition "gltf2") = inr (url inst) ->
    syncable definition = true ->
    exists inst',
      Mesh.update definition inst = Return true inst' /\
      reconciled definition m inst inst'.
Proof.
  intros ops i inst definition m Hi Hm Hn Hu Hsync.
  pose proof (throws_in_syncable definition inst Hsync) as Hno.
  assert (consistent inst) as Hc.
  { destruct Hi as [Hi|Hi].
    - by destruct (Forall_lookup_1 _ _ _ _ (gltf2_run_sound ops) Hi).
    - by destruct (bare_sound _ (Forall_lookup_1 _ _ _ _ (fbx_run_bare ops) Hi)). }
  destruct (update_spec definition inst m Hm Hn Hu Hno Hc) as (inst' & Hup & Hr & _).
  eauto.
Qed.

(** C6 (as the code has it): when the load of an instance completes, the
    callback creates a mixer on the loaded scene and makes it the instance's
    mixer.  The settings are the configured [fadeTime], [timeScale] and
    [weight] when these are truthy, and 0, 1 and 1 otherwise (so also for a
    configured 0).  GLTF2: when [play] is truthy every clip of the model gets
    an action that received [fadeIn], [setEffectiveTimeScale] and
    [setEffectiveWeight] with these settings and then [play]; when [play] is
    falsy no action is created or touched.  FBX, for a model with a first
    clip: the action of that clip is created and nothing else; it plays
    exactly when [play] is truthy, with its [timeScale] and [weight] set as
    above.  A definition without a truthy [animations] field gives the
    parameters [{play: false, timeScale: 0}], under which nothing plays. *)
Theorem onLoad_starts_playback :
  forall (ops : list Op) (i : nat) (inst : MeshInstance) (asset : Model),
    let m := length (mixers inst) in
    let params := animationParams inst in
    let fade := or_else (get params "fadeTime") (VNum 0) in
    let timeScale := or_else (get params "timeScale") (VNum 1) in
    let weight := or_else (get params "weight") (VNum 1) in
    let mx := {| mx_root := model_scene asset; mx_updates := [] |} in
    (instances (GLTF2.run ops) !! i = Some inst ->
     exists inst',
       GLTF2.loaded asset inst = Return () inst' /\
       mixer inst' = Some m /\ mixers inst' !! m = Some mx /\
       (truthy (get params "play") = true ->
        length (actions inst')
          = length (actions inst) + length (model_animations asset) /\
        forall k name,
          model_animations asset !! k = Some name ->
          actions inst' !! (length (actions inst) + k)
            = Some (started m k fade timeScale weight)) /\
       (truthy (get params "play") = false -> actions inst' = actions inst)) /\
    (instances (FBX.run ops) !! i = Some inst ->
     forall name rest,
       model_animations asset = name :: rest ->
       exists inst' act,
         FBX.loaded asset inst = Return () inst' /\
         mixer inst' = Some m /\ mixers inst' !! m = Some mx /\
         actions inst' = actions inst ++ [act] /\
         act_mixer act = m /\ act_clip act = 0 /\
         act_playing act = truthy (get params "play") /\
         (truthy (get params "play") = true ->
          act_timeScale act = timeScale /\ act_weight act = weight)) /\
    (forall definition,
        truthy (get definition "animations") = false ->
        Mesh.parseAnimationParams definition = Mesh.defaultParam) /\
    truthy (get Mesh.defaultParam "play") = false.
Proof.
  intros ops i inst asset m params fade timeScale weight mx.
  split; [|split].
  - intros Hi.
    destruct (Forall_lookup_1 _ _ _ _ (gltf2_run_sound ops) Hi) as [Hown _].
    by destruct (loaded_starts_playback asset inst Hown) as [H _].
  - intros Hi.
    destruct (Forall_lookup_1 _ _ _ _ (fbx_run_bare ops) Hi) as [Hown _].
    by destruct (loaded_starts_playback asset inst Hown) as (_ & H & _).
  - by destruct (loaded_starts_playback asset (Mesh.fresh "" 0 VUndefined)
                   (fresh_well_owned _ _ _)) as (_ & _ & H).
Qed.

End Reachable.

Lemma onLoad_starts_playback_witness :
  exists inst',
    GLTF2.loaded sample_model (Mesh.fresh "a.gltf" 0 gltf2_definition)
      = Return () inst' /\
    mixer inst' = Some 0.
Proof.
  destruct (proj1 (onLoad_starts_playback (rt := runtime_model)
                     [CreateInstance gltf2_definition 0] 0
                     (Mesh.fresh "a.gltf" 0 gltf2_definition) sample_model)
              eq_refl) as (inst' & Hl & Hm & _).
  exists inst'. split; [exact Hl|exact Hm].
Defined.

(** ** Evaluations *)

Lemma update_reconciles_witness :
  exists inst',
    Mesh.update (rt := runtime_model) update_definition loaded_instance
      = Return true inst' /\
    reconciled update_definition 0 loaded_instance inst'.
Proof.
  apply (update_reconciles (rt := runtime_model) gltf2_ops 0 loaded_instance
           update_definition 0).
  - left. vm_compute. reflexivity.
  - vm_compute. reflexivity.
  - reflexivity.
  - vm_compute. reflexivity.
  - reflexivity.
Defined.

(** C1 as worded fails: asked to play "walk" with a weight of 0, [update]
    gives the loaded "animation_walk" a weight of 1. *)
Lemma update_ignores_zero_weight :
  ¬ reconciles_as_worded update_definition loaded_instance.
Proof.
  intros (i' & Hu & Hreq & _).
  vm_compute in Hu. injection Hu as <-.
  destruct (Hreq "walk" 0) as (act & Hact & _ & _ & _ & Hw).
  - simpl. set_solver.
  - vm_compute. reflexivity.
  - vm_compute in Hact. injection Hact as <-.
    apply (f_equal truthy) in Hw. vm_compute in Hw. discriminate.
Qed.

(** In the same update "animation_run", which the load callback started and
    nothing recorded in [activeAnimations], goes on playing although it is
    not requested. *)
Example update_leaves_unrecorded_playing :
  exists i' act,
    Mesh.update (rt := runtime_model) update_definition loaded_instance
      = Return true i' /\
    elements (activeAnimations i') = ["animation_walk"] /\
    allAnimations i' !! "animation_run" = Some 1 /\
    actions i' !! 1 = Some act /\ act_playing act = true.
Proof.
  eexists _, _. split; [vm_compute; reflexivity|].
  repeat split; vm_compute; reflexivity.
Qed.

(** An [animations] object without keys is truthy and has no [length]: the
    loop runs, nothing recorded is left to stop, and what the load callback
    started goes on playing. *)
Example update_with_empty_object :
  exists i' act,
    Mesh.update (rt := runtime_model)
      (VObj [("gltf2", VStr "a.gltf"); ("animations", VObj [])]) loaded_instance
      = Return true i' /\
    activeAnimations i' = ∅ /\
    actions i' !! 0 = Some act /\ act_playing act = true.
Proof.
  eexists _, _. split; [vm_compute; reflexivity|].
  repeat split; vm_compute; reflexivity.
Qed.

(** A [syncWith] that cannot be made a property name: an object that hides
    the [toString] it inherits.  [update] has given "animation_walk" its
    three settings when the lookup [this.allAnimations[params.syncWith]]
    throws; [activeAnimations] is not written. *)
Example update_throws_on_unconvertible_sync :
  syncable (rt := runtime_model) unconvertible_definition = false /\
  exists i' act,
    Mesh.update (rt := runtime_model) unconvertible_definition loaded_instance
      = Throws TypeError i' /\
    activeAnimations i' = activeAnimations loaded_instance /\
    actions i' !! 0 = Some act /\
    act_fade act = Some (VNum 0) /\ act_weight act = VNum 1.
Proof.
  split; [reflexivity|].
  eexists _, _. split; [vm_compute; reflexivity|].
  repeat split; vm_compute; reflexivity.
Qed.

Lemma load_failure_is_silent_witness :
  instances (GLTF2.step (rt := runtime_model) pending_world (LoadFails 0))
    = instances pending_world /\
  effects (GLTF2.step (rt := runtime_model) pending_world (LoadFails 0))
    = [ConsoleError "failed to load GLTF" "a.gltf"].
Proof.
  destruct (proj1 (load_failure_is_silent (rt := runtime_model)) pending_world 0
              {| req_inst := 0; req_url := "a.gltf"; req_pending := true |}
              (Mesh.fresh "a.gltf" 0 gltf2_definition)
              eq_refl eq_refl eq_refl) as (Hi & He & _).
  split; [exact Hi|exact He].
Defined.

Lemma dispose_idempotent_witness :
  Mesh.dispose 0 pending_world = pending_world /\
  Mesh.dispose 0 (Mesh.dispose 0 gltf2_world) = Mesh.dispose 0 gltf2_world.
Proof.
  split.
  - exact (proj1 (dispose_idempotent 0 pending_world) eq_refl).
  - exact (proj1 (proj2 (proj2 (dispose_idempotent 0 gltf2_world)))).
Defined.

(** * Further properties *)

(** ** What [update] computes and keeps *)

Section Static.
Context {rt : Runtime}.

Lemma stopLeftover_static keys :
  forall i, same_static i (Mesh.stopLeftover keys i).
Proof.
  induction keys as [|k keys IH]; intros i; [apply same_static_refl|].
  simpl. eapply same_static_trans; [|apply IH].
  destruct (allAnimations i !! k); [apply on_action_static|apply same_static_refl].
Qed.

Lemma stopAllAction_static m i : same_static i (stopAllAction m i).
Proof. repeat split. unfold stopAllAction. simpl. apply length_fmap. Qed.

Lemma reconcile_static definition i : same_static i (reconcile definition i).
Proof.
  unfold reconcile. destruct (nothing_requested definition).
  - destruct (mixer i); [|apply same_static_refl].
    eapply same_static_trans; [apply set_activeAnimations_static|].
    apply stopAllAction_static.
  - eapply same_static_trans; [apply after_all_static|].
    eapply same_static_trans; [apply stopLeftover_static|].
    apply set_activeAnimations_static.
Qed.

Lemma update_final definition i :
  consistent i ->
  final (Mesh.update definition i) = i \/
  (Mesh.update definition i = Return true (reconcile definition i) /\
   nullish definition = false /\
   urlOf (get definition "gltf2") = inr (url i) /\
   throws_in definition i = None) \/
  (exists e i',
      Mesh.update definition i = Throws e i' /\
      throws_in definition i = Some e /\
      halfway (entries (get definition "animations")).*1 i i').
Proof.
  intros Hi. unfold Mesh.update.
  destruct (nullish definition); [by left|].
  destruct (urlOf _) as [e|u]; [by left|].
  case_bool_decide as Hu; [by left|]. right.
  pose proof (updateAnimation_cases definition i Hi) as Hup.
  destruct (throws_in definition i) as [e|].
  - right. destruct Hup as (i' & -> & Hhalf). by exists e, i'.
  - left. rewrite Hup. simpl. split; [done|]. split; [done|]. split; [|done].
    f_equal. by destruct (decide (u = url i)).
Qed.

Lemma update_static definition i :
  consistent i -> same_static i (final (Mesh.update definition i)).
Proof.
  intros Hi.
  destruct (update_final definition i Hi)
    as [->|[[-> _]|(e & i' & -> & _ & _ & _ & Hst & _)]].
  - apply same_static_refl.
  - apply reconcile_static.
  - exact Hst.
Qed.

(** What [update] does to an action that no requested key names. *)
Lemma update_spares definition i a act :
  consistent i ->
  actions i !! a = Some act ->
  (nothing_requested definition = false ->
   forall key,
     key ∈ (entries (get definition "animations")).*1 ->
     allAnimations i !! Mesh.animName key ≠ Some a) ->
  actions (final (Mesh.update definition i)) !! a = Some act \/
  actions (final (Mesh.update definition i)) !! a = Some (with_playing false act).
Proof.
  intros Hc Hact Hno.
  destruct (update_final definition i Hc)
    as [->|[(-> & _)|(e & i' & -> & Hthrows & _ & _ & _ & Hspare)]]; [by left| |].
  - simpl. unfold reconcile.
    destruct (nothing_requested definition) eqn:Hn.
    + destruct (mixer i); [|by left].
      rewrite stopAllAction_lookup. simpl. rewrite Hact. simpl.
      case_decide; [by right|by left].
    + destruct (after_all_spec (get definition "animations")
                  (entries (get definition "animations")).*1 i Hc)
        as (_ & _ & _ & _ & Hacts).
      destruct (Hacts _ _ Hact) as [_ H2]. simpl.
      apply stopLeftover_cases. apply H2. by apply Hno.
  - simpl. left. apply Hspare; [done|]. apply Hno.
    unfold throws_in in Hthrows. by destruct (nothing_requested definition).
Qed.

End Static.

(** ** Invariants of every instance *)

Section Invariants.
Context {rt : Runtime}.

Lemma gltf2_run_forall (P : MeshInstance -> Prop) :
  (forall u p d, P (Mesh.fresh u p d)) ->
  (forall g i i', sound i -> P i -> GLTF2.loaded g i = Return () i' -> P i') ->
  (forall d i, sound i -> P i -> P (final (Mesh.update d i))) ->
  (forall t dt i, P i -> P (Mesh.frame t dt i)) ->
  (forall i, P i -> P (set_scene None i)) ->
  forall ops, Forall P (instances (GLTF2.run ops)).
Proof.
  intros Hfresh Hload Hupdate Hframe Hscene.
  induction ops as [|o ops IH] using rev_ind; [by constructor|].
  pose proof (gltf2_run_sound ops) as Hs. pose proof (run_cold ops) as Hc.
  unfold GLTF2.run in *. rewrite foldl_app. simpl.
  set (w := foldl GLTF2.step init ops) in *.
  destruct o as [d p|r g|r|i d|i t dt|i|]; simpl.
  - rewrite constructor_cold by done.
    destruct (constructs_cases "gltf2" true d p w) as [->|(u & Hu & ->)]; [done|]. simpl.
    apply Forall_app. split; [done|]. by apply Forall_singleton.
  - destruct (requests w !! r) as [q|]; [|done].
    destruct (req_pending q); [|done]. unfold GLTF2.onLoad. simpl.
    destruct (instances w !! req_inst q) as [inst|] eqn:Hi; [|done].
    destruct (loaded_gltf2_sound g inst) as (inst' & Hl & _);
      [by eapply Forall_lookup_1|].
    rewrite Hl. simpl. apply Forall_insert; [done|].
    eapply Hload; [| |done]; by eapply Forall_lookup_1.
  - destruct (requests w !! r) as [q|]; [|done].
    destruct (req_pending q); [|done]. unfold Mesh.onError. simpl.
    by destruct (instances w !! req_inst q).
  - unfold on_instance. destruct (instances w !! i) as [inst|] eqn:Hi; [|done].
    assert (P (final (Mesh.update d inst))) as HP
      by (apply Hupdate; by eapply Forall_lookup_1).
    destruct (Mesh.update d inst); simpl in *; by apply Forall_insert.
  - destruct (instances w !! i) as [inst|] eqn:Hi; [|done]. simpl.
    apply Forall_insert; [done|]. apply Hframe. by eapply Forall_lookup_1.
  - by apply dispose_instances.
  - by rewrite tick_instances.
Qed.

Lemma fbx_run_forall (P : MeshInstance -> Prop) :
  (forall u p d, P (Mesh.fresh u p d)) ->
  (forall g i, bare i -> P i -> P (final (FBX.loaded g i))) ->
  (forall d i, bare i -> P i -> P (final (Mesh.update d i))) ->
  (forall t dt i, P i -> P (Mesh.frame t dt i)) ->
  (forall i, P i -> P (set_scene None i)) ->
  forall ops, Forall P (instances (FBX.run ops)).
Proof.
  intros Hfresh Hload Hupdate Hframe Hscene.
  induction ops as [|o ops IH] using rev_ind; [by constructor|].
  pose proof (fbx_run_bare ops) as Hs.
  unfold FBX.run in *. rewrite foldl_app. simpl.
  set (w := foldl FBX.step init ops) in *.
  destruct o as [d p|r g|r|i d|i t dt|i|]; simpl.
  - rewrite fbx_constructor_spec.
    destruct (constructs_cases "fbx" false d p w) as [->|(u & Hu & ->)]; [done|]. simpl.
    apply Forall_app. split; [done|]. by apply Forall_singleton.
  - destruct (requests w !! r) as [q|]; [|done].
    destruct (req_pending q); [|done]. unfold FBX.onLoad. simpl.
    destruct (instances w !! req_inst q) as [inst|] eqn:Hi; [|done].
    assert (P (final (FBX.loaded g inst))) as HP
      by (apply Hload; by eapply Forall_lookup_1).
    destruct (FBX.loaded g inst); simpl in *; by apply Forall_insert.
  - destruct (requests w !! r) as [q|]; [|done].
    destruct (req_pending q); [|done]. unfold Mesh.onError. simpl.
    by destruct (instances w !! req_inst q).
  - unfold on_instance. destruct (instances w !! i) as [inst|] eqn:Hi; [|done].
    assert (P (final (Mesh.update d inst))) as HP
      by (apply Hupdate; by eapply Forall_lookup_1).
    destruct (Mesh.update d inst); simpl in *; by apply Forall_insert.
  - destruct (instances w !! i) as [inst|] eqn:Hi; [|done]. simpl.
    apply Forall_insert; [done|]. apply Hframe. by eapply Forall_lookup_1.
  - by apply dispose_instances.
  - by rewrite tick_instances.
Qed.

Lemma frame_fields t dt i :
  url (Mesh.frame t dt i) = url i /\ parent (Mesh.frame t dt i) = parent i /\
  scene (Mesh.frame t dt i) = scene i /\ mixer (Mesh.frame t dt i) = mixer i /\
  activeAnimations (Mesh.frame t dt i) = activeAnimations i /\
  allAnimations (Mesh.frame t dt i) = allAnimations i /\
  animationParams (Mesh.frame t dt i) = animationParams i /\
  actions (Mesh.frame t dt i) = actions i.
Proof.
  unfold Mesh.frame. destruct (mixer i) eqn:Hm; simpl; by rewrite ?Hm.
Qed.

Lemma loaded_fbx_fields fbx i :
  url (final (FBX.loaded fbx i)) = url i /\
  parent (final (FBX.loaded fbx i)) = parent i /\
  scene (final (FBX.loaded fbx i)) = scene i /\
  animationParams (final (FBX.loaded fbx i)) = animationParams i /\
  activeAnimations (final (FBX.loaded fbx i)) = activeAnimations i.
Proof.
  unfold FBX.loaded, clipAction. simpl.
  destruct (model_animations fbx !! 0); [|done].
  destruct (list_find _ _) as [[a act]|]; simpl;
    by destruct (truthy (get (animationParams i) "play")).
Qed.

Lemma silent_gltf2 ops : Forall silent (instances (GLTF2.run ops)).
Proof.
  apply gltf2_run_forall.
  - by intros u p d _.
  - intros g i i' [Hown _] Hi Hl Hplay.
    rewrite loaded_gltf2_spec in Hl by done. injection Hl as <-.
    simpl in *. rewrite Hplay. simpl.
    destruct (Hi Hplay) as [-> ->]. done.
  - intros d i [_ Hc] Hi.
    destruct (update_static d i Hc) as (_&_&_&_&_&Hall&Hparams&_&Hlen).
    intros Hplay. rewrite Hparams in Hplay. destruct (Hi Hplay) as [Ha Hacts].
    split; [by rewrite Hall|].
    apply length_zero_iff_nil. by rewrite Hlen, Hacts.
  - intros t dt i Hi. unfold silent.
    destruct (frame_fields t dt i) as (_&_&_&_&_& -> & -> & ->). apply Hi.
  - done.
Qed.

Lemma sceneless_fbx ops :
  Forall (fun inst => scene inst = None) (instances (FBX.run ops)).
Proof.
  apply fbx_run_forall.
  - done.
  - intros g i _ Hi. by destruct (loaded_fbx_fields g i) as (_&_& -> &_).
  - intros d i Hb Hi.
    destruct (update_static d i) as (_&_& -> &_); [|done].
    by destruct (bare_sound i Hb).
  - intros t dt i Hi. by destruct (frame_fields t dt i) as (_&_& -> &_).
  - done.
Qed.

End Invariants.

(** ** Steps of the loaders *)

Section Steps.
Context {rt : Runtime}.

Lemma run_frames_spec cbs :
  forall w,
    foldl Mesh.run_frame w cbs =
      {| stateCache := stateCache w; loadList := loadList w;
         instances := instances w; requests := requests w; frames := frames w;
         effects := effects w ++ (frame_effect (instances w) <$> cbs) |}.
Proof.
  induction cbs as [|cb cbs IH]; intros w; simpl.
  - rewrite app_nil_r. by destruct w.
  - rewrite IH. simpl. by rewrite <- app_assoc.
Qed.

Lemma tick_spec w :
  Mesh.tick w =
    {| stateCache := stateCache w; loadList := loadList w;
       instances := instances w; requests := requests w; frames := [];
       effects := effects w ++ (frame_effect (instances w) <$> frames w) |}.
Proof. unfold Mesh.tick. by rewrite run_frames_spec. Qed.

Lemma gltf2_onLoad_final k g w inst :
  instances w !! k = Some inst ->
  let w' := final (GLTF2.onLoad k g w) in
  instances w' = <[k := final (GLTF2.loaded g inst)]> (instances w) /\
  requests w' = requests w /\ effects w' = effects w /\
  frames w' =
    frames w ++
      match GLTF2.loaded g inst with
      | Return _ inst' => [AddSceneOf k (parent inst')]
      | Throws _ _ => []
      end.
Proof.
  intros Hi. unfold GLTF2.onLoad. rewrite Hi.
  destruct (GLTF2.loaded g inst); simpl; by rewrite ?app_nil_r.
Qed.

Lemma fbx_onLoad_final k g w inst :
  instances w !! k = Some inst ->
  let w' := final (FBX.onLoad k g w) in
  instances w' = <[k := final (FBX.loaded g inst)]> (instances w) /\
  requests w' = requests w /\ effects w' = effects w /\
  stateCache w' = stateCache w /\ loadList w' = loadList w /\
  frames w' =
    frames w ++
      match FBX.loaded g inst with
      | Return _ inst' => [AddNode (parent inst') (model_scene g)]
      | Throws _ _ => []
      end.
Proof.
  intros Hi. unfold FBX.onLoad. rewrite Hi.
  destruct (FBX.loaded g inst); simpl; by rewrite ?app_nil_r.
Qed.

Lemma on_instance_final {A} k (f : MeshInstance -> completion A MeshInstance) w inst :
  instances w !! k = Some inst ->
  exists c,
    on_instance k f w = Some c /\
    final c = set_instance k (final (f inst)) w.
Proof.
  intros Hi. unfold on_instance. rewrite Hi. eexists. split; [done|].
  by destruct (f inst).
Qed.

Lemma dispose_fields k w :
  requests (Mesh.dispose k w) = requests w /\
  frames (Mesh.dispose k w) = frames w /\
  loadList (Mesh.dispose k w) = loadList w /\
  (instances (Mesh.dispose k w) = instances w \/
   exists inst,
     instances w !! k = Some inst /\
     instances (Mesh.dispose k w) = <[k := set_scene None inst]> (instances w)).
Proof.
  unfold Mesh.dispose. destruct (instances w !! k) as [inst|] eqn:Hi; [|by auto].
  destruct (scene inst); [|by auto].
  destruct (RefCountCache.removeReference _ _ _). simpl.
  repeat split; try done. right. eauto.
Qed.

Lemma insert_evolves (l : list MeshInstance) k x x' i inst
    (R : MeshInstance -> MeshInstance -> Prop) :
  l !! k = Some x -> R x x' -> (forall y, R y y) ->
  l !! i = Some inst ->
  exists inst', <[k := x']> l !! i = Some inst' /\ R inst inst'.
Proof.
  intros Hk HR Hrefl Hi. destruct (decide (k = i)) as [->|Hne].
  - rewrite list_lookup_insert_eq by by eapply lookup_lt_Some.
    exists x'. split; [done|]. congruence.
  - rewrite list_lookup_insert_ne by done. eauto.
Qed.

Lemma gltf2_step_evolves w o i inst :
  cold w ->
  instances w !! i = Some inst ->
  exists inst',
    instances (GLTF2.step w o) !! i = Some inst' /\
    evolves GLTF2.loaded inst inst'.
Proof.
  intros Hc Hi.
  assert (forall y, evolves GLTF2.loaded y y) as Hrefl by constructor.
  destruct o as [d p|r g|r|k d|k t dt|k|]; simpl.
  - rewrite constructor_cold by done.
    destruct (constructs_cases "gltf2" true d p w) as [->|(u & Hu & ->)]; simpl.
    + eauto using ev_same.
    + exists inst. split; [by apply lookup_app_l_Some|constructor].
  - destruct (requests w !! r) as [q|]; [|by eauto].
    destruct (req_pending q); [|by eauto].
    destruct (instances w !! req_inst q) as [x|] eqn:Hx.
    + destruct (gltf2_onLoad_final (req_inst q) g (Mesh.settle r w) x Hx)
        as (-> & _). eapply insert_evolves; eauto. constructor.
    + unfold GLTF2.onLoad. simpl. rewrite Hx. simpl. eauto.
  - destruct (requests w !! r) as [q|]; [|by eauto].
    destruct (req_pending q); [|by eauto]. unfold Mesh.onError. simpl.
    destruct (instances w !! req_inst q); simpl; eauto.
  - destruct (instances w !! k) as [x|] eqn:Hx.
    + destruct (on_instance_final k (Mesh.update d) w x Hx) as (c & -> & ->).
      simpl. eapply insert_evolves; eauto. constructor.
    + unfold on_instance. rewrite Hx. eauto.
  - destruct (instances w !! k) as [x|] eqn:Hx; [|by eauto]. simpl.
    eapply insert_evolves; eauto. constructor.
  - destruct (dispose_fields k w) as (_ & _ & _ & [-> | (x & Hx & ->)]);
      [by eauto|].
    eapply insert_evolves; eauto. constructor.
  - rewrite tick_instances. eauto.
Qed.

Lemma fbx_step_evolves w o i inst :
  instances w !! i = Some inst ->
  exists inst',
    instances (FBX.step w o) !! i = Some inst' /\
    evolves FBX.loaded inst inst'.
Proof.
  intros Hi.
  assert (forall y, evolves FBX.loaded y y) as Hrefl by constructor.
  destruct o as [d p|r g|r|k d|k t dt|k|]; simpl.
  - rewrite fbx_constructor_spec.
    destruct (constructs_cases "fbx" false d p w) as [->|(u & Hu & ->)]; simpl.
    + eauto using ev_same.
    + exists inst. split; [by apply lookup_app_l_Some|constructor].
  - destruct (requests w !! r) as [q|]; [|by eauto].
    destruct (req_pending q); [|by eauto].
    destruct (instances w !! req_inst q) as [x|] eqn:Hx.
    + destruct (fbx_onLoad_final (req_inst q) g (Mesh.settle r w) x Hx)
        as (-> & _). eapply insert_evolves; eauto. constructor.
    + unfold FBX.onLoad. simpl. rewrite Hx. simpl. eauto.
  - destruct (requests w !! r) as [q|]; [|by eauto].
    destruct (req_pending q); [|by eauto]. unfold Mesh.onError. simpl.
    destruct (instances w !! req_inst q); simpl; eauto.
  - destruct (instances w !! k) as [x|] eqn:Hx.
    + destruct (on_instance_final k (Mesh.update d) w x Hx) as (c & -> & ->).
      simpl. eapply insert_evolves; eauto. constructor.
    + unfold on_instance. rewrite Hx. eauto.
  - destruct (instances w !! k) as [x|] eqn:Hx; [|by eauto]. simpl.
    eapply insert_evolves; eauto. constructor.
  - destruct (dispose_fields k w) as (_ & _ & _ & [-> | (x & Hx & ->)]);
      [by eauto|].
    eapply insert_evolves; eauto. constructor.
  - rewrite tick_instances. eauto.
Qed.

Lemma loaded_gltf2_fields g i :
  well_owned i ->
  url (final (GLTF2.loaded g i)) = url i /\
  parent (final (GLTF2.loaded g i)) = parent i /\
  animationParams (final (GLTF2.loaded g i)) = animationParams i /\
  activeAnimations (final (GLTF2.loaded g i)) = activeAnimations i /\
  scene (final (GLTF2.loaded g i)) = Some (model_scene g).
Proof. intros Hown. by rewrite loaded_gltf2_spec. Qed.

Lemma gltf2_evolves_identity i i' :
  sound i -> evolves GLTF2.loaded i i' -> same_identity i i'.
Proof.
  intros [Hown Hc] [|g|d|t dt|]; try done.
  - by destruct (loaded_gltf2_fields g i Hown) as (?&?&?&_).
  - by destruct (update_static d i Hc) as (?&?&_&_&_&_&?&_).
  - by destruct (frame_fields t dt i) as (?&?&_&_&_&_&?&_).
Qed.

Lemma fbx_evolves_identity i i' :
  bare i -> evolves FBX.loaded i i' -> same_identity i i'.
Proof.
  intros Hb [|g|d|t dt|]; try done.
  - by destruct (loaded_fbx_fields g i) as (?&?&_&?&_).
  - destruct (bare_sound i Hb) as [_ Hc].
    by destruct (update_static d i Hc) as (?&?&_&_&_&_&?&_).
  - by destruct (frame_fields t dt i) as (?&?&_&_&_&_&?&_).
Qed.

Lemma same_identity_trans i1 i2 i3 :
  same_identity i1 i2 -> same_identity i2 i3 -> same_identity i1 i3.
Proof. intros (?&?&?) (?&?&?). repeat split; congruence. Qed.

Lemma gltf2_run_snoc ops o : GLTF2.run (ops ++ [o]) = GLTF2.step (GLTF2.run ops) o.
Proof. unfold GLTF2.run. by rewrite foldl_app. Qed.

Lemma fbx_run_snoc ops o : FBX.run (ops ++ [o]) = FBX.step (FBX.run ops) o.
Proof. unfold FBX.run. by rewrite foldl_app. Qed.

Lemma gltf2_identity_kept ops ops' i inst :
  instances (GLTF2.run ops) !! i = Some inst ->
  exists inst',
    instances (GLTF2.run (ops ++ ops')) !! i = Some inst' /\
    same_identity inst inst'.
Proof.
  intros Hi. induction ops' as [|o ops' IH] using rev_ind.
  - rewrite app_nil_r. by exists inst.
  - destruct IH as (x & Hx & Hid). rewrite app_assoc, gltf2_run_snoc.
    destruct (gltf2_step_evolves _ o i x (run_cold _) Hx) as (x' & Hx' & Hev).
    exists x'. split; [done|]. eapply same_identity_trans; [done|].
    apply gltf2_evolves_identity; [|done].
    by eapply Forall_lookup_1; [apply gltf2_run_sound|].
Qed.

Lemma fbx_identity_kept ops ops' i inst :
  instances (FBX.run ops) !! i = Some inst ->
  exists inst',
    instances (FBX.run (ops ++ ops')) !! i = Some inst' /\
    same_identity inst inst'.
Proof.
  intros Hi. induction ops' as [|o ops' IH] using rev_ind.
  - rewrite app_nil_r. by exists inst.
  - destruct IH as (x & Hx & Hid). rewrite app_assoc, fbx_run_snoc.
    destruct (fbx_step_evolves _ o i x Hx) as (x' & Hx' & Hev).
    exists x'. split; [done|]. eapply same_identity_trans; [done|].
    apply fbx_evolves_identity; [|done].
    by eapply Forall_lookup_1; [apply fbx_run_bare|].
Qed.

End Steps.

(** ** Requests and instances go by pairs *)

Section Linked.
Context {rt : Runtime}.

Lemma unloaded_fresh u p d : unloaded (Mesh.fresh u p d).
Proof. by repeat split. Qed.

Lemma unloaded_consistent i : unloaded i -> consistent i.
Proof.
  intros (_&_&_&_&Hall). repeat split.
  - intros name a. by rewrite Hall, lookup_empty.
  - intros n1 n2 a. by rewrite Hall, lookup_empty.
  - intros name a act _. by rewrite Hall, lookup_empty.
Qed.

Lemma update_unloaded d i : unloaded i -> unloaded (final (Mesh.update d i)).
Proof.
  intros Hu. pose proof (unloaded_consistent i Hu) as Hc.
  destruct Hu as (Hs & Hm & Hms & Ha & Hall). unfold unloaded.
  destruct (update_static d i Hc) as (_&_& -> & -> &_& -> &_& -> & Hlen).
  repeat split; try done. apply length_zero_iff_nil. by rewrite Hlen, Ha.
Qed.

Lemma frame_unloaded t dt i : unloaded i -> Mesh.frame t dt i = i.
Proof. intros (_ & Hm & _). unfold Mesh.frame. by rewrite Hm. Qed.

Lemma linked_loading u p d w : linked w -> linked (loading u p d w).
Proof.
  intros [Hlen Hw]. split; [simpl; rewrite !length_app; simpl; lia|].
  intros r q. simpl. intros Hq.
  apply lookup_app_Some in Hq as [Hq|[Hge Hq]].
  - destruct (Hw r q Hq) as (Hr & inst & Hi & Hu).
    split; [done|]. exists inst. split; [by apply lookup_app_l_Some|done].
  - apply list_lookup_singleton_Some in Hq as [Hr <-]. simpl.
    split; [lia|]. exists (Mesh.fresh u p d).
    split; [|split; [done|intros _; apply unloaded_fresh]].
    rewrite lookup_app_r by lia.
    by replace (r - length (instances w)) with 0 by lia.
Qed.

Lemma linked_insert w w' k x x' :
  linked w ->
  instances w !! k = Some x ->
  url x' = url x -> (unloaded x -> unloaded x') ->
  requests w' = requests w ->
  instances w' = <[k := x']> (instances w) ->
  linked w'.
Proof.
  intros [Hlen Hw] Hk Hurl Hun Hreq Hinst. split.
  - by rewrite Hreq, Hinst, length_insert.
  - intros r q. rewrite Hreq, Hinst. intros Hq.
    destruct (Hw r q Hq) as (Hr & inst & Hi & Hu & Hp). split; [done|].
    destruct (decide (k = r)) as [->|Hne].
    + rewrite list_lookup_insert_eq by by eapply lookup_lt_Some.
      exists x'. assert (inst = x) as -> by congruence.
      split; [done|]. split; [congruence|auto].
    + rewrite list_lookup_insert_ne by done. eauto.
Qed.

Lemma linked_settle w w' r q :
  linked w ->
  requests w !! r = Some q ->
  requests w' = requests (Mesh.settle r w) ->
  (instances w' = instances w \/
   exists x x',
     instances w !! r = Some x /\ url x' = url x /\
     instances w' = <[r := x']> (instances w)) ->
  linked w'.
Proof.
  intros [Hlen Hw] Hr Hreq Hinst.
  assert (length (instances w') = length (instances w)) as Hlen'.
  { destruct Hinst as [->|(x & x' & _ & _ & ->)]; [done|apply length_insert]. }
  split; [rewrite Hreq, Hlen'; simpl; by rewrite length_alter|].
  intros r0 q0. rewrite Hreq. simpl. intros Hq0.
  destruct (decide (r = r0)) as [<-|Hne].
  - rewrite list_lookup_alter_eq, Hr in Hq0. simpl in Hq0. injection Hq0 as <-.
    simpl. destruct (Hw r q Hr) as (Hi & inst & Hx & Hu & _). split; [done|].
    destruct Hinst as [->|(x & x' & Hx' & Hurl & ->)].
    + exists inst. by split.
    + rewrite list_lookup_insert_eq by by eapply lookup_lt_Some.
      exists x'. split; [done|]. split; [congruence|done].
  - rewrite list_lookup_alter_ne in Hq0 by done.
    destruct (Hw r0 q0 Hq0) as (Hi & inst & Hx & Hu). split; [done|].
    destruct Hinst as [->|(x & x' & Hx' & Hurl & ->)]; [by eauto|].
    rewrite list_lookup_insert_ne by done. eauto.
Qed.

Lemma linked_ext w w' :
  requests w' = requests w -> instances w' = instances w ->
  linked w -> linked w'.
Proof. intros Hr Hi. unfold linked. by rewrite Hr, Hi. Qed.

Lemma linked_dispose k w : linked w -> linked (Mesh.dispose k w).
Proof.
  intros Hw.
  destruct (dispose_fields k w) as (Hr & _ & _ & [Hi | (x & Hx & Hi)]).
  - by eapply linked_ext.
  - eapply linked_insert; [done|done| | |done|done]; [done|].
    intros (?&?&?&?&?). by repeat split.
Qed.

Lemma linked_update k d w x :
  instances w !! k = Some x -> consistent x ->
  linked w -> linked (set_instance k (final (Mesh.update d x)) w).
Proof.
  intros Hx Hc Hw. eapply linked_insert; [done|done| | |done|done].
  - by destruct (update_static d x Hc) as (?&_).
  - apply update_unloaded.
Qed.

Lemma linked_frame k t dt w x :
  instances w !! k = Some x ->
  linked w -> linked (set_instance k (Mesh.frame t dt x) w).
Proof.
  intros Hx Hw. eapply linked_insert; [done|done| | |done|done].
  - by destruct (frame_fields t dt x) as (?&_).
  - intros Hu. by rewrite frame_unloaded.
Qed.

Lemma linked_failed msg r q w :
  linked w -> requests w !! r = Some q ->
  linked (Mesh.onError msg (req_inst q) (Mesh.settle r w)).
Proof.
  intros Hw Hr. eapply linked_settle; [done|done| |left].
  - unfold Mesh.onError. simpl. by destruct (instances w !! req_inst q).
  - unfold Mesh.onError. simpl. by destruct (instances w !! req_inst q).
Qed.

Lemma gltf2_run_linked ops : linked (GLTF2.run ops).
Proof.
  induction ops as [|o ops IH] using rev_ind.
  { split; [done|]. intros r q Hq. cbn in Hq. by rewrite lookup_nil in Hq. }
  rewrite gltf2_run_snoc.
  pose proof (gltf2_run_sound ops) as Hs. pose proof (run_cold ops) as Hc.
  set (w := GLTF2.run ops) in *.
  destruct o as [d p|r g|r|k d|k t dt|k|]; simpl.
  - rewrite constructor_cold by done.
    destruct (constructs_cases "gltf2" true d p w) as [->|(u & Hu & ->)]; [done|].
    by apply linked_loading.
  - destruct (requests w !! r) as [q|] eqn:Hr; [|done].
    destruct (req_pending q); [|done].
    destruct IH as [Hlen Hw]. destruct (Hw r q Hr) as (Hi & x & Hx & Hu & _).
    rewrite Hi.
    destruct (gltf2_onLoad_final r g (Mesh.settle r w) x Hx) as (Hinst & Hreq & _).
    eapply linked_settle; [by split|done|done|]. right.
    exists x, (final (GLTF2.loaded g x)). split; [done|]. split; [|done].
    destruct (Forall_lookup_1 _ _ _ _ Hs Hx) as [Hown _].
    by destruct (loaded_gltf2_fields g x Hown) as (?&_).
  - destruct (requests w !! r) as [q|] eqn:Hr; [|done].
    destruct (req_pending q); [|done]. by apply linked_failed.
  - destruct (instances w !! k) as [x|] eqn:Hx.
    + destruct (on_instance_final k (Mesh.update d) w x Hx) as (c & -> & ->).
      apply linked_update; [done| |done].
      by destruct (Forall_lookup_1 _ _ _ _ Hs Hx).
    + unfold on_instance. by rewrite Hx.
  - destruct (instances w !! k) as [x|] eqn:Hx; [|done].
    by apply linked_frame.
  - by apply linked_dispose.
  - eapply linked_ext; [| |done]; by rewrite tick_spec.
Qed.

Lemma fbx_run_linked ops : linked (FBX.run ops).
Proof.
  induction ops as [|o ops IH] using rev_ind.
  { split; [done|]. intros r q Hq. cbn in Hq. by rewrite lookup_nil in Hq. }
  rewrite fbx_run_snoc.
  pose proof (fbx_run_bare ops) as Hs.
  set (w := FBX.run ops) in *.
  destruct o as [d p|r g|r|k d|k t dt|k|]; simpl.
  - rewrite fbx_constructor_spec.
    destruct (constructs_cases "fbx" false d p w) as [->|(u & Hu & ->)]; [done|].
    by apply linked_loading.
  - destruct (requests w !! r) as [q|] eqn:Hr; [|done].
    destruct (req_pending q); [|done].
    destruct IH as [Hlen Hw]. destruct (Hw r q Hr) as (Hi & x & Hx & Hu & _).
    rewrite Hi.
    destruct (fbx_onLoad_final r g (Mesh.settle r w) x Hx) as (Hinst & Hreq & _).
    eapply linked_settle; [by split|done|done|]. right.
    exists x, (final (FBX.loaded g x)). split; [done|]. split; [|done].
    by destruct (loaded_fbx_fields g x) as (?&_).
  - destruct (requests w !! r) as [q|] eqn:Hr; [|done].
    destruct (req_pending q); [|done]. by apply linked_failed.
  - destruct (instances w !! k) as [x|] eqn:Hx.
    + destruct (on_instance_final k (Mesh.update d) w x Hx) as (c & -> & ->).
      apply linked_update; [done| |done].
      by destruct (bare_sound x (Forall_lookup_1 _ _ _ _ Hs Hx)).
    + unfold on_instance. by rewrite Hx.
  - destruct (instances w !! k) as [x|] eqn:Hx; [|done].
    by apply linked_frame.
  - by apply linked_dispose.
  - eapply linked_ext; [| |done]; by rewrite tick_spec.
Qed.

Lemma fbx_dispose_noop ops k : Mesh.dispose k (FBX.run ops) = FBX.run ops.
Proof.
  apply dispose_no_scene. unfold scene_of.
  destruct (instances (FBX.run ops) !! k) as [x|] eqn:Hx; [|done].
  simpl. by apply (Forall_lookup_1 _ _ _ _ (sceneless_fbx ops) Hx).
Qed.

Lemma fbx_run_effects ops :
  Forall (fun e => detaches e = false) (effects (FBX.run ops)).
Proof.
  induction ops as [|o ops IH] using rev_ind; [by constructor|].
  rewrite fbx_run_snoc.
  pose proof (fbx_dispose_noop ops) as Hd.
  set (w := FBX.run ops) in *.
  destruct o as [d p|r g|r|k d|k t dt|k|]; simpl.
  - rewrite fbx_constructor_spec.
    by destruct (constructs_cases "fbx" false d p w) as [->|(u & Hu & ->)].
  - destruct (requests w !! r) as [q|] eqn:Hr; [|done].
    destruct (req_pending q); [|done]. unfold FBX.onLoad. simpl.
    destruct (instances w !! req_inst q); [|done].
    by destruct (FBX.loaded g m).
  - destruct (requests w !! r) as [q|] eqn:Hr; [|done].
    destruct (req_pending q); [|done]. unfold Mesh.onError. simpl.
    destruct (instances w !! req_inst q); [|done]. simpl.
    apply Forall_app. split; [done|]. by apply Forall_singleton.
  - unfold on_instance. destruct (instances w !! k); [|done].
    by destruct (Mesh.update d m).
  - by destruct (instances w !! k).
  - by rewrite Hd.
  - rewrite tick_spec. simpl. apply Forall_app. split; [done|].
    apply Forall_fmap, Forall_forall. by intros [??|??] _.
Qed.

End Linked.

(** ** More on reconciliation *)

Section Reconcile2.
Context {rt : Runtime}.

Lemma settled_idem all animations key act :
  settled all animations key (settled all animations key act)
    = settled all animations key act.
Proof.
  unfold settled. rewrite adjusted_with_playing, adjusted_idem.
  by destruct (adjusted _ _ _ _).
Qed.

Lemma reconcile_lookup definition i a act :
  consistent i ->
  nothing_requested definition = false ->
  actions i !! a = Some act ->
  let animations := get definition "animations" in
  (forall key,
      key ∈ (entries animations).*1 ->
      allAnimations i !! Mesh.animName key = Some a ->
      actions (reconcile definition i) !! a
        = Some (settled (allAnimations i) animations key act)) /\
  ((forall key,
       key ∈ (entries animations).*1 ->
       allAnimations i !! Mesh.animName key ≠ Some a) ->
   actions (reconcile definition i) !! a = Some act \/
   actions (reconcile definition i) !! a = Some (with_playing false act)).
Proof.
  intros Hi Hn Hact animations. unfold reconcile. rewrite Hn. fold animations.
  set (keys := (entries animations).*1).
  destruct (after_all_spec animations keys i Hi)
    as (Hc1 & Hall1 & Hactive1 & Hm1 & Hacts1).
  set (i1 := after_all animations keys i) in *.
  set (left := elements (activeAnimations i1)).
  destruct Hi as (Hcall & Hdist & Hplay).
  destruct (Hacts1 _ _ Hact) as [H1 H2]. simpl. split.
  - intros key Hkey Ha. specialize (H1 key Hkey Ha).
    destruct (stopLeftover_spec left _ _ _ H1) as [_ H3]. apply H3.
    intros name Hname. rewrite Hall1. intros Ha'.
    apply elem_of_elements in Hname. rewrite Hactive1 in Hname.
    apply elem_of_difference in Hname as [_ Hnot]. apply Hnot.
    rewrite (Hdist _ _ _ Ha' Ha). apply elem_of_list_to_set.
    by apply list_elem_of_fmap_2.
  - intros Hno. specialize (H2 Hno).
    by apply stopLeftover_cases.
Qed.

Lemma after_all_fixed animations keys i :
  consistent i ->
  (forall key a act,
      key ∈ keys -> allAnimations i !! Mesh.animName key = Some a ->
      actions i !! a = Some act ->
      settled (allAnimations i) animations key act = act) ->
  actions (after_all animations keys i) = actions i.
Proof.
  intros Hi Hfix.
  destruct (after_all_spec animations keys i Hi) as (_ & _ & _ & _ & Hacts).
  destruct (after_all_static animations keys i) as (_&_&_&_&_&_&_&_&Hlen).
  apply list_eq. intros a.
  destruct (actions i !! a) as [act|] eqn:Hact.
  - destruct (Hacts _ _ Hact) as [H1 H2].
    destruct (decide (Exists (fun key => allAnimations i !! Mesh.animName key = Some a) keys))
      as [He|He].
    + apply Exists_exists in He as (key & Hkey & Ha).
      rewrite (H1 key Hkey Ha). f_equal. by eapply Hfix.
    + apply H2. intros key Hkey Ha. apply He, Exists_exists. eauto.
  - apply lookup_ge_None. rewrite Hlen. by apply lookup_ge_None.
Qed.

Lemma instance_eq i i' :
  same_static i i' -> activeAnimations i' = activeAnimations i ->
  actions i' = actions i -> i' = i.
Proof.
  destruct i, i'. unfold same_static. simpl.
  intros (?&?&?&?&?&?&?&?&_) ? ?. by subst.
Qed.

Lemma stopAllAction_idem m i :
  stopAllAction m (set_activeAnimations ∅ (stopAllAction m (set_activeAnimations ∅ i)))
    = stopAllAction m (set_activeAnimations ∅ i).
Proof.
  destruct i. unfold stopAllAction, set_actions, set_activeAnimations. simpl.
  f_equal. rewrite <- list_fmap_compose.
  apply list_fmap_ext. intros _ act _. simpl.
  destruct (decide (act_mixer act = m)) as [Hm|Hm]; simpl.
  - by rewrite decide_True.
  - by rewrite decide_False.
Qed.

Lemma reconcile_idem definition i :
  consistent i ->
  reconcile definition (reconcile definition i) = reconcile definition i.
Proof.
  intros Hi.
  pose proof (reconcile_spec definition i Hi) as Hspec. cbv zeta in Hspec.
  destruct Hspec as (Hc' & _).
  destruct (nothing_requested definition) eqn:Hn.
  - unfold reconcile. rewrite Hn.
    destruct (mixer i) as [m|] eqn:Hm; [|by rewrite Hm].
    replace (mixer (stopAllAction m (set_activeAnimations ∅ i))) with (Some m)
      by done.
    apply stopAllAction_idem.
  - set (i' := reconcile definition i) in *.
    set (animations := get definition "animations").
    set (keys := (entries animations).*1).
    pose proof (reconcile_static definition i) as Hst. fold i' in Hst.
    assert (activeAnimations i' = requested animations) as Hact'.
    { unfold i', reconcile. by rewrite Hn. }
    assert (actions (after_all animations keys i') = actions i') as Hfix.
    { apply after_all_fixed; [done|]. intros key a act' Hkey Ha Hact'0.
      destruct Hst as (_&_&_&_&_&Hall&_&_&Hlen). rewrite Hall in Ha |- *.
      destruct (actions i !! a) as [act|] eqn:Hact.
      2:{ apply lookup_ge_None in Hact. apply lookup_lt_Some in Hact'0. lia. }
      destruct (reconcile_lookup definition i a act Hi Hn Hact) as [H1 _].
      fold i' animations keys in H1. rewrite (H1 key Hkey Ha) in Hact'0.
      injection Hact'0 as <-. apply settled_idem. }
    destruct (after_all_spec animations keys i' Hc') as (_ & _ & Hactive1 & _).
    pose proof (after_all_static animations keys i') as Hst1.
    set (i1 := after_all animations keys i') in *.
    assert (activeAnimations i1 = ∅) as Hempty.
    { rewrite Hactive1, Hact'. unfold requested. fold keys. set_solver. }
    unfold reconcile at 1. rewrite Hn. fold animations keys i1.
    rewrite Hempty, elements_empty. simpl.
    apply instance_eq; [|done|done].
    eapply same_static_trans; [apply Hst1|]. apply set_activeAnimations_static.
Qed.

Lemma after_all_without animations keys :
  forall i,
    allAnimations i = ∅ ->
    after_all animations keys i =
      set_activeAnimations
        (activeAnimations i ∖ list_to_set (Mesh.animName <$> keys)) i.
Proof.
  induction keys as [|k keys IH]; intros i Hall; simpl.
  - rewrite difference_empty_L. by destruct i.
  - assert (after_turn animations k i =
              set_activeAnimations (activeAnimations i ∖ {[Mesh.animName k]}) i)
      as ->.
    { unfold after_turn. by rewrite Hall, lookup_empty. }
    rewrite IH by done. destruct i. unfold set_activeAnimations. simpl.
    f_equal. set_solver.
Qed.

Lemma stopLeftover_without keys :
  forall i, allAnimations i = ∅ -> Mesh.stopLeftover keys i = i.
Proof.
  induction keys as [|k keys IH]; intros i Hall; [done|].
  simpl. rewrite Hall, lookup_empty. by apply IH.
Qed.

Lemma reconcile_without definition i :
  allAnimations i = ∅ -> mixer i = None ->
  reconcile definition i =
    if nothing_requested definition then i
    else set_activeAnimations (requested (get definition "animations")) i.
Proof.
  intros Hall Hm. unfold reconcile. rewrite Hm.
  destruct (nothing_requested definition); [done|].
  rewrite after_all_without by done.
  by rewrite stopLeftover_without.
Qed.

Lemma registered_other names :
  forall base all name,
    name ∉ names -> registered base names all !! name = all !! name.
Proof.
  induction names as [|n names IH]; intros base all name Hn; [done|].
  simpl. apply not_elem_of_cons in Hn as [Hne Hn].
  rewrite IH by done. by apply lookup_insert_ne.
Qed.

Lemma registered_last names :
  forall base all name k,
    names !! k = Some name ->
    (forall k', k < k' -> names !! k' ≠ Some name) ->
    registered base names all !! name = Some (base + k).
Proof.
  induction names as [|n names IH]; intros base all name k Hk Hlast; [done|].
  simpl. destruct k as [|k]; simpl in Hk.
  - injection Hk as ->. rewrite registered_other.
    + rewrite lookup_insert_eq. f_equal. lia.
    + intros Hin. apply list_elem_of_lookup_1 in Hin as [k' Hk'].
      apply (Hlast (S k')); [lia|done].
  - rewrite (IH (S base) _ name k Hk).
    + f_equal. lia.
    + intros k' Hlt. apply (Hlast (S k')). lia.
Qed.

End Reconcile2.

(** ** Reference counts and the load list *)

Section Caches.
Context {rt : Runtime}.

(** C2 (as the code has it): nothing ever puts an entry into the cache of
    either loader.  In every state a loader can reach, so before and after
    every constructor call and every [dispose], no URL has a cache entry and
    every count is zero.  [dispose] of a GLTF2 instance with an attached
    scene calls [removeReference] for the URL of the instance, which finds
    no entry: no count changes and nothing is disposed, and the scene is
    taken off the instance and off its parent.  An FBX instance never has an
    attached scene: its [dispose] changes nothing. *)
Theorem reference_counting :
  forall (ops : list Op),
    (forall u,
        RefCountCache.has (stateCache (GLTF2.run ops)) u = false /\
        RefCountCache.refs (stateCache (GLTF2.run ops)) u = 0) /\
    (forall u,
        RefCountCache.has (stateCache (FBX.run ops)) u = false /\
        RefCountCache.refs (stateCache (FBX.run ops)) u = 0) /\
    (forall i inst s,
        instances (GLTF2.run ops) !! i = Some inst -> scene inst = Some s ->
        RefCountCache.removeReference cleanup
            (stateCache (GLTF2.run ops)) (url inst)
          = (stateCache (GLTF2.run ops), []) /\
        Mesh.dispose i (GLTF2.run ops) = detached i inst s (GLTF2.run ops)) /\
    (forall i, Mesh.dispose i (FBX.run ops) = FBX.run ops).
Proof.
  intros ops.
  split; [|split; [|split]].
  - intros u. by destruct (cold_counts (GLTF2.run ops) u (run_cold ops)) as (? & _ & ?).
  - intros u. by destruct (cold_counts (FBX.run ops) u (fbx_run_cold ops)) as (? & _ & ?).
  - intros i inst s Hi Hs. by apply dispose_cold_spec; [apply run_cold|..].
  - apply fbx_dispose_noop.
Qed.

(** X13: whatever the program did with the GLTF2 loader so far (creating
    instances, loads arriving or failing, updates, frames, disposals,
    display refreshes), the cache has no entry and the load list no property
    of its own.  So the tests guarding the cache-hit branch and the
    [addReference] call are false for every URL, a load callback leaves the
    cache empty, and a constructor call either throws, leaving the loader as
    it was (on a definition that is [null] or [undefined], when [extractURL]
    throws, or for a URL that is the name of a member of
    [Object.prototype]), or creates one instance and issues one
    [loader.load] request for it. *)
Theorem gltf2_cache_stays_empty :
  forall (ops : list Op),
    let w := GLTF2.run ops in
    stateCache w = ∅ /\ loadList w = ∅ /\
    (forall u, RefCountCache.has (stateCache w) u = false
               /\ RefCountCache.get (stateCache w) u = None
               /\ loadList w !! u = None) /\
    (forall i gltf, stateCache (final (GLTF2.onLoad i gltf w)) = ∅) /\
    (forall definition parent,
        GLTF2.constructor definition parent w =
          constructs "gltf2" true definition parent w).
Proof.
  intros ops w. pose proof (run_cold ops) as Hw. fold w in Hw.
  destruct (Hw) as [Hc Hl].
  split; [done|]. split; [done|]. split; [|split].
  - intros u. destruct (cold_counts w u Hw) as (? & ? & _).
    by rewrite Hl, lookup_empty.
  - intros i gltf. by apply onLoad_cold.
  - intros definition parent. by apply constructor_cold.
Qed.

End Caches.

Lemma reference_counting_witness :
  Mesh.dispose 0 gltf2_world = detached 0 loaded_instance sample_scene gltf2_world.
Proof.
  refine (proj2 (proj1 (proj2 (proj2 (reference_counting (rt := runtime_model)
                                        gltf2_ops)))
                   0 loaded_instance sample_scene _ _)).
  - vm_compute. reflexivity.
  - vm_compute. reflexivity.
Defined.

(** C2 as worded fails: the GLTF2 instance whose model has arrived has an
    attached scene, the count of its URL is zero, and [dispose] leaves it
    there. *)
Lemma dispose_leaves_count : ¬ dispose_decrements gltf2_world 0.
Proof.
  intros H.
  assert (RefCountCache.refs (stateCache gltf2_world) (url loaded_instance)
            = S (RefCountCache.refs (stateCache (Mesh.dispose 0 gltf2_world))
                   (url loaded_instance))) as H'.
  { apply (H loaded_instance sample_scene); vm_compute; reflexivity. }
  vm_compute in H'. discriminate.
Qed.

(** C4: a URL that is the name of a member of [Object.prototype] takes the
    pending-download branch, in every state of the GLTF2 loader.  The
    definition passes [canLoad]; the load list has no property of its own,
    no download having ever been registered; yet [loadList[this.url]] finds
    the inherited [constructor], the branch for a download in progress is
    entered, [push] is not a function of what was found, and the constructor
    throws: no instance is created and no load is started.  The FBX
    constructor, which does not read its load list, starts the load for the
    same URL. *)
Theorem gltf2_prototype_url_not_loaded :
  forall (ops : list Op) (parent : nat),
    let w := GLTF2.run (rt := runtime_model) ops in
    canLoad "gltf2" prototype_definition = Return (VBool true) () /\
    loadList w = ∅ /\
    read (loadList w) "constructor" = Member "constructor" /\
    GLTF2.constructor (rt := runtime_model) prototype_definition parent w
      = Throws TypeError w /\
    GLTF2.step (rt := runtime_model) w (CreateInstance prototype_definition parent)
      = w /\
    FBX.constructor (rt := runtime_model) fbx_prototype_definition parent
        (FBX.run (rt := runtime_model) ops)
      = Return (length (instances (FBX.run (rt := runtime_model) ops)))
          (loading "constructor" parent fbx_prototype_definition
             (FBX.run (rt := runtime_model) ops)).
Proof.
  intros ops parent w.
  pose proof (run_cold (rt := runtime_model) ops) as Hw. fold w in Hw.
  assert (GLTF2.constructor (rt := runtime_model) prototype_definition parent w
            = Throws TypeError w) as Hthrow.
  { by rewrite constructor_cold by done. }
  destruct (Hw) as [_ Hl].
  split; [reflexivity|]. split; [done|]. split.
  - by rewrite Hl, read_empty.
  - split; [done|]. split; [simpl; by rewrite Hthrow|].
    by rewrite fbx_constructor_spec.
Qed.

(** ** Properties of the loaders beyond the specification *)

Section Extras.
Context {rt : Runtime}.

(** X1: what the constructor puts in [url], [parent] and [animationParams]
    stays for good: whatever happens to either loader afterwards (loads,
    updates, frames, disposals, refreshes), the instance is still there with
    the same three fields.  In particular [update] never replaces the
    parameters the load callback will read. *)
Theorem identity_never_changes :
  forall (ops ops' : list Op) (i : nat) (inst : MeshInstance),
    (instances (GLTF2.run ops) !! i = Some inst ->
     exists inst',
       instances (GLTF2.run (ops ++ ops')) !! i = Some inst' /\
       url inst' = url inst /\ parent inst' = parent inst /\
       animationParams inst' = animationParams inst) /\
    (instances (FBX.run ops) !! i = Some inst ->
     exists inst',
       instances (FBX.run (ops ++ ops')) !! i = Some inst' /\
       url inst' = url inst /\ parent inst' = parent inst /\
       animationParams inst' = animationParams inst).
Proof.
  intros ops ops' i inst. split; intros Hi.
  - destruct (gltf2_identity_kept ops ops' i inst Hi) as (x & Hx & ? & ? & ?).
    by exists x.
  - destruct (fbx_identity_kept ops ops' i inst Hi) as (x & Hx & ? & ? & ?).
    by exists x.
Qed.

(** X2: a GLTF2 instance accepts the definition it was created from, at any
    later time: when the constructor returned an instance for a definition
    (in which every truthy [syncWith] of truthy parameters converts to a
    property name), [update] of that instance with that definition returns
    [true]. *)
Theorem gltf2_accepts_own_definition :
  forall (ops ops' : list Op) (definition : value) (parent i : nat) (w' : World),
    GLTF2.constructor definition parent (GLTF2.run ops) = Return i w' ->
    syncable definition = true ->
    exists inst inst',
      instances (GLTF2.run (ops ++ CreateInstance definition parent :: ops'))
        !! i = Some inst /\
      Mesh.update definition inst = Return true inst'.
Proof.
  intros ops ops' d p i w' Hnew Hsync.
  rewrite constructor_cold in Hnew by apply run_cold.
  destruct (constructs_cases "gltf2" true d p (GLTF2.run ops))
    as [Hsame|(u & Hu & Hret)].
  { rewrite Hnew in Hsame. simpl in Hsame. subst w'. unfold constructs in Hnew.
    destruct (nullish d); [done|]. destruct (urlOf _); [done|].
    destruct (_ && _); [done|]. injection Hnew as _ Hw.
    apply (f_equal (fun w => length (instances w))) in Hw. simpl in Hw.
    rewrite length_app in Hw. simpl in Hw. lia. }
  assert (nullish d = false) as Hn.
  { unfold constructs in Hret. by destruct (nullish d). }
  rewrite Hret in Hnew. injection Hnew as <- <-.
  assert (instances (GLTF2.run (ops ++ [CreateInstance d p]))
            !! length (instances (GLTF2.run ops)) = Some (Mesh.fresh u p d)) as Hi.
  { rewrite gltf2_run_snoc. simpl.
    rewrite constructor_cold by apply run_cold. rewrite Hret. simpl.
    rewrite lookup_app_r by done. by rewrite Nat.sub_diag. }
  destruct (gltf2_identity_kept _ ops' _ _ Hi) as (inst & Hinst & Hurl & _).
  rewrite <- app_assoc in Hinst. simpl in Hinst.
  exists inst, (reconcile d inst). split; [done|].
  rewrite update_same_url by (by rewrite ?Hurl).
  rewrite updateAnimation_eq; [done| |by apply throws_in_syncable].
  by destruct (Forall_lookup_1 _ _ _ _ (gltf2_run_sound _) Hinst).
Qed.

(** X3: [update] is idempotent: on an instance of either loader, a second
    [update] with the same definition returns the same value and leaves the
    instance exactly as the first one did. *)
Theorem update_idempotent :
  forall (ops : list Op) (i : nat) (inst inst' : MeshInstance)
         (definition : value) (b : bool),
    instances (GLTF2.run ops) !! i = Some inst \/
    instances (FBX.run ops) !! i = Some inst ->
    Mesh.update definition inst = Return b inst' ->
    Mesh.update definition inst' = Return b inst'.
Proof.
  intros ops i inst inst' d b Hi Hup.
  assert (consistent inst) as Hc.
  { destruct Hi as [Hi|Hi].
    - by destruct (Forall_lookup_1 _ _ _ _ (gltf2_run_sound ops) Hi).
    - by destruct (bare_sound _ (Forall_lookup_1 _ _ _ _ (fbx_run_bare ops) Hi)). }
  destruct (update_final d inst Hc)
    as [Hsame|[(Hr & Hn & Hu & Hno)|(e & x & Hthrow & _)]].
  - rewrite Hup in Hsame. simpl in Hsame. by subst.
  - rewrite Hr in Hup. injection Hup as <- <-.
    destruct (reconcile_static d inst) as (Hurl & _ & _ & _ & _ & Hall & _).
    rewrite update_same_url by congruence.
    pose proof (reconcile_spec d inst Hc) as Hspec. cbv zeta in Hspec.
    destruct Hspec as (Hcx & _).
    rewrite updateAnimation_eq; [|done|].
    + simpl. by rewrite reconcile_idem.
    + unfold throws_in in *. by rewrite Hall.
  - congruence.
Qed.

(** X4: [update] spares what is not requested: on an instance of either
    loader, an action that is not the loaded animation of any requested
    name is left exactly as it was or is stopped; it is never started and
    its settings are never touched. *)
Theorem update_spares_unrequested :
  forall (ops : list Op) (i : nat) (inst : MeshInstance)
         (definition : value) (a : nat) (act : Action),
    instances (GLTF2.run ops) !! i = Some inst \/
    instances (FBX.run ops) !! i = Some inst ->
    actions inst !! a = Some act ->
    (forall key,
        key ∈ (entries (get definition "animations")).*1 ->
        allAnimations inst !! Mesh.animName key ≠ Some a) ->
    actions (final (Mesh.update definition inst)) !! a = Some act \/
    actions (final (Mesh.update definition inst)) !! a
      = Some (with_playing false act).
Proof.
  intros ops i inst d a act Hi Hact Hno.
  assert (consistent inst) as Hc.
  { destruct Hi as [Hi|Hi].
    - by destruct (Forall_lookup_1 _ _ _ _ (gltf2_run_sound ops) Hi).
    - by destruct (bare_sound _ (Forall_lookup_1 _ _ _ _ (fbx_run_bare ops) Hi)). }
  apply update_spares; auto.
Qed.

(** X5: a GLTF2 instance whose parameters do not set [play] never has an
    animation to play: in every state the loader can bring it to,
    [allAnimations] is empty and its mixer holds no action, and no [update]
    changes that. *)
Theorem gltf2_without_play_nothing_plays :
  forall (ops : list Op) (i : nat) (inst : MeshInstance) (definition : value),
    instances (GLTF2.run ops) !! i = Some inst ->
    truthy (get (animationParams inst) "play") = false ->
    allAnimations inst = ∅ /\ actions inst = [] /\
    actions (final (Mesh.update definition inst)) = [].
Proof.
  intros ops i inst d Hi Hplay.
  destruct (Forall_lookup_1 _ _ _ _ (silent_gltf2 ops) Hi Hplay) as [Hall Hacts].
  split; [done|]. split; [done|].
  destruct (Forall_lookup_1 _ _ _ _ (gltf2_run_sound ops) Hi) as [_ Hc].
  destruct (update_static d inst Hc) as (_&_&_&_&_&_&_&_&Hlen).
  apply length_zero_iff_nil. by rewrite Hlen, Hacts.
Qed.

(** X6: the FBX loader never attaches a scene to an instance (its load
    callback does not assign [this.scene]), so [dispose] of an FBX instance
    does nothing at all: the loader never calls [parent.remove], never
    releases a reference and never disposes an engine resource. *)
Theorem fbx_dispose_does_nothing :
  forall (ops : list Op),
    Forall (fun inst => scene inst = None) (instances (FBX.run ops)) /\
    (forall k, Mesh.dispose k (FBX.run ops) = FBX.run ops) /\
    Forall (fun e => detaches e = false) (effects (FBX.run ops)).
Proof.
  intros ops. split; [apply sceneless_fbx|].
  split; [apply fbx_dispose_noop|apply fbx_run_effects].
Qed.

(** X7: each constructor call that returns issues exactly one [loader.load],
    and nothing else ever does: in both loaders request [r] belongs to
    instance [r] and asks for that instance's URL, there are as many
    requests as instances, and an instance whose request is still pending
    has no scene, no mixer, no action and no loaded animation. *)
Theorem one_load_per_instance :
  forall (ops : list Op), linked (GLTF2.run ops) /\ linked (FBX.run ops).
Proof. intros ops. split; [apply gltf2_run_linked|apply fbx_run_linked]. Qed.

(** X8: before its load completes, [update] of an instance (of either
    loader, with a definition that passes the URL test) only records names:
    it returns [true] and sets [activeAnimations] to the requested names,
    nothing else; and when nothing is requested it changes nothing, so that
    the names recorded earlier stay. *)
Theorem update_before_load :
  forall (ops : list Op) (r : nat) (q : Request) (inst : MeshInstance)
         (definition : value),
    (requests (GLTF2.run ops) !! r = Some q /\
     instances (GLTF2.run ops) !! r = Some inst) \/
    (requests (FBX.run ops) !! r = Some q /\
     instances (FBX.run ops) !! r = Some inst) ->
    req_pending q = true ->
    nullish definition = false ->
    urlOf (get definition "gltf2") = inr (url inst) ->
    Mesh.update definition inst =
      Return true
        (if nothing_requested definition then inst
         else set_activeAnimations (requested (get definition "animations")) inst).
Proof.
  intros ops r q inst d Hw Hp Hn Hu.
  assert (unloaded inst) as Hun.
  { destruct Hw as [[Hr Hi]|[Hr Hi]].
    - destruct (gltf2_run_linked ops) as [_ Hl].
      destruct (Hl r q Hr) as (_ & x & Hx & _ & Hux).
      assert (x = inst) as -> by congruence. auto.
    - destruct (fbx_run_linked ops) as [_ Hl].
      destruct (Hl r q Hr) as (_ & x & Hx & _ & Hux).
      assert (x = inst) as -> by congruence. auto. }
  rewrite update_same_url by done.
  rewrite updateAnimation_eq;
    [|by apply unloaded_consistent|apply throws_in_none_loaded; apply Hun].
  destruct Hun as (_ & Hm & _ & _ & Hall). simpl.
  by rewrite reconcile_without.
Qed.

(** X9: when the GLTF2 load callback plays a model in which several clips
    bear the same name, [allAnimations] keeps the action of the last of
    them: that is the one a later [update] reaches by that name. *)
Theorem gltf2_last_clip_wins :
  forall (ops : list Op) (i : nat) (inst : MeshInstance) (gltf : Model)
         (k : nat) (name : string),
    instances (GLTF2.run ops) !! i = Some inst ->
    truthy (get (animationParams inst) "play") = true ->
    model_animations gltf !! k = Some name ->
    (forall k', k < k' -> model_animations gltf !! k' ≠ Some name) ->
    exists inst' act,
      GLTF2.loaded gltf inst = Return () inst' /\
      allAnimations inst' !! name = Some (length (actions inst) + k) /\
      actions inst' !! (length (actions inst) + k) = Some act /\
      act_clip act = k /\ act_playing act = true.
Proof.
  intros ops i inst g k name Hi Hplay Hk Hlast.
  destruct (Forall_lookup_1 _ _ _ _ (gltf2_run_sound ops) Hi) as [Hown _].
  eexists _, _. split; [by apply loaded_gltf2_spec|]. simpl.
  rewrite Hplay. split; [by apply registered_last|].
  rewrite lookup_app_r by lia.
  replace (length (actions inst) + k - length (actions inst)) with k by lia.
  rewrite started_from_lookup, Hk. simpl. split; [done|]. by split.
Qed.

(** X10: when an FBX load completes, the model is queued for attachment to
    the instance's parent exactly when it has at least one animation; for a
    model without animations the callback throws after creating the mixer,
    and nothing is queued. *)
Theorem fbx_attaches_only_with_animation :
  forall (ops : list Op) (r : nat) (q : Request) (fbx : Model),
    requests (FBX.run ops) !! r = Some q ->
    req_pending q = true ->
    exists inst inst',
      instances (FBX.run ops) !! r = Some inst /\
      instances (FBX.step (FBX.run ops) (LoadSucceeds r fbx)) !! r = Some inst' /\
      mixer inst' = Some 0 /\ scene inst' = None /\
      frames (FBX.step (FBX.run ops) (LoadSucceeds r fbx)) =
        frames (FBX.run ops) ++
          match model_animations fbx with
          | [] => []
          | _ :: _ => [AddNode (parent inst) (model_scene fbx)]
          end.
Proof.
  intros ops r q fbx Hr Hp.
  destruct (fbx_run_linked ops) as [_ Hl].
  destruct (Hl r q Hr) as (Hq & inst & Hi & _ & Hun).
  destruct (Hun Hp) as (Hs & Hm & Hms & Hacts & Hall).
  assert (well_owned inst) as Hown.
  { intros act Hact. rewrite Hacts in Hact. by apply elem_of_nil in Hact. }
  simpl. rewrite Hr, Hp, Hq.
  destruct (fbx_onLoad_final r fbx (Mesh.settle r (FBX.run ops)) inst Hi)
    as (Hinst & _ & _ & _ & _ & Hfr).
  exists inst, (final (FBX.loaded fbx inst)). split; [done|].
  rewrite Hinst, Hfr. simpl.
  rewrite list_lookup_insert_eq by by eapply lookup_lt_Some.
  split; [done|].
  destruct (model_animations fbx) as [|name rest] eqn:Hnames.
  - unfold FBX.loaded. simpl. rewrite Hnames, Hms. simpl. by rewrite Hs.
  - rewrite (loaded_fbx_spec fbx inst name rest) by done. simpl.
    by rewrite Hms, Hs.
Qed.

End Extras.

(** ** Attaching and detaching the scene *)

Section Attach.
Context {rt : Runtime}.

Lemma gltf2_load_spec ops r q g :
  requests (GLTF2.run ops) !! r = Some q ->
  req_pending q = true ->
  exists inst inst',
    instances (GLTF2.run ops) !! r = Some inst /\ unloaded inst /\
    instances (GLTF2.step (GLTF2.run ops) (LoadSucceeds r g))
      = <[r := inst']> (instances (GLTF2.run ops)) /\
    scene inst' = Some (model_scene g) /\ parent inst' = parent inst /\
    frames (GLTF2.step (GLTF2.run ops) (LoadSucceeds r g))
      = frames (GLTF2.run ops) ++ [AddSceneOf r (parent inst)] /\
    effects (GLTF2.step (GLTF2.run ops) (LoadSucceeds r g))
      = effects (GLTF2.run ops).
Proof.
  intros Hr Hp.
  destruct (gltf2_run_linked ops) as [_ Hl].
  destruct (Hl r q Hr) as (Hq & inst & Hi & _ & Hun). specialize (Hun Hp).
  destruct (Forall_lookup_1 _ _ _ _ (gltf2_run_sound ops) Hi) as [Hown _].
  simpl. rewrite Hr, Hp, Hq.
  destruct (gltf2_onLoad_final r g (Mesh.settle r (GLTF2.run ops)) inst Hi)
    as (Hinst & _ & Heff & Hfr).
  rewrite loaded_gltf2_spec in Hinst, Hfr by done.
  eexists inst, _. split; [done|]. split; [done|].
  split; [exact Hinst|]. split; [done|]. split; [done|]. by split.
Qed.

Lemma gltf2_load_then_tick ops r q g :
  requests (GLTF2.run ops) !! r = Some q ->
  req_pending q = true ->
  exists inst,
    instances (GLTF2.run ops) !! r = Some inst /\
    let w1 := GLTF2.step (GLTF2.run ops) (LoadSucceeds r g) in
    scene_of r w1 = Some (model_scene g) /\
    effects w1 = effects (GLTF2.run ops) /\
    frames w1 = frames (GLTF2.run ops) ++ [AddSceneOf r (parent inst)] /\
    frames (Mesh.tick w1) = [] /\
    effects (Mesh.tick w1)
      = effects (GLTF2.run ops)
          ++ (frame_effect (instances w1) <$> frames (GLTF2.run ops))
          ++ [ParentAdd (parent inst) (Some (model_scene g))].
Proof.
  intros Hr Hp.
  destruct (gltf2_load_spec ops r q g Hr Hp)
    as (inst & inst' & Hi & _ & Hinst & Hs & Hpar & Hfr & Heff).
  exists inst. split; [done|]. intros w1. fold w1 in Hinst, Hfr, Heff.
  assert (scene_of r w1 = Some (model_scene g)) as Hsc.
  { unfold scene_of. rewrite Hinst.
    rewrite list_lookup_insert_eq by by eapply lookup_lt_Some. done. }
  split; [done|]. split; [done|]. split; [done|].
  rewrite tick_spec. simpl. split; [done|].
  rewrite Hfr, Heff, fmap_app. simpl. do 4 f_equal. exact Hsc.
Qed.

(** X11: when a GLTF2 load completes, the callback returns, the instance
    gets the loaded scene, and the parent is not called: the callback only
    queues one frame callback.  At the next display refresh the callbacks
    queued before run first, and then this one adds the loaded scene to the
    parent given to the constructor. *)
Theorem gltf2_attaches_on_refresh :
  forall (ops : list Op) (r : nat) (q : Request) (gltf : Model),
    requests (GLTF2.run ops) !! r = Some q ->
    req_pending q = true ->
    exists inst,
      instances (GLTF2.run ops) !! r = Some inst /\
      let w1 := GLTF2.step (GLTF2.run ops) (LoadSucceeds r gltf) in
      scene_of r w1 = Some (model_scene gltf) /\
      effects w1 = effects (GLTF2.run ops) /\
      frames w1 = frames (GLTF2.run ops) ++ [AddSceneOf r (parent inst)] /\
      frames (Mesh.tick w1) = [] /\
      effects (Mesh.tick w1)
        = effects (GLTF2.run ops)
            ++ (frame_effect (instances w1) <$> frames (GLTF2.run ops))
            ++ [ParentAdd (parent inst) (Some (model_scene gltf))].
Proof. intros ops r q gltf. apply gltf2_load_then_tick. Qed.

(** X12: [dispose] does not cancel anything.  Disposing a GLTF2 instance
    while its load is pending changes nothing, and when the load completes
    the scene is attached to the parent all the same.  Disposing it between
    the load and the next display refresh removes the scene from the parent
    and then, at the refresh, the queued callback adds [undefined] to the
    parent. *)
Theorem gltf2_dispose_cancels_nothing :
  forall (ops : list Op) (r : nat) (q : Request) (gltf : Model),
    requests (GLTF2.run ops) !! r = Some q ->
    req_pending q = true ->
    exists inst,
      instances (GLTF2.run ops) !! r = Some inst /\
      (let w := GLTF2.run (ops ++ [Dispose r; LoadSucceeds r gltf; Tick]) in
       scene_of r w = Some (model_scene gltf) /\
       last (effects w) = Some (ParentAdd (parent inst) (Some (model_scene gltf)))) /\
      (let w := GLTF2.run (ops ++ [LoadSucceeds r gltf; Dispose r; Tick]) in
       scene_of r w = None /\
       ParentRemove (parent inst) (model_scene gltf) ∈ effects w /\
       last (effects w) = Some (ParentAdd (parent inst) None)).
Proof.
  intros ops r q g Hr Hp.
  destruct (gltf2_load_then_tick ops r q g Hr Hp)
    as (inst & Hi & Hsc & _ & _ & _ & Hlast).
  rewrite app_assoc in Hlast. apply (f_equal last) in Hlast.
  rewrite last_snoc in Hlast.
  destruct (gltf2_load_spec ops r q g Hr Hp)
    as (inst0 & inst' & Hi0 & Hun & Hinst & Hs & Hpar & Hfr & Heff).
  assert (inst0 = inst) as -> by congruence.
  exists inst. split; [done|].
  assert (forall w k, GLTF2.step w (Dispose k) = Mesh.dispose k w) as Hsd by done.
  assert (forall w, GLTF2.step w Tick = Mesh.tick w) as Hst by done.
  assert (forall w o1 o2 o3,
             foldl GLTF2.step w [o1; o2; o3]
               = GLTF2.step (GLTF2.step (GLTF2.step w o1) o2) o3) as H3 by done.
  split.
  - unfold GLTF2.run. rewrite foldl_app, H3. fold (GLTF2.run ops).
    rewrite Hsd, Hst. rewrite dispose_no_scene.
    2:{ unfold scene_of. rewrite Hi. simpl. by destruct Hun. }
    split; [|exact Hlast]. unfold scene_of. rewrite tick_instances. exact Hsc.
  - unfold GLTF2.run. rewrite foldl_app, H3. fold (GLTF2.run ops).
    rewrite Hsd, Hst.
    set (w1 := GLTF2.step (GLTF2.run ops) (LoadSucceeds r g)) in *.
    assert (instances w1 !! r = Some inst') as Hi1.
    { rewrite Hinst. apply list_lookup_insert_eq. by eapply lookup_lt_Some. }
    assert (cold w1) as Hc1 by apply step_cold, run_cold.
    rewrite (proj2 (dispose_cold_spec r w1 inst' _ Hc1 Hi1 Hs)).
    rewrite tick_spec. simpl.
    assert (<[r := set_scene None inst']> (instances w1) !! r
              = Some (set_scene None inst')) as Hi2.
    { apply list_lookup_insert_eq. by eapply lookup_lt_Some. }
    split; [unfold scene_of; simpl; by rewrite Hi2|]. split.
    + rewrite Hpar. set_solver.
    + rewrite Hfr, fmap_app, !app_assoc. simpl. rewrite last_snoc.
      do 2 f_equal. by rewrite Hi2.
Qed.

(** X14: where [canLoad] and the constructors fit together, and where not.
    Whenever [canLoad] returns a truthy value, that value is [true] and the
    definition has the loader's own field.  Constructing an instance from
    such a definition throws what [extractURL] throws on that field; in the
    GLTF2 loader it throws a TypeError when the URL is the name of a member
    of [Object.prototype]; in every other case it returns the new instance,
    having issued one load request for the URL of the field. *)
Theorem canLoad_then_createInstance :
  forall (ops : list Op) (definition v : value) (parent : nat),
    (canLoad "gltf2" definition = Return v () -> truthy v = true ->
     v = VBool true /\ hasOwnProperty definition "gltf2" = true /\
     GLTF2.constructor definition parent (GLTF2.run ops) =
       match urlOf (get definition "gltf2") with
       | inl e => Throws e (GLTF2.run ops)
       | inr u =>
           if inherited u then Throws TypeError (GLTF2.run ops)
           else Return (length (instances (GLTF2.run ops)))
                  (loading u parent definition (GLTF2.run ops))
       end) /\
    (canLoad "fbx" definition = Return v () -> truthy v = true ->
     v = VBool true /\ hasOwnProperty definition "fbx" = true /\
     FBX.constructor definition parent (FBX.run ops) =
       match urlOf (get definition "fbx") with
       | inl e => Throws e (FBX.run ops)
       | inr u =>
           Return (length (instances (FBX.run ops)))
             (loading u parent definition (FBX.run ops))
       end).
Proof.
  intros ops d v p.
  assert (forall field,
             canLoad field d = Return v () -> truthy v = true ->
             v = VBool true /\ hasOwnProperty d field = true /\ nullish d = false)
    as Hcan.
  { intros field Hc Hv. unfold canLoad in Hc.
    destruct (truthy d) eqn:Hd.
    - destruct (assoc "hasOwnProperty" (entries d)); [done|].
      injection Hc as <-. simpl in Hv. rewrite Hv.
      split; [done|]. split; [done|]. by destruct d.
    - injection Hc as <-. congruence. }
  split; intros Hc Hv; destruct (Hcan _ Hc Hv) as (-> & Hown & Hn);
    (split; [done|]); (split; [done|]).
  - rewrite constructor_cold by apply run_cold. unfold constructs.
    by rewrite Hn.
  - rewrite fbx_constructor_spec. unfold constructs. by rewrite Hn.
Qed.


End Attach.

(** ** Evaluations of the further properties *)

Lemma identity_never_changes_witness :
  exists inst',
    instances (GLTF2.run (rt := runtime_model)
                 ([CreateInstance gltf2_definition 0]
                    ++ [LoadSucceeds 0 sample_model; Update 0 update_definition]))
      !! 0 = Some inst' /\
    url inst' = "a.gltf".
Proof.
  destruct (proj1 (identity_never_changes (rt := runtime_model)
                     [CreateInstance gltf2_definition 0]
                     [LoadSucceeds 0 sample_model; Update 0 update_definition]
                     0 (Mesh.fresh "a.gltf" 0 gltf2_definition)))
    as (x & Hx & Hu & _).
  - vm_compute. reflexivity.
  - exists x. split; [exact Hx|exact Hu].
Defined.

Lemma gltf2_accepts_own_definition_witness :
  exists inst inst',
    instances (GLTF2.run (rt := runtime_model)
                 ([] ++ CreateInstance gltf2_definition 0
                    :: [LoadSucceeds 0 sample_model]))
      !! 0 = Some inst /\
    Mesh.update (rt := runtime_model) gltf2_definition inst = Return true inst'.
Proof.
  apply (gltf2_accepts_own_definition (rt := runtime_model) []
           [LoadSucceeds 0 sample_model] gltf2_definition 0 0 pending_world).
  - vm_compute. reflexivity.
  - reflexivity.
Defined.

Lemma update_idempotent_witness :
  exists inst',
    Mesh.update (rt := runtime_model) update_definition loaded_instance
      = Return true inst' /\
    Mesh.update (rt := runtime_model) update_definition inst' = Return true inst'.
Proof.
  eexists. split; [vm_compute; reflexivity|].
  apply (update_idempotent (rt := runtime_model) gltf2_ops 0 loaded_instance _
           update_definition true).
  - left. vm_compute. reflexivity.
  - vm_compute. reflexivity.
Defined.

Lemma update_spares_unrequested_witness :
  let act := started 0 1 (VNum 0) (VNum 1) (VNum 1) in
  actions (final (Mesh.update (rt := runtime_model) update_definition loaded_instance))
    !! 1 = Some act \/
  actions (final (Mesh.update (rt := runtime_model) update_definition loaded_instance))
    !! 1 = Some (with_playing false act).
Proof.
  intros act.
  apply (update_spares_unrequested (rt := runtime_model) gltf2_ops 0
           loaded_instance update_definition 1 act).
  - left. vm_compute. reflexivity.
  - vm_compute. reflexivity.
  - intros key Hkey. simpl in Hkey.
    apply list_elem_of_singleton in Hkey as ->.
    vm_compute. discriminate.
Defined.

Lemma gltf2_without_play_nothing_plays_witness :
  allAnimations quiet_instance = ∅ /\ actions quiet_instance = [] /\
  actions (final (Mesh.update (rt := runtime_model) update_definition quiet_instance))
    = [].
Proof.
  apply (gltf2_without_play_nothing_plays (rt := runtime_model) quiet_ops 0
           quiet_instance update_definition).
  - vm_compute. reflexivity.
  - vm_compute. reflexivity.
Defined.

Lemma update_before_load_witness :
  Mesh.update (rt := runtime_model) update_definition
    (Mesh.fresh "a.gltf" 0 gltf2_definition) =
    Return true
      (set_activeAnimations (requested (get update_definition "animations"))
         (Mesh.fresh "a.gltf" 0 gltf2_definition)).
Proof.
  apply (update_before_load (rt := runtime_model)
           [CreateInstance gltf2_definition 0] 0 (first_request "a.gltf")
           (Mesh.fresh "a.gltf" 0 gltf2_definition) update_definition).
  - left. split; vm_compute; reflexivity.
  - reflexivity.
  - reflexivity.
  - vm_compute. reflexivity.
Defined.

Lemma gltf2_last_clip_wins_witness :
  exists inst' act,
    GLTF2.loaded twin_model (Mesh.fresh "a.gltf" 0 gltf2_definition)
      = Return () inst' /\
    allAnimations inst' !! "animation_walk" = Some 1 /\
    actions inst' !! 1 = Some act /\
    act_clip act = 1 /\ act_playing act = true.
Proof.
  apply (gltf2_last_clip_wins (rt := runtime_model)
           [CreateInstance gltf2_definition 0] 0
           (Mesh.fresh "a.gltf" 0 gltf2_definition) twin_model 1
           "animation_walk").
  - vm_compute. reflexivity.
  - reflexivity.
  - reflexivity.
  - intros [|[|[|k']]] Hlt; (lia || done).
Defined.

Lemma fbx_attaches_only_with_animation_witness :
  exists inst inst',
    instances (FBX.run (rt := runtime_model) fbx_pending_ops) !! 0 = Some inst /\
    instances (FBX.step (rt := runtime_model)
                 (FBX.run (rt := runtime_model) fbx_pending_ops)
                 (LoadSucceeds 0 sample_model)) !! 0 = Some inst' /\
    mixer inst' = Some 0 /\ scene inst' = None /\
    frames (FBX.step (rt := runtime_model)
              (FBX.run (rt := runtime_model) fbx_pending_ops)
              (LoadSucceeds 0 sample_model)) =
      frames (FBX.run (rt := runtime_model) fbx_pending_ops)
        ++ [AddNode (parent inst) sample_scene].
Proof.
  apply (fbx_attaches_only_with_animation (rt := runtime_model) fbx_pending_ops 0
           (first_request "a.fbx") sample_model).
  - vm_compute. reflexivity.
  - reflexivity.
Defined.

Lemma gltf2_attaches_on_refresh_witness :
  exists inst,
    instances pending_world !! 0 = Some inst /\
    let w1 := GLTF2.step (rt := runtime_model) pending_world
                (LoadSucceeds 0 sample_model) in
    scene_of 0 w1 = Some sample_scene /\
    effects w1 = effects pending_world /\
    frames w1 = frames pending_world ++ [AddSceneOf 0 (parent inst)] /\
    frames (Mesh.tick w1) = [] /\
    effects (Mesh.tick w1)
      = effects pending_world
          ++ (frame_effect (instances w1) <$> frames pending_world)
          ++ [ParentAdd (parent inst) (Some sample_scene)].
Proof.
  apply (gltf2_attaches_on_refresh (rt := runtime_model)
           [CreateInstance gltf2_definition 0] 0 (first_request "a.gltf")
           sample_model).
  - vm_compute. reflexivity.
  - reflexivity.
Defined.

Lemma gltf2_dispose_cancels_nothing_witness :
  exists inst,
    instances pending_world !! 0 = Some inst /\
    (let w := GLTF2.run (rt := runtime_model)
                ([CreateInstance gltf2_definition 0]
                   ++ [Dispose 0; LoadSucceeds 0 sample_model; Tick]) in
     scene_of 0 w = Some sample_scene /\
     last (effects w) = Some (ParentAdd (parent inst) (Some sample_scene))) /\
    (let w := GLTF2.run (rt := runtime_model)
                ([CreateInstance gltf2_definition 0]
                   ++ [LoadSucceeds 0 sample_model; Dispose 0; Tick]) in
     scene_of 0 w = None /\
     ParentRemove (parent inst) sample_scene ∈ effects w /\
     last (effects w) = Some (ParentAdd (parent inst) None)).
Proof.
  apply (gltf2_dispose_cancels_nothing (rt := runtime_model)
           [CreateInstance gltf2_definition 0] 0 (first_request "a.gltf")
           sample_model).
  - vm_compute. reflexivity.
  - reflexivity.
Defined.

Lemma canLoad_then_createInstance_witness :
  (hasOwnProperty gltf2_definition "gltf2" = true /\
   GLTF2.constructor (rt := runtime_model) gltf2_definition 0
     (GLTF2.run (rt := runtime_model) []) =
     Return 0 (loading "a.gltf" 0 gltf2_definition
                 (GLTF2.run (rt := runtime_model) []))) /\
  (hasOwnProperty fbx_definition "fbx" = true /\
   FBX.constructor (rt := runtime_model) fbx_definition 0
     (FBX.run (rt := runtime_model) []) =
     Return 0 (loading "a.fbx" 0 fbx_definition
                 (FBX.run (rt := runtime_model) []))).
Proof.
  split.
  - destruct (proj1 (canLoad_then_createInstance (rt := runtime_model) []
                       gltf2_definition (VBool true) 0) eq_refl eq_refl)
      as (_ & Hown & Hc).
    split; [exact Hown|exact Hc].
  - destruct (proj2 (canLoad_then_createInstance (rt := runtime_model) []
                       fbx_definition (VBool true) 0) eq_refl eq_refl)
      as (_ & Hown & Hc).
    split; [exact Hown|exact Hc].
Defined.


(** ** Further properties: errors, disposal, synchronisation *)

Lemma Node_nested_ind (P : Node -> Prop) :
  (forall id own g m children,
      Forall P children -> P (MkNode id own g m children)) ->
  forall n, P n.
Proof.
  intros H. fix IH 1. intros [id own g m children]. apply H.
  induction children as [|c children IHc]; constructor; [apply IH|exact IHc].
Qed.

Lemma reachable_trans root n c :
  reachable root n -> reachable n c -> reachable root c.
Proof.
  intros Hn Hc. induction Hc as [|x y _ IH Hy]; [done|].
  by eapply reach_child.
Qed.

(** X16: [recursiveDispose] disposes nothing but what hangs on the scene
    graph it is given: every call it makes is the own [dispose] of a node
    reachable from the root (one that has such a method), or the [dispose]
    of the geometry or of the material of such a node. *)
Theorem recursiveDispose_only_reachable :
  forall (root : Node) (d : Disposed),
    d ∈ recursiveDispose root ->
    exists n, reachable root n /\ disposes_of n d.
Proof.
  intros root. induction root as [id own g m children IH] using Node_nested_ind.
  intros d. simpl. rewrite !elem_of_app. intros [Hd|[Hd|[Hd|Hd]]].
  - destruct own; [|by apply elem_of_nil in Hd].
    apply list_elem_of_singleton in Hd as ->.
    eexists. split; [apply reach_root|]. by left.
  - destruct g as [x|]; [|by apply elem_of_nil in Hd].
    apply list_elem_of_singleton in Hd as ->.
    eexists. split; [apply reach_root|]. right. left. by exists x.
  - destruct m as [x|]; [|by apply elem_of_nil in Hd].
    apply list_elem_of_singleton in Hd as ->.
    eexists. split; [apply reach_root|]. right. right. by exists x.
  - apply list_elem_of_In, in_flat_map in Hd as (c & Hc & Hd).
    apply list_elem_of_In in Hc, Hd.
    rewrite Forall_forall in IH. destruct (IH c Hc d Hd) as (n & Hn & Hdn).
    exists n. split; [|done].
    eapply reachable_trans; [|exact Hn].
    eapply reach_child; [apply reach_root|done].
Qed.

Lemma recursiveDispose_only_reachable_witness :
  exists n, reachable sample_scene n /\ disposes_of n (DGeometry 11).
Proof.
  apply (recursiveDispose_only_reachable sample_scene (DGeometry 11)).
  vm_compute. set_solver.
Defined.

Section Errors.
Context {rt : Runtime}.

(** X17: a definition that is [null] or [undefined] makes both constructors
    and [update] throw a TypeError before they change anything: a loader
    asked to create an instance from it, or to update an instance with it,
    is left exactly as it was. *)
Theorem null_definition_throws :
  forall (definition : value) (parent k : nat) (w : World) (inst : MeshInstance),
    nullish definition = true ->
    GLTF2.constructor definition parent w = Throws TypeError w /\
    FBX.constructor definition parent w = Throws TypeError w /\
    Mesh.update definition inst = Throws TypeError inst /\
    GLTF2.step w (CreateInstance definition parent) = w /\
    FBX.step w (CreateInstance definition parent) = w /\
    GLTF2.step w (Update k definition) = w /\
    FBX.step w (Update k definition) = w.
Proof.
  intros d p k w inst Hn.
  assert (forall x, Mesh.update d x = Throws TypeError x) as Hup
    by (intros x; by apply update_nullish).
  assert (match on_instance k (Mesh.update d) w with
          | Some c => final c
          | None => w
          end = w) as Hw.
  { unfold on_instance. destruct (instances w !! k) as [x|] eqn:Hx; [|done].
    rewrite Hup. simpl. unfold set_instance.
    rewrite list_insert_id by done. by destruct w. }
  unfold GLTF2.constructor, FBX.constructor. simpl.
  unfold GLTF2.constructor, FBX.constructor. rewrite Hn. by repeat split.
Qed.

(** X18: [syncWith] names a loaded animation by its full name, without the
    prefix put before the keys: when [update] (with a definition in which
    every [syncWith] converts to a property name) requests a loaded
    animation with truthy parameters whose [syncWith] is the name of a
    loaded animation, the requested action is synchronised with that one. *)
Theorem update_syncs_with_loaded :
  forall (ops : list Op) (i : nat) (inst : MeshInstance) (definition : value)
         (key name : string) (a b : nat),
    instances (GLTF2.run ops) !! i = Some inst \/
    instances (FBX.run ops) !! i = Some inst ->
    nullish definition = false ->
    urlOf (get definition "gltf2") = inr (url inst) ->
    syncable definition = true ->
    nothing_requested definition = false ->
    key ∈ (entries (get definition "animations")).*1 ->
    truthy (get (get definition "animations") key) = true ->
    truthy (get (get (get definition "animations") key) "syncWith") = true ->
    allAnimations inst !! Mesh.animName key = Some a ->
    propertyKey (get (get (get definition "animations") key) "syncWith")
      = inr name ->
    allAnimations inst !! name = Some b ->
    exists inst' act,
      Mesh.update definition inst = Return true inst' /\
      actions inst' !! a = Some act /\ act_sync act = Some (ThisAction b).
Proof.
  intros ops i inst d key name a b Hi Hn Hu Hsync Hreq Hkey Hp Hs Ha Hname Hb.
  assert (consistent inst) as Hc.
  { destruct Hi as [Hi|Hi].
    - by destruct (Forall_lookup_1 _ _ _ _ (gltf2_run_sound ops) Hi).
    - by destruct (bare_sound _ (Forall_lookup_1 _ _ _ _ (fbx_run_bare ops) Hi)). }
  rewrite update_same_url by done.
  rewrite updateAnimation_eq by (by try apply throws_in_syncable). simpl.
  destruct Hc as (Hcall & Hrest). destruct (Hcall _ _ Ha) as (act & Hact & _).
  destruct (reconcile_lookup d inst a act (conj Hcall Hrest) Hreq Hact) as [H1 _].
  eexists _, _. split; [done|]. split; [by apply H1|].
  unfold settled, adjusted, configured_action, read.
  by rewrite Hp, Hs, Hname, Hb.
Qed.


(** X19: a loaded animation whose name does not begin with "animation_" is
    out of reach of the requests of [update], which puts that prefix before
    every key: whatever the definition, [update] leaves its action as it was
    or stops it. *)
Theorem unprefixed_clip_out_of_reach :
  forall (ops : list Op) (i : nat) (inst : MeshInstance) (definition : value)
         (name : string) (a : nat) (act : Action),
    instances (GLTF2.run ops) !! i = Some inst ->
    (forall key, name ≠ Mesh.animName key) ->
    allAnimations inst !! name = Some a ->
    actions inst !! a = Some act ->
    actions (final (Mesh.update definition inst)) !! a = Some act \/
    actions (final (Mesh.update definition inst)) !! a
      = Some (with_playing false act).
Proof.
  intros ops i inst d name a act Hi Hname Ha Hact.
  destruct (Forall_lookup_1 _ _ _ _ (gltf2_run_sound ops) Hi)
    as (Hown & Hcall & Hdist & Hplay).
  pose proof (conj Hcall (conj Hdist Hplay) : consistent inst) as Hc.
  apply update_spares; [done|done|].
  intros _ key _ Ha'. apply (Hname key). by eapply Hdist.
Qed.

End Errors.

Lemma null_definition_throws_witness :
  GLTF2.step (rt := runtime_model) gltf2_world (Update 0 VNull) = gltf2_world.
Proof.
  exact (proj1 (proj2 (proj2 (proj2 (proj2 (proj2
           (null_definition_throws (rt := runtime_model) VNull 0 0 gltf2_world
              loaded_instance eq_refl))))))).
Defined.

Lemma update_syncs_with_loaded_witness :
  exists inst' act,
    Mesh.update (rt := runtime_model) sync_definition loaded_instance
      = Return true inst' /\
    actions inst' !! 0 = Some act /\ act_sync act = Some (ThisAction 1).
Proof.
  apply (update_syncs_with_loaded (rt := runtime_model) gltf2_ops 0
           loaded_instance sync_definition "walk" "animation_run" 0 1).
  - left. vm_compute. reflexivity.
  - reflexivity.
  - vm_compute. reflexivity.
  - reflexivity.
  - vm_compute. reflexivity.
  - simpl. set_solver.
  - reflexivity.
  - reflexivity.
  - vm_compute. reflexivity.
  - reflexivity.
  - vm_compute. reflexivity.
Defined.

Lemma unprefixed_clip_out_of_reach_witness :
  let act := started 0 1 (VNum 0) (VNum 1) (VNum 1) in
  actions (final (Mesh.update (rt := runtime_model) update_definition plain_instance))
    !! 1 = Some act \/
  actions (final (Mesh.update (rt := runtime_model) update_definition plain_instance))
    !! 1 = Some (with_playing false act).
Proof.
  intros act.
  apply (unprefixed_clip_out_of_reach (rt := runtime_model) plain_ops 0
           plain_instance update_definition "run" 1 act).
  - vm_compute. reflexivity.
  - intros key. unfold Mesh.animName. cbv [String.append]. discriminate.
  - vm_compute. reflexivity.
  - vm_compute. reflexivity.
Defined.

